(** * A shallow embedding of [inline-array] (src/src/lib.rs)

    The model is sequential: every operation of [InlineArray] runs on a
    byte-addressed heap with explicit state passing.  The target is a
    64-bit little-endian machine (the source only compiles for 64-bit
    [usize], see [BigRemoteHeader::len]); pointers are [Z] in
    [0, 2^64), bytes are [Z] in [0, 256). *)

From Stdlib Require Import ZArith Lia List Bool.
From stdpp Require Import base gmap list fin_maps.
From Stdlib Require Strings.String Strings.Ascii.

Open Scope Z_scope.

(** ** Constants (lib.rs lines 37-46) *)

Definition SZ : Z := 8.
Definition INLINE_CUTOFF : Z := SZ - 1.
Definition SMALL_REMOTE_CUTOFF : Z := 255.
Definition BIG_REMOTE_LEN_BYTES : nat := 6.

Definition INLINE_TRAILER_TAG : Z := 0.
Definition SMALL_REMOTE_TRAILER_TAG : Z := 1.
Definition BIG_REMOTE_TRAILER_TAG : Z := 2.
Definition TRAILER_TAG_MASK : Z := 3.
Definition TRAILER_PTR_MASK : Z := 252.

Definition U8_MAX : Z := 255.
Definition U16_MAX : Z := 65535.
Definition ISIZE_MAX : Z := 2 ^ 63 - 1.

(** [size_of::<SmallRemoteTrailer>()] and [size_of::<BigRemoteHeader>()]
    (both checked by [_static_tests]). *)
Definition SMALL_TRAILER_SIZE : Z := 2.
Definition BIG_HEADER_SIZE : Z := 8.

Inductive Kind := Inline | SmallRemote | BigRemote.

Global Instance Kind_eq_dec : EqDecision Kind.
Proof. solve_decision. Defined.

(** ** Native-endian (little-endian) byte encodings *)

(** [x.to_le_bytes()] restricted to [n] bytes. *)
Fixpoint le_bytes (x : Z) (n : nat) : list Z :=
  match n with
  | O => []
  | S n' => Z.land x 255 :: le_bytes (Z.shiftr x 8) n'
  end.

(** [usize::from_le_bytes] / an unaligned native-endian read. *)
Fixpoint le_to_Z (l : list Z) : Z :=
  match l with
  | [] => 0
  | b :: l' => b + 256 * le_to_Z l'
  end.

Definition is_byte (b : Z) : bool := (0 <=? b) && (b <? 256).
Definition bytes_ok (l : list Z) : bool := forallb is_byte l.

(** ** The value: [pub struct InlineArray([u8; SZ])] *)

Record InlineArray := mkIA { ia_data : list Z }.

(** ** Heap model *)

Record Layout := mkLayout { lay_size : Z; lay_align : Z }.

Global Instance Layout_eq_dec : EqDecision Layout.
Proof. solve_decision. Defined.

(** [h_mem] holds the initialised bytes; [h_blocks] the live allocations,
    keyed by base address, with the layout they were allocated with. *)
Record Heap := mkHeap { h_mem : gmap Z Z; h_blocks : gmap Z Layout }.

Definition heap_empty : Heap := mkHeap ∅ ∅.

(** [Layout::from_size_align]: the alignment is a power of two and the
    size rounded up to it does not exceed [isize::MAX]. *)
Definition from_size_align (size align : Z) : option Layout :=
  if (0 <? align) && (Z.land align (align - 1) =? 0)
     && (size <=? ISIZE_MAX - (align - 1))
  then Some (mkLayout size align) else None.

(** The allocator's contract: a returned block is non-null, aligned, fits
    in the address space and overlaps no live block. *)
Definition disjoint_from (a sz : Z) (blocks : gmap Z Layout) : Prop :=
  map_Forall (fun b l => a + sz <= b \/ b + lay_size l <= a) blocks.

Global Instance disjoint_from_dec a sz blocks : Decision (disjoint_from a sz blocks).
Proof. unfold disjoint_from. apply _. Defined.

Definition alloc_fresh (h : Heap) (l : Layout) (a : Z) : bool :=
  (0 <? a) && (a mod lay_align l =? 0) && (a + lay_size l <=? 2 ^ 64)
  && bool_decide (disjoint_from a (lay_size l) (h_blocks h)).

(** ** A state and error monad *)

Inductive PanicKind :=
  | PAllocNull        (* assert!(!ptr.is_null()) : allocation failure *)
  | PAssertLen        (* assert_eq!(slice_len_buf[6 or 7], 0) *)
  | PAssertAlign      (* assert_eq!(data[SZ - 1] & 0b111, 0) *)
  | PAssertKind       (* the kind assertions of the accessors *)
  | PUnwrap           (* Layout::from_size_align(..).unwrap() *)
  | PIndex.           (* slice index out of range *)

Inductive outcome (A : Type) :=
  | Ok (a : A) (h : Heap)
  | Panicked (p : PanicKind)
  | UB.
Arguments Ok {A} a h.
Arguments Panicked {A} p.
Arguments UB {A}.

Definition M (A : Type) : Type := Heap -> outcome A.

Definition ret {A} (a : A) : M A := fun h => Ok a h.
Definition bind {A B} (m : M A) (f : A -> M B) : M B :=
  fun h => match m h with
           | Ok a h' => f a h'
           | Panicked p => Panicked p
           | UB => UB
           end.
Definition panic {A} (p : PanicKind) : M A := fun _ => Panicked p.
Definition ub {A} : M A := fun _ => UB.
Definition assert (b : bool) (p : PanicKind) : M unit :=
  if b then ret tt else panic p.
Definition unwrap {A} (o : option A) : M A :=
  match o with Some a => ret a | None => panic PUnwrap end.

Notation "'let!' x ':=' m 'in' k" := (bind m (fun x => k))
  (at level 200, x name, m at level 100, k at level 200).
Notation "m ';;;' k" := (bind m (fun _ => k))
  (at level 100, k at level 200, right associativity).

(** Memory primitives.  Reading an uninitialised or freed byte is
    undefined behaviour. *)
Definition load (x : Z) : M Z :=
  fun h => match h_mem h !! x with Some b => Ok b h | None => UB end.

Definition store (x b : Z) : M unit :=
  fun h => Ok tt (mkHeap (<[x := b]> (h_mem h)) (h_blocks h)).

Fixpoint read_bytes (x : Z) (n : nat) : M (list Z) :=
  match n with
  | O => ret []
  | S n' => let! b := load x in let! bs := read_bytes (x + 1) n' in ret (b :: bs)
  end.

Fixpoint write_bytes (x : Z) (l : list Z) : M unit :=
  match l with
  | [] => ret tt
  | b :: l' => store x b ;;; write_bytes (x + 1) l'
  end.

(** [std::alloc::alloc]: the allocator's answer [a] is an input of the
    model; any answer that breaks the allocator's contract stands for a
    failed allocation, i.e. a null pointer. *)
Definition alloc (a : Z) (l : Layout) : M Z :=
  fun h => if alloc_fresh h l a
           then Ok a (mkHeap (h_mem h) (<[a := l]> (h_blocks h)))
           else Ok 0 h.

Fixpoint range_delete (x : Z) (n : nat) (m : gmap Z Z) : gmap Z Z :=
  match n with
  | O => m
  | S n' => delete x (range_delete (x + 1) n' m)
  end.

(** [std::alloc::dealloc]: the pointer must be the base of a live block
    allocated with the same layout. *)
Definition dealloc (p : Z) (l : Layout) : M unit :=
  fun h => match h_blocks h !! p with
           | Some l' => if decide (l = l')
                        then Ok tt (mkHeap (range_delete p (Z.to_nat (lay_size l)) (h_mem h))
                                           (delete p (h_blocks h)))
                        else UB
           | None => UB
           end.

(** ** Tag decoding (lib.rs lines 355-373, the non-miri build) *)

Definition inline_trailer (v : InlineArray) : Z := nth 7 (ia_data v) 0.

Definition inline_len (v : InlineArray) : Z := Z.shiftr (inline_trailer v) 2.

(** Tag [0b11] reaches [unreachable_unchecked]: undefined behaviour. *)
Definition kind (v : InlineArray) : M Kind :=
  let t := Z.land (inline_trailer v) TRAILER_TAG_MASK in
  if t =? INLINE_TRAILER_TAG then ret Inline
  else if t =? SMALL_REMOTE_TRAILER_TAG then ret SmallRemote
  else if t =? BIG_REMOTE_TRAILER_TAG then ret BigRemote
  else ub.

(** [remote_ptr]: clear the tag bits of the last byte and read the eight
    bytes as a native-endian pointer. *)
Definition decode_ptr (data : list Z) : Z :=
  le_to_Z (<[7%nat := Z.land (nth 7 data 0) TRAILER_PTR_MASK]> data).

Definition remote_ptr (v : InlineArray) : M Z :=
  let! k := kind v in
  if decide (k = Inline) then panic PAssertKind
  else ret (decode_ptr (ia_data v)).

Definition deref_small_trailer (v : InlineArray) : M Z :=
  let! k := kind v in
  if decide (k = SmallRemote) then remote_ptr v else panic PAssertKind.

Definition deref_big_header (v : InlineArray) : M Z :=
  let! k := kind v in
  if decide (k = BigRemote) then remote_ptr v else panic PAssertKind.

(** Field accessors.  [SmallRemoteTrailer] is [{ rc: AtomicU8, len: u8 }]
    at the trailer address [t]; [BigRemoteHeader] is
    [{ rc: AtomicU16, len: [u8; 6] }] at the header address [hp]. *)
Definition small_rc (t : Z) : M Z := load t.
Definition small_len (t : Z) : M Z := load (t + 1).

Definition big_rc_load (hp : Z) : M Z :=
  let! l := read_bytes hp 2 in ret (le_to_Z l).
Definition big_rc_store (hp c : Z) : M unit := write_bytes hp (le_bytes c 2).

(** [BigRemoteHeader::len]: the six length bytes padded with two zeros. *)
Definition big_len (hp : Z) : M Z :=
  let! l := read_bytes (hp + 2) BIG_REMOTE_LEN_BYTES in ret (le_to_Z (l ++ [0; 0])).

(** ** Construction: [InlineArray::new] (lib.rs lines 253-320) *)

(** The eight bytes [std::ptr::write_unaligned] stores for a pointer. *)
Definition ptr_bytes (p : Z) : list Z := le_bytes p 8.

Definition new (a : Z) (slice : list Z) : M InlineArray :=
  let len := Z.of_nat (length slice) in
  let data := repeat 0 8 in
  if len <=? INLINE_CUTOFF then
    let data := <[7%nat := Z.land (Z.shiftl len 2) 255]> data in
    let data := slice ++ drop (length slice) data in
    let data := <[7%nat := Z.lor (nth 7 data 0) INLINE_TRAILER_TAG]> data in
    ret (mkIA data)
  else if len <=? SMALL_REMOTE_CUTOFF then
    let! layout := unwrap (from_size_align (len + SMALL_TRAILER_SIZE) 8) in
    let! data_ptr := alloc a layout in
    assert (negb (data_ptr =? 0)) PAllocNull ;;;
    let trailer_ptr := data_ptr + len in
    write_bytes trailer_ptr [1; len] ;;;
    write_bytes data_ptr slice ;;;
    let data := ptr_bytes trailer_ptr in
    assert (Z.land (nth 7 data 0) 7 =? 0) PAssertAlign ;;;
    ret (mkIA (<[7%nat := Z.lor (nth 7 data 0) SMALL_REMOTE_TRAILER_TAG]> data))
  else
    let! layout := unwrap (from_size_align (len + BIG_HEADER_SIZE) 8) in
    let slice_len_buf := le_bytes len 8 in
    let hlen := firstn BIG_REMOTE_LEN_BYTES slice_len_buf in
    assert (nth 6 slice_len_buf 0 =? 0) PAssertLen ;;;
    assert (nth 7 slice_len_buf 0 =? 0) PAssertLen ;;;
    let! header_ptr := alloc a layout in
    assert (negb (header_ptr =? 0)) PAllocNull ;;;
    let data_ptr := header_ptr + BIG_HEADER_SIZE in
    write_bytes header_ptr (le_bytes 1 2 ++ hlen) ;;;
    write_bytes data_ptr slice ;;;
    let data := ptr_bytes header_ptr in
    assert (Z.land (nth 7 data 0) 7 =? 0) PAssertAlign ;;;
    ret (mkIA (<[7%nat := Z.lor (nth 7 data 0) BIG_REMOTE_TRAILER_TAG]> data)).

(** ** The read view: [Deref::deref] (lib.rs lines 212-231) *)

(** A [&[u8]] (or [&mut [u8]]) handed out by the value: a prefix of the
    value's own eight bytes, or [len] bytes of heap memory at [ptr]. *)
Inductive Slice := SInline (n : Z) | SHeap (ptr n : Z).

Definition slice_len (sl : Slice) : Z :=
  match sl with SInline n => n | SHeap _ n => n end.

Definition deref (v : InlineArray) : M Slice :=
  let! k := kind v in
  match k with
  | Inline =>
      let n := inline_len v in
      if n <=? SZ then ret (SInline n) else panic PIndex
  | SmallRemote =>
      let! t := deref_small_trailer v in
      let! len := small_len t in
      let! p := remote_ptr v in
      ret (SHeap (p - len) len)
  | BigRemote =>
      let! p := remote_ptr v in
      let data_ptr := p + BIG_HEADER_SIZE in
      let! hp := deref_big_header v in
      let! len := big_len hp in
      ret (SHeap data_ptr len)
  end.

(** The bytes a slice designates. *)
Definition read_slice (v : InlineArray) (sl : Slice) : M (list Z) :=
  match sl with
  | SInline n => ret (firstn (Z.to_nat n) (ia_data v))
  | SHeap p n => read_bytes p (Z.to_nat n)
  end.

Definition view (v : InlineArray) : M (list Z) :=
  let! sl := deref v in read_slice v sl.

(** [len()] through [Deref]. *)
Definition len (v : InlineArray) : M Z :=
  let! sl := deref v in ret (slice_len sl).

(** The address a slice starts at; [self_addr] is where the value itself
    lives. *)
Definition slice_ptr (self_addr : Z) (sl : Slice) : Z :=
  match sl with SInline _ => self_addr | SHeap p _ => p end.

(** ** Clone (lib.rs lines 82-136) *)

(** The relaxed CAS loop on a refcount, run alone: [spurious] is the
    number of times [compare_exchange_weak] fails spuriously before it
    succeeds.  The result is [false] when the loop observed the maximum and
    the clone must take the copying fallback, [true] once the increment
    has been stored. *)
Fixpoint cas_loop (ld : M Z) (st : Z -> M unit) (max : Z) (spurious : nat) : M bool :=
  let! current := ld in
  if current =? max then ret false
  else match spurious with
       | O => st (current + 1) ;;; ret true
       | S n => cas_loop ld st max n
       end.

(** [a] is the allocator's answer for the fallback copy. *)
Definition clone (a : Z) (spurious : nat) (v : InlineArray) : M InlineArray :=
  let! k := kind v in
  if decide (k = SmallRemote) then
    let! t := deref_small_trailer v in
    let! incremented := cas_loop (small_rc t) (store t) U8_MAX spurious in
    if incremented then ret (mkIA (ia_data v))
    else let! s := view v in new a s
  else
    let! k' := kind v in
    if decide (k' = BigRemote) then
      let! hp := deref_big_header v in
      let! incremented := cas_loop (big_rc_load hp) (big_rc_store hp) U16_MAX spurious in
      if incremented then ret (mkIA (ia_data v))
      else let! s := view v in new a s
    else ret (mkIA (ia_data v)).

(** ** Drop (lib.rs lines 138-177) *)

(** [fetch_sub(1)] and the following [- 1] are on [u8] / [u16]; they are
    written with wrap-around. *)
Definition drop (v : InlineArray) : M unit :=
  let! k := kind v in
  if decide (k = SmallRemote) then
    let! t := deref_small_trailer v in
    let! prev := small_rc t in
    store t ((prev - 1) mod 256) ;;;
    let rc := (prev - 1) mod 256 in
    if rc =? 0 then
      let! l := small_len t in
      let! layout := unwrap (from_size_align (l + SMALL_TRAILER_SIZE) 8) in
      let! p := remote_ptr v in
      let! l' := small_len t in
      dealloc (p - l') layout
    else ret tt
  else if decide (k = BigRemote) then
    let! hp := deref_big_header v in
    let! prev := big_rc_load hp in
    big_rc_store hp ((prev - 1) mod 65536) ;;;
    let rc := (prev - 1) mod 65536 in
    if rc =? 0 then
      let! l := big_len hp in
      let! layout := unwrap (from_size_align (l + BIG_HEADER_SIZE) 8) in
      let! p := remote_ptr v in
      dealloc p layout
    else ret tt
  else ret tt.

(** ** Copy-on-write: [InlineArray::make_mut] (lib.rs lines 380-407) *)

(** Returns the new value of [*self] and the mutable slice.  In
    [*self = InlineArray::from(self.deref())] the receiver [self] has type
    [&mut InlineArray]; method resolution finds no [deref] taking
    [&mut InlineArray] by value and then, on [&&mut InlineArray], finds
    [<&mut InlineArray as Deref>::deref], which returns [&InlineArray].
    The conversion is therefore [From<&InlineArray>] (lib.rs lines
    444-448), i.e. [clone].  The clone is built first, then the assignment
    drops the old value.  [a] and [spurious] are the clone's allocator
    answer and spurious CAS failures. *)
Definition make_mut (a : Z) (spurious : nat) (v : InlineArray) : M (InlineArray * Slice) :=
  let! k := kind v in
  match k with
  | Inline =>
      let n := inline_len v in
      if n <=? SZ then ret (v, SInline n) else panic PIndex
  | SmallRemote =>
      let! t := deref_small_trailer v in
      let! rc := small_rc t in
      let! v' := (if negb (rc =? 1)
                  then let! nv := clone a spurious v in drop v ;;; ret nv
                  else ret v) in
      let! t' := deref_small_trailer v' in
      let! l := small_len t' in
      let! p := remote_ptr v' in
      ret (v', SHeap (p - l) l)
  | BigRemote =>
      let! hp := deref_big_header v in
      let! rc := big_rc_load hp in
      let! v' := (if negb (rc =? 1)
                  then let! nv := clone a spurious v in drop v ;;; ret nv
                  else ret v) in
      let! p := remote_ptr v' in
      let data_ptr := p + BIG_HEADER_SIZE in
      let! hp' := deref_big_header v' in
      let! l := big_len hp' in
      ret (v', SHeap data_ptr l)
  end.

(** [slice[j] = x] through a mutable slice returned by [make_mut]; the
    owner is passed along because an inline slice lives inside it. *)
Definition slice_write (v : InlineArray) (sl : Slice) (j x : Z) : M InlineArray :=
  match sl with
  | SInline n =>
      if (0 <=? j) && (j <? n) then ret (mkIA (<[Z.to_nat j := x]> (ia_data v)))
      else panic PIndex
  | SHeap p n =>
      if (0 <=? j) && (j <? n) then store (p + j) x ;;; ret v
      else panic PIndex
  end.

(** ** Value semantics (lib.rs lines 246-250 and 480-504) *)

(** [PartialEq<T: AsRef<[u8]>>] and [PartialEq<[u8]>]. *)
Definition eq_ia (v w : InlineArray) : M bool :=
  let! a := view v in let! b := view w in ret (bool_decide (a = b)).

Definition eq_slice (v : InlineArray) (s : list Z) : M bool :=
  let! a := view v in ret (bool_decide (a = s)).

(** A [Hasher] as seen by [impl Hash for [u8]]: a length prefix, then one
    [write] of the bytes. *)
Class Hasher (S : Type) := {
  hasher_write : list Z -> S -> S;
  hasher_write_length_prefix : Z -> S -> S
}.

Definition hash_slice {S} `{Hasher S} (s : list Z) (st : S) : S :=
  hasher_write s (hasher_write_length_prefix (Z.of_nat (length s)) st).

(** [impl Hash for InlineArray]: [self.deref().hash(state)]. *)
Definition hash_ia {S} `{Hasher S} (v : InlineArray) (st : S) : M S :=
  let! sl := deref v in let! s := read_slice v sl in ret (hash_slice s st).

(** [Borrow<[u8]>] / [AsRef<[u8]>]: the read view. *)
Definition borrow (v : InlineArray) : M (list Z) := view v.

(** ** Programs over many values *)

(** A sequence of writes [slice[j] = x] through one mutable slice. *)
Fixpoint slice_writes (v : InlineArray) (sl : Slice) (ws : list (Z * Z)) : M InlineArray :=
  match ws with
  | [] => ret v
  | (j, x) :: ws' => let! v' := slice_write v sl j x in slice_writes v' sl ws'
  end.

(** The live [InlineArray] values of a sequential program and its heap. *)
Record World := mkWorld { w_heap : Heap; w_vals : list InlineArray }.

Definition world_init : World := mkWorld heap_empty [].

(** One public operation on the live values: construction from a slice,
    [clone], [drop], and [make_mut] followed by writes through the slice
    it returns.  Operations that panic end the program and have no step. *)
Inductive step : World -> World -> Prop :=
  | StepNew h vs a s v h' :
      bytes_ok s = true -> new a s h = Ok v h' ->
      step (mkWorld h vs) (mkWorld h' (vs ++ [v]))
  | StepClone h vs i v a n v' h' :
      vs !! i = Some v -> clone a n v h = Ok v' h' ->
      step (mkWorld h vs) (mkWorld h' (vs ++ [v']))
  | StepDrop h vs i v h' :
      vs !! i = Some v -> drop v h = Ok tt h' ->
      step (mkWorld h vs) (mkWorld h' (delete i vs))
  | StepMakeMut h vs i v a n v' sl h1 ws v'' h' :
      vs !! i = Some v -> make_mut a n v h = Ok (v', sl) h1 ->
      forallb (fun w => is_byte (snd w)) ws = true ->
      slice_writes v' sl ws h1 = Ok v'' h' ->
      step (mkWorld h vs) (mkWorld h' (<[i := v'']> vs)).

Inductive reachable : World -> Prop :=
  | reach_init : reachable world_init
  | reach_step w w' : reachable w -> step w w' -> reachable w'.

(** ** Pure views of memory used by the proofs *)

Fixpoint mem_write (x : Z) (l : list Z) (m : gmap Z Z) : gmap Z Z :=
  match l with
  | [] => m
  | b :: l' => mem_write (x + 1) l' (<[x := b]> m)
  end.

Fixpoint mem_read (m : gmap Z Z) (x : Z) (n : nat) : option (list Z) :=
  match n with
  | O => Some []
  | S n' => match m !! x with
            | Some b => match mem_read m (x + 1) n' with
                        | Some bs => Some (b :: bs)
                        | None => None
                        end
            | None => None
            end
  end.

(** The eight bytes of a heap variant: the pointer with the tag or-ed into
    its last byte. *)
Definition stored_word (p tag : Z) : list Z :=
  <[7%nat := Z.lor (nth 7 (ptr_bytes p) 0) tag]> (ptr_bytes p).

(** The check [assert_eq!(data[SZ - 1] & 0b111, 0)] on a pointer. *)
Definition top_ok (p : Z) : Prop := Z.land (nth 7 (ptr_bytes p) 0) 7 = 0.

(** The pointer a heap variant stores, [None] for an inline value. *)
Definition heap_ptr (v : InlineArray) : option Z :=
  let t := Z.land (inline_trailer v) TRAILER_TAG_MASK in
  if (t =? SMALL_REMOTE_TRAILER_TAG) || (t =? BIG_REMOTE_TRAILER_TAG)
  then Some (decode_ptr (ia_data v)) else None.

(** The number of live values that store the pointer [p]. *)
Fixpoint count_ptr (p : Z) (vs : list InlineArray) : nat :=
  match vs with
  | [] => O
  | v :: vs' => (if decide (heap_ptr v = Some p) then 1 else 0) + count_ptr p vs'
  end%nat.

(** ** The invariant of reachable worlds *)

(** The cells of a SmallRemote allocation at [b]: payload, then the
    trailer [{ rc, len }] at [b + L]. *)
Definition small_cells (m : gmap Z Z) (b L rc : Z) (payload : list Z) : Prop :=
  m !! (b + L) = Some rc /\ m !! (b + L + 1) = Some L /\ mem_read m b (Z.to_nat L) = Some payload.

(** The cells of a BigRemote allocation at [b]: the header
    [{ rc: u16, len: [u8; 6] }], then the payload at [b + 8]. *)
Definition big_cells (m : gmap Z Z) (b L rc : Z) (payload : list Z) : Prop :=
  mem_read m b 2 = Some (le_bytes rc 2) /\ mem_read m (b + 2) 6 = Some (le_bytes L 6)
  /\ mem_read m (b + 8) (Z.to_nat L) = Some payload.

Definition small_range (L : Z) : Prop := 8 <= L <= 255.
Definition big_range (L : Z) : Prop := 256 <= L < 2 ^ 48.

(** A live value: an inline value with its length byte, or a tagged
    pointer to a live allocation of the matching shape. *)
Definition wf_val (h : Heap) (v : InlineArray) : Prop :=
  (length (ia_data v) = 8%nat /\ exists L, 0 <= L <= 7 /\ inline_trailer v = Z.shiftl L 2
     /\ bytes_ok (firstn (Z.to_nat L) (ia_data v)) = true)
  \/ (exists b L, small_range L /\ top_ok (b + L) /\ ia_data v = stored_word (b + L) 1
       /\ h_blocks h !! b = Some (mkLayout (L + 2) 8))
  \/ (exists b L, big_range L /\ top_ok b /\ ia_data v = stored_word b 2
       /\ h_blocks h !! b = Some (mkLayout (L + 8) 8)).

(** A live allocation: aligned, inside the address space, of one of the
    two shapes, and its refcount is the number of live values sharing it,
    at least one. *)
Definition wf_block (h : Heap) (vs : list InlineArray) (b : Z) (l : Layout) : Prop :=
  0 < b /\ b mod 8 = 0 /\ b + lay_size l <= 2 ^ 64 /\ lay_align l = 8 /\
  ((exists L payload, lay_size l = L + 2 /\ small_range L /\ top_ok (b + L)
      /\ bytes_ok payload = true
      /\ small_cells (h_mem h) b L (Z.of_nat (count_ptr (b + L) vs)) payload
      /\ 1 <= Z.of_nat (count_ptr (b + L) vs) <= U8_MAX)
   \/ (exists L payload, lay_size l = L + 8 /\ big_range L /\ top_ok b
      /\ bytes_ok payload = true
      /\ big_cells (h_mem h) b L (Z.of_nat (count_ptr b vs)) payload
      /\ 1 <= Z.of_nat (count_ptr b vs) <= U16_MAX)).

Definition blocks_disjoint (bl : gmap Z Layout) : Prop :=
  forall b1 b2 l1 l2, bl !! b1 = Some l1 -> bl !! b2 = Some l2 -> b1 <> b2 ->
    b1 + lay_size l1 <= b2 \/ b2 + lay_size l2 <= b1.

Definition inv (w : World) : Prop :=
  Forall (wf_val (w_heap w)) (w_vals w)
  /\ map_Forall (wf_block (w_heap w) (w_vals w)) (h_blocks (w_heap w))
  /\ blocks_disjoint (h_blocks (w_heap w)).

(** The bit facts of the tag overlay on one byte, checked exhaustively:
    for a byte [d] whose low three bits are clear and a tag [t < 4],
    [(d | t) & 0b1111_1100 = d] and [(d | t) & 0b11 = t]. *)
Definition tag_bits_check : bool :=
  forallb (fun d => forallb (fun t =>
     implb (Z.land d 7 =? 0)
           ((Z.land (Z.lor d t) TRAILER_PTR_MASK =? d) && (Z.land (Z.lor d t) TRAILER_TAG_MASK =? t)
            && (Z.lor d t =? d + t)))
     (map Z.of_nat (seq 0 4))) (map Z.of_nat (seq 0 256)).

(** ** Derived views used in the statements *)

(** The refcount of a heap value, read through the source's accessors. *)
Definition refcount (v : InlineArray) : M Z :=
  let! k := kind v in
  match k with
  | Inline => panic PAssertKind
  | SmallRemote => let! t := deref_small_trailer v in small_rc t
  | BigRemote => let! hp := deref_big_header v in big_rc_load hp
  end.

(** The saturation value of the refcount field of a variant. *)
Definition rc_max (k : Kind) : Z :=
  match k with BigRemote => U16_MAX | _ => U8_MAX end.

(** The variant [InlineArray::new] picks for a length. *)
Definition kind_of_len (L : Z) : Kind :=
  if L <=? INLINE_CUTOFF then Inline
  else if L <=? SMALL_REMOTE_CUTOFF then SmallRemote else BigRemote.

Definition kind_tag (k : Kind) : Z :=
  match k with
  | Inline => INLINE_TRAILER_TAG
  | SmallRemote => SMALL_REMOTE_TRAILER_TAG
  | BigRemote => BIG_REMOTE_TRAILER_TAG
  end.

(** The bytes of a slice after the writes [s[j] = x], in order. *)
Fixpoint list_writes (s : list Z) (ws : list (Z * Z)) : list Z :=
  match ws with
  | [] => s
  | (j, x) :: ws' => list_writes (<[Z.to_nat j := x]> s) ws'
  end.

(** What the invariant says about one live value, by variant. *)
Definition inline_info (u : InlineArray) (L : Z) : Prop :=
  length (ia_data u) = 8%nat /\ 0 <= L <= 7 /\ inline_trailer u = Z.shiftl L 2
  /\ bytes_ok (firstn (Z.to_nat L) (ia_data u)) = true.

Definition small_info (h : Heap) (vs : list InlineArray) (u : InlineArray)
    (b L : Z) (payload : list Z) : Prop :=
  small_range L /\ top_ok (b + L) /\ ia_data u = stored_word (b + L) 1
  /\ h_blocks h !! b = Some (mkLayout (L + 2) 8) /\ 0 < b /\ b mod 8 = 0
  /\ b + (L + 2) <= 2 ^ 64 /\ bytes_ok payload = true
  /\ small_cells (h_mem h) b L (Z.of_nat (count_ptr (b + L) vs)) payload
  /\ 1 <= Z.of_nat (count_ptr (b + L) vs) <= U8_MAX.

Definition big_info (h : Heap) (vs : list InlineArray) (u : InlineArray)
    (b L : Z) (payload : list Z) : Prop :=
  big_range L /\ top_ok b /\ ia_data u = stored_word b 2
  /\ h_blocks h !! b = Some (mkLayout (L + 8) 8) /\ 0 < b /\ b mod 8 = 0
  /\ b + (L + 8) <= 2 ^ 64 /\ bytes_ok payload = true
  /\ big_cells (h_mem h) b L (Z.of_nat (count_ptr b vs)) payload
  /\ 1 <= Z.of_nat (count_ptr b vs) <= U16_MAX.

(** A mutable slice [sl] with bytes [s] that the value [v] holds alone:
    its own inline bytes, or the payload of an allocation it is the only
    sharer of. *)
Definition owns (h : Heap) (vs : list InlineArray) (v : InlineArray) (sl : Slice) (s : list Z) : Prop :=
  (exists n, sl = SInline n /\ inline_info v n /\ s = firstn (Z.to_nat n) (ia_data v))
  \/ (exists b L, sl = SHeap b L /\ small_info h vs v b L s /\ count_ptr (b + L) vs = 1%nat)
  \/ (exists b L, sl = SHeap (b + 8) L /\ big_info h vs v b L s /\ count_ptr b vs = 1%nat).

(** A mutable slice [sl] with bytes [s] over the value [v]'s own inline
    bytes or over the payload of the allocation it points to, which other
    live values may share. *)
Definition holds (h : Heap) (vs : list InlineArray) (v : InlineArray) (sl : Slice) (s : list Z) : Prop :=
  (exists n, sl = SInline n /\ inline_info v n /\ s = firstn (Z.to_nat n) (ia_data v))
  \/ (exists b L, sl = SHeap b L /\ small_info h vs v b L s)
  \/ (exists b L, sl = SHeap (b + 8) L /\ big_info h vs v b L s).

(** What [make_mut] on the value at index [i] guarantees. *)
Definition make_mut_post (h : Heap) (vs : list InlineArray) (i : nat) (u v' : InlineArray)
    (sl : Slice) (h1 : Heap) : Prop :=
  inv (mkWorld h1 (<[i := v']> vs))
  /\ deref v' h1 = Ok sl h1
  /\ (exists s, view u h = Ok s h /\ view v' h1 = Ok s h1 /\ holds h1 (<[i := v']> vs) v' sl s)
  /\ (forall j w s, j <> i -> vs !! j = Some w -> view w h = Ok s h -> view w h1 = Ok s h1)
  /\ (forall k, kind u h = Ok k h -> kind v' h1 = Ok k h1).

(** The possible outcomes of [make_mut]: the guarantees above, or one of
    the panics of the construction of a copy by the clone. *)
Definition make_mut_outcome (h : Heap) (vs : list InlineArray) (i : nat) (u : InlineArray)
    (r : outcome (InlineArray * Slice)) : Prop :=
  match r with
  | Ok (v', sl) h1 => make_mut_post h vs i u v' sl h1
  | Panicked p => p = PAllocNull \/ p = PAssertAlign
  | UB => False
  end.

(** The bytes an allocation holds besides the payload. *)
Definition remote_overhead (k : Kind) : Z :=
  match k with
  | Inline => 0
  | SmallRemote => SMALL_TRAILER_SIZE
  | BigRemote => BIG_HEADER_SIZE
  end.

(** ** Ordering, [Default] and the string conversions (lib.rs lines 240-244, 426-442, 480-490) *)

(** [impl Ord for [u8]] (core's lexicographic slice order): the first
    position where the two slices differ decides; when one is a prefix of
    the other, the shorter one is smaller. *)
Fixpoint slice_cmp (a b : list Z) : comparison :=
  match a, b with
  | [], [] => Eq
  | [], _ :: _ => Lt
  | _ :: _, [] => Gt
  | x :: a', y :: b' =>
      match Z.compare x y with
      | Eq => slice_cmp a' b'
      | c => c
      end
  end.

(** [impl Ord for InlineArray]: [self.as_ref().cmp(other.as_ref())]. *)
Definition cmp (v w : InlineArray) : M comparison :=
  let! a := view v in let! b := view w in ret (slice_cmp a b).

(** [impl PartialOrd for InlineArray]: [Some(self.cmp(other))]. *)
Definition partial_cmp (v w : InlineArray) : M (option comparison) :=
  let! c := cmp v w in ret (Some c).

(** [impl Default for InlineArray]: [Self::from(&[])], i.e. [new] on the
    empty slice ([a] is the allocator's answer, as for [new]). *)
Definition default_ia (a : Z) : M InlineArray := new a [].

(** [str::as_bytes]: a [&str] is a sequence of bytes (its UTF-8
    encoding); a [String.string] is a sequence of 8-bit characters, one
    per byte. *)
Definition as_bytes (s : String.string) : list Z :=
  map (fun c => Z.of_nat (Ascii.nat_of_ascii c)) (String.list_ascii_of_string s).

(** [impl From<&str>], [From<String>] and [From<&String>]:
    [Self::from(s.as_bytes())], which is [InlineArray::new]. *)
Definition from_str (a : Z) (s : String.string) : M InlineArray := new a (as_bytes s).

(** ** The crate's property test (lib.rs lines 552-589) *)

(** [fn prop_identity(inline_array: &InlineArray) -> bool].  [a1] and [n1]
    are the allocator's answer and the spurious CAS failures of the
    [clone], [a2] and [n2] those of the clone [make_mut] makes when the
    refcount is not 1, [self_addr] the address of [*inline_array].  Each early
    [return false] drops [iv2]; so does the end of the function.  The
    final [assert_eq!(buf.as_ptr() as usize % 8, 0)] is an alignment
    assertion. *)
Definition prop_identity (a1 : Z) (n1 : nat) (a2 : Z) (n2 : nat) (self_addr : Z)
    (inline_array : InlineArray) : M bool :=
  let! iv2 := clone a1 n1 inline_array in
  let! e1 := eq_ia iv2 inline_array in
  if negb e1 then drop iv2 ;;; ret false else
  let! e2 := eq_ia inline_array iv2 in
  if negb e2 then drop iv2 ;;; ret false else
  let! r := make_mut a2 n2 iv2 in
  let (iv2', sl) := r in
  let! m := read_slice iv2' sl in
  let! e3 := eq_slice inline_array m in
  if negb e3 then drop iv2' ;;; ret false else
  let! buf := deref inline_array in
  assert (slice_ptr self_addr buf mod 8 =? 0) PAssertAlign ;;;
  drop iv2' ;;; ret true.

(** The quickcheck property [fn inline_array(item: InlineArray) -> bool]
    on an [item] built by [Arbitrary] ([InlineArray::from(Vec)], i.e.
    [new] with the allocator's answer [a0]) from the bytes [bytes];
    [item] is dropped when the function returns. *)
Definition inline_array (a0 a1 : Z) (n1 : nat) (a2 : Z) (n2 : nat) (self_addr : Z)
    (bytes : list Z) : M bool :=
  let! item := new a0 bytes in
  let! _ := len item in
  let! b := prop_identity a1 n1 a2 n2 self_addr item in
  drop item ;;; ret b.

(** ** Example values *)

(** [InlineArray::from(&[9; 9])] with the allocator answering 4096: a
    SmallRemote value whose trailer is at 4096 + 9. *)
Definition ex_s9 : list Z := repeat 9 9.
Definition ex_h9 : Heap :=
  mkHeap (mem_write 4096 ex_s9 (mem_write 4105 [1; 9] ∅)) {[4096 := mkLayout 11 8]}.
Definition ex_v9 : InlineArray := mkIA (stored_word 4105 1).

(** [InlineArray::from(&[9; 64])] at 4096 and the heap after one clone
    of it. *)
Definition ex_s64 : list Z := repeat 9 64.
Definition ex_h64 : Heap :=
  mkHeap (mem_write 4096 ex_s64 (mem_write 4160 [1; 64] ∅)) {[4096 := mkLayout 66 8]}.
Definition ex_v64 : InlineArray := mkIA (stored_word 4160 1).
Definition ex_h64c : Heap := mkHeap (<[4160 := 2]> (h_mem ex_h64)) (h_blocks ex_h64).

(** The heap of [ex_h64c] after [slice[0] = 1] through the slice that
    [make_mut] returns for one of the two sharers. *)
Definition ex_h64w : Heap := mkHeap (<[4096 := 1]> (h_mem ex_h64c)) (h_blocks ex_h64c).

(** [InlineArray::from(&[9; 9])] at 4096 after 254 clones: 255 live
    values share the allocation and its refcount is [u8::MAX]. *)
Definition ex_h9s : Heap := mkHeap (<[4105 := 255]> (h_mem ex_h9)) (h_blocks ex_h9).

(** [make_mut] on one of them, the clone's allocator answering 8192: the
    copy at 8192 with its trailer at 8201, and the old refcount 254. *)
Definition ex_v9m : InlineArray := mkIA (stored_word 8201 1).
Definition ex_h9m : Heap :=
  mkHeap (<[4105 := 254]> (mem_write 8192 ex_s9 (mem_write 8201 [1; 9] (h_mem ex_h9s))))
         (<[8192 := mkLayout 11 8]> (h_blocks ex_h9s)).

(** [InlineArray::from(&[1])], [from(&[2])] and [from(&[3])]: three Inline
    values. *)
Definition ex_i1 : InlineArray := mkIA [1; 0; 0; 0; 0; 0; 0; 4].
Definition ex_i2 : InlineArray := mkIA [2; 0; 0; 0; 0; 0; 0; 4].
Definition ex_i3 : InlineArray := mkIA [3; 0; 0; 0; 0; 0; 0; 4].

(** An address whose top byte is 0xB4, as handed out by allocators that
    tag pointers in their top byte (heap tagging on AArch64 Android). *)
Definition ex_tagged_addr : Z := 180 * 2 ^ 56 + 112 * 2 ^ 32.

(** The string "ab", and the Inline value [InlineArray::from("ab")] builds
    for it. *)
Definition ex_str : String.string :=
  String.string_of_list_ascii (map Ascii.ascii_of_nat (97 :: 98 :: nil)%nat).
Definition ex_v_ab : InlineArray := mkIA [97; 98; 0; 0; 0; 0; 0; 8].

(** * Lemmas *)

(** ** Memory primitives *)

Lemma write_bytes_eq x l h :
  write_bytes x l h = Ok tt (mkHeap (mem_write x l (h_mem h)) (h_blocks h)).
Proof.
  revert x h; induction l as [|c l IH]; intros x h; [by destruct h|].
  cbn [write_bytes]. unfold bind, store. cbn. rewrite IH. done.
Qed.

Lemma read_bytes_eq x n h :
  read_bytes x n h = match mem_read (h_mem h) x n with Some l => Ok l h | None => UB end.
Proof.
  revert x; induction n as [|n IH]; intros x; [done|].
  cbn [read_bytes mem_read]. unfold bind, load.
  destruct (h_mem h !! x); [|done]. rewrite IH.
  destruct (mem_read (h_mem h) (x + 1) n); done.
Qed.

Lemma lookup_mem_write_out x l m y :
  y < x \/ x + Z.of_nat (length l) <= y -> mem_write x l m !! y = m !! y.
Proof.
  revert x m; induction l as [|b l IH]; intros x m Hy; [done|].
  cbn [mem_write length] in *. rewrite IH by lia.
  rewrite lookup_insert_ne by lia. done.
Qed.

Lemma lookup_mem_write_in x l m y :
  x <= y < x + Z.of_nat (length l) -> mem_write x l m !! y = l !! Z.to_nat (y - x).
Proof.
  revert x m; induction l as [|b l IH]; intros x m Hy; cbn [length] in Hy; [lia|].
  cbn [mem_write].
  destruct (decide (y = x)) as [->|Hne].
  - rewrite lookup_mem_write_out by lia. rewrite lookup_insert_eq.
    replace (x - x) with 0 by lia. done.
  - rewrite IH by lia.
    replace (Z.to_nat (y - x)) with (S (Z.to_nat (y - (x + 1)))) by lia. done.
Qed.

Lemma mem_read_spec m x n l :
  mem_read m x n = Some l <->
  length l = n /\ forall k, (k < n)%nat -> m !! (x + Z.of_nat k) = l !! k.
Proof.
  revert x l; induction n as [|n IH]; intros x l; cbn [mem_read].
  - split.
    + intros [= <-]. split; [done|]. intros k Hk; lia.
    + intros [Hl _]. destruct l; [done|discriminate].
  - destruct (m !! x) as [b|] eqn:Hb.
    + destruct (mem_read m (x + 1) n) as [bs|] eqn:Hbs.
      * apply IH in Hbs as [Hlen Hk]. split.
        -- intros [= <-]. split; [cbn; lia|]. intros [|k] Hk'.
           ++ rewrite Z.add_0_r. done.
           ++ cbn. rewrite <- Hk by lia. f_equal. lia.
        -- intros [Hlen' Hk']. destruct l as [|b' l]; [discriminate|].
           assert (Hb' := Hk' 0%nat ltac:(lia)). rewrite Z.add_0_r, Hb in Hb'.
           injection Hb' as ->. f_equal. f_equal.
           apply list_eq. intros k. destruct (decide (k < n)%nat) as [Hlt|Hge].
           ++ rewrite <- Hk by lia. change (l !! k) with ((b' :: l) !! S k).
              rewrite <- (Hk' (S k)) by lia. f_equal. lia.
           ++ rewrite !lookup_ge_None_2; cbn in *; try done; lia.
      * split; [done|]. intros [Hlen Hk]. destruct l as [|b' l]; [discriminate|].
        enough (mem_read m (x + 1) n = Some l) by congruence.
        apply IH. split; [cbn in Hlen; lia|]. intros k Hlt.
        change (l !! k) with ((b' :: l) !! S k). rewrite <- (Hk (S k)) by lia. f_equal. lia.
    + split; [done|]. intros [Hlen Hk]. assert (H0 := Hk 0%nat ltac:(lia)).
      rewrite Z.add_0_r, Hb in H0. destruct l; [cbn in Hlen; lia|discriminate].
Qed.

Lemma mem_read_ext m1 m2 x n :
  (forall y, x <= y < x + Z.of_nat n -> m1 !! y = m2 !! y) ->
  mem_read m1 x n = mem_read m2 x n.
Proof.
  revert x; induction n as [|n IH]; intros x Hy; [done|]. cbn [mem_read].
  rewrite Hy by lia. rewrite IH by (intros; apply Hy; lia). done.
Qed.

Lemma mem_read_write x l m : mem_read (mem_write x l m) x (length l) = Some l.
Proof.
  apply mem_read_spec. split; [done|]. intros k Hk.
  rewrite lookup_mem_write_in by lia. f_equal. lia.
Qed.

Lemma lookup_range_delete_out x n m y :
  y < x \/ x + Z.of_nat n <= y -> range_delete x n m !! y = m !! y.
Proof.
  revert x; induction n as [|n IH]; intros x Hy; [done|]. cbn [range_delete].
  rewrite lookup_delete_ne by lia. apply IH. lia.
Qed.

Lemma lookup_range_delete_in x n m y :
  x <= y < x + Z.of_nat n -> range_delete x n m !! y = None.
Proof.
  revert x; induction n as [|n IH]; intros x Hy; [lia|]. cbn [range_delete].
  destruct (decide (y = x)) as [->|Hne].
  - apply lookup_delete_eq.
  - rewrite lookup_delete_ne by lia. apply IH. lia.
Qed.

(** ** Byte encodings *)

Lemma land_255 x : Z.land x 255 = x mod 256.
Proof. change 255 with (Z.ones 8). rewrite Z.land_ones by lia. done. Qed.

Lemma length_le_bytes x n : length (le_bytes x n) = n.
Proof. revert x; induction n; intros x; cbn; [done|]. by rewrite IHn. Qed.

Lemma mod_mul_r_pos x b c :
  0 < b -> 0 < c -> x mod (b * c) = x mod b + b * ((x / b) mod c).
Proof.
  intros Hb Hc. symmetry. apply (Z.mod_unique _ _ ((x / b) / c)).
  - left. pose proof (Z.mod_pos_bound x b Hb). pose proof (Z.mod_pos_bound (x / b) c Hc). nia.
  - pose proof (Z.div_mod x b ltac:(lia)). pose proof (Z.div_mod (x / b) c ltac:(lia)). nia.
Qed.

Lemma le_to_Z_le_bytes x n : le_to_Z (le_bytes x n) = x mod 2 ^ (8 * Z.of_nat n).
Proof.
  revert x; induction n as [|n IH]; intros x; cbn [le_bytes le_to_Z].
  - rewrite Z.mod_1_r. done.
  - rewrite IH, land_255, Z.shiftr_div_pow2 by lia.
    replace (8 * Z.of_nat (S n)) with (8 + 8 * Z.of_nat n) by lia.
    rewrite Z.pow_add_r by lia. rewrite mod_mul_r_pos; [done|lia|]. apply Z.pow_pos_nonneg; lia.
Qed.

Lemma nth_le_bytes x n k :
  (k < n)%nat -> nth k (le_bytes x n) 0 = (x / 2 ^ (8 * Z.of_nat k)) mod 256.
Proof.
  revert x k; induction n as [|n IH]; intros x k Hk; [lia|]. cbn [le_bytes].
  destruct k as [|k].
  - cbn. rewrite land_255, Z.div_1_r. done.
  - cbn [nth]. rewrite IH by lia. rewrite Z.shiftr_div_pow2 by lia.
    rewrite Z.div_div by (try apply Z.pow_nonzero; try apply Z.pow_pos_nonneg; lia).
    rewrite <- Z.pow_add_r by lia. do 3 f_equal. lia.
Qed.

Lemma le_bytes_bytes x n : bytes_ok (le_bytes x n) = true.
Proof.
  revert x; induction n as [|n IH]; intros x; [done|]. cbn [le_bytes bytes_ok forallb].
  rewrite IH, land_255. unfold is_byte.
  assert (0 <= x mod 256 < 256) by (apply Z.mod_pos_bound; lia).
  apply andb_true_intro; split; [|done]. apply andb_true_intro; split; apply Z.leb_le || apply Z.ltb_lt; lia.
Qed.

Lemma firstn_le_bytes x n k : (k <= n)%nat -> firstn k (le_bytes x n) = le_bytes x k.
Proof.
  revert x n; induction k as [|k IH]; intros x n Hk; [done|].
  destruct n as [|n]; [lia|]. cbn. rewrite IH by lia. done.
Qed.

Lemma tag_bits d t :
  0 <= d < 256 -> Z.land d 7 = 0 -> 0 <= t < 4 ->
  Z.land (Z.lor d t) TRAILER_PTR_MASK = d /\ Z.land (Z.lor d t) TRAILER_TAG_MASK = t
  /\ Z.lor d t = d + t.
Proof.
  intros Hd H7 Ht.
  assert (Hc : tag_bits_check = true) by (vm_compute; reflexivity).
  unfold tag_bits_check in Hc. rewrite forallb_forall in Hc.
  specialize (Hc d). rewrite forallb_forall in Hc.
  assert (Hin : forall z k, 0 <= z < Z.of_nat k -> In z (map Z.of_nat (seq 0 k))).
  { intros z k Hz. apply in_map_iff. exists (Z.to_nat z). split; [lia|]. apply in_seq. lia. }
  specialize (Hc (Hin d 256%nat ltac:(lia)) t (Hin t 4%nat ltac:(lia))).
  rewrite H7 in Hc. cbn in Hc. apply andb_prop in Hc as [Hc H3].
  apply andb_prop in Hc as [H1 H2]. apply Z.eqb_eq in H1, H2, H3. done.
Qed.

Lemma length_ptr_bytes p : length (ptr_bytes p) = 8%nat.
Proof. apply length_le_bytes. Qed.

Lemma nth7_ptr_bytes p : 0 <= nth 7 (ptr_bytes p) 0 < 256.
Proof. unfold ptr_bytes. rewrite nth_le_bytes by lia. apply Z.mod_pos_bound. lia. Qed.

Lemma nth_insert7 (l : list Z) y : length l = 8%nat -> nth 7 (<[7%nat := y]> l) 0 = y.
Proof. intros Hl. rewrite nth_lookup, list_lookup_insert_eq by lia. done. Qed.

Lemma length_stored_word p t : length (stored_word p t) = 8%nat.
Proof. unfold stored_word. rewrite length_insert. apply length_ptr_bytes. Qed.

Lemma stored_word_trailer p t :
  top_ok p -> 0 <= t < 4 -> Z.land (nth 7 (stored_word p t) 0) TRAILER_TAG_MASK = t.
Proof.
  intros Hp Ht. unfold stored_word. rewrite nth_insert7 by apply length_ptr_bytes.
  apply tag_bits; [apply nth7_ptr_bytes|done|done].
Qed.

Lemma decode_stored p t :
  0 <= p < 2 ^ 64 -> top_ok p -> 0 <= t < 4 -> decode_ptr (stored_word p t) = p.
Proof.
  intros Hp Htop Ht. unfold decode_ptr, stored_word.
  rewrite nth_insert7 by apply length_ptr_bytes.
  rewrite (proj1 (tag_bits _ _ (nth7_ptr_bytes p) Htop Ht)).
  rewrite list_insert_insert_eq, list_insert_id.
  - unfold ptr_bytes. rewrite le_to_Z_le_bytes. apply Z.mod_small. done.
  - destruct (nth_lookup_or_length (ptr_bytes p) 7 0) as [H|H]; [done|].
    rewrite length_ptr_bytes in H. lia.
Qed.

(** The stored word read as a native-endian integer: the tag sits in the
    most significant byte, at bit 56. *)
Lemma le_to_Z_stored_word p t :
  0 <= p < 2 ^ 64 -> top_ok p -> 0 <= t < 4 -> le_to_Z (stored_word p t) = p + t * 2 ^ 56.
Proof.
  intros Hp Htop Ht. unfold stored_word.
  rewrite (proj2 (proj2 (tag_bits _ _ (nth7_ptr_bytes p) Htop Ht))).
  pose proof (le_to_Z_le_bytes p 8) as Hle. rewrite Z.mod_small in Hle by done.
  unfold ptr_bytes in *. remember (le_bytes p 8) as l eqn:El.
  assert (Hl : length l = 8%nat) by (subst; apply length_le_bytes).
  do 8 (destruct l as [|? l]; [discriminate|]). destruct l; [|discriminate].
  cbn in *. lia.
Qed.

(** ** Decoding well-formed values *)

Lemma kind_stored v p t h :
  ia_data v = stored_word p t -> top_ok p -> 0 <= t < 4 ->
  kind v h = if t =? 0 then Ok Inline h else if t =? 1 then Ok SmallRemote h
             else if t =? 2 then Ok BigRemote h else UB.
Proof.
  intros Hv Htop Ht. unfold kind, inline_trailer. rewrite Hv.
  rewrite stored_word_trailer by done.
  unfold INLINE_TRAILER_TAG, SMALL_REMOTE_TRAILER_TAG, BIG_REMOTE_TRAILER_TAG.
  destruct (t =? 0), (t =? 1), (t =? 2); done.
Qed.

Lemma inline_facts v L :
  inline_trailer v = Z.shiftl L 2 -> 0 <= L <= 7 ->
  Z.land (inline_trailer v) TRAILER_TAG_MASK = 0 /\ inline_len v = L.
Proof.
  intros Ht HL. unfold inline_len. rewrite Ht. rewrite Z.shiftl_mul_pow2 by lia.
  split.
  - change TRAILER_TAG_MASK with (Z.ones 2). rewrite Z.land_ones by lia.
    rewrite Z.mod_mul by lia. done.
  - rewrite Z.shiftr_div_pow2 by lia. rewrite Z.div_mul by lia. done.
Qed.

Lemma kind_inline v L h :
  inline_trailer v = Z.shiftl L 2 -> 0 <= L <= 7 -> kind v h = Ok Inline h.
Proof.
  intros Ht HL. unfold kind. rewrite (proj1 (inline_facts v L Ht HL)). done.
Qed.

Lemma remote_ptr_stored v p t h :
  ia_data v = stored_word p t -> 0 <= p < 2 ^ 64 -> top_ok p -> t = 1 \/ t = 2 ->
  remote_ptr v h = Ok p h.
Proof.
  intros Hv Hp Htop Ht. unfold remote_ptr, bind.
  rewrite (kind_stored v p t h Hv Htop) by lia.
  destruct Ht as [-> | ->]; cbn; rewrite Hv, decode_stored by (done || lia); done.
Qed.

Lemma deref_small_trailer_stored v p h :
  ia_data v = stored_word p 1 -> 0 <= p < 2 ^ 64 -> top_ok p ->
  deref_small_trailer v h = Ok p h.
Proof.
  intros Hv Hp Htop. unfold deref_small_trailer, bind.
  rewrite (kind_stored v p 1 h Hv Htop) by lia. cbn.
  apply (remote_ptr_stored v p 1); auto.
Qed.

Lemma deref_big_header_stored v p h :
  ia_data v = stored_word p 2 -> 0 <= p < 2 ^ 64 -> top_ok p ->
  deref_big_header v h = Ok p h.
Proof.
  intros Hv Hp Htop. unfold deref_big_header, bind.
  rewrite (kind_stored v p 2 h Hv Htop) by lia. cbn.
  apply (remote_ptr_stored v p 2); auto.
Qed.

Lemma le_to_Z_app_zeros l : le_to_Z (l ++ [0; 0]) = le_to_Z l.
Proof. induction l as [|c l IH]; cbn; [done|]. rewrite IH. done. Qed.

Lemma big_len_cells m blocks b L rc payload :
  big_cells m b L rc payload -> 0 <= L < 2 ^ 48 ->
  big_len b (mkHeap m blocks) = Ok L (mkHeap m blocks).
Proof.
  intros (_ & Hlen & _) HL. unfold big_len, bind. rewrite read_bytes_eq. cbn [h_mem].
  change BIG_REMOTE_LEN_BYTES with 6%nat. rewrite Hlen. cbv beta iota. unfold ret. rewrite le_to_Z_app_zeros, le_to_Z_le_bytes.
  rewrite Z.mod_small by (cbn; lia). done.
Qed.

Lemma big_rc_cells m blocks b L rc payload :
  big_cells m b L rc payload -> 0 <= rc < 2 ^ 16 ->
  big_rc_load b (mkHeap m blocks) = Ok rc (mkHeap m blocks).
Proof.
  intros (Hrc & _ & _) Hb. unfold big_rc_load, bind. rewrite read_bytes_eq. cbn [h_mem].
  rewrite Hrc. cbv beta iota. unfold ret. rewrite le_to_Z_le_bytes.
  rewrite Z.mod_small by (cbn; lia). done.
Qed.

Lemma deref_small_val v b L m blocks rc payload :
  ia_data v = stored_word (b + L) 1 -> 0 <= b + L < 2 ^ 64 -> top_ok (b + L) ->
  small_cells m b L rc payload ->
  deref v (mkHeap m blocks) = Ok (SHeap b L) (mkHeap m blocks).
Proof.
  intros Hv Hp Htop (_ & Hlen & _). unfold deref, bind.
  rewrite (kind_stored v (b + L) 1) by (done || lia). cbn.
  rewrite (deref_small_trailer_stored v (b + L)) by done.
  unfold small_len, load. cbn [h_mem]. rewrite Hlen.
  rewrite (remote_ptr_stored v (b + L) 1) by (done || lia). unfold ret.
  replace (b + L - L) with b by lia. done.
Qed.

Lemma deref_big_val v b L m blocks rc payload :
  ia_data v = stored_word b 2 -> 0 <= b < 2 ^ 64 -> top_ok b -> 0 <= L < 2 ^ 48 ->
  big_cells m b L rc payload ->
  deref v (mkHeap m blocks) = Ok (SHeap (b + 8) L) (mkHeap m blocks).
Proof.
  intros Hv Hp Htop HL Hc. unfold deref, bind.
  rewrite (kind_stored v b 2) by (done || lia). cbn.
  rewrite (remote_ptr_stored v b 2) by (done || lia).
  rewrite (deref_big_header_stored v b) by done.
  rewrite (big_len_cells m blocks b L rc payload) by done. done.
Qed.

(** ** Construction *)

Lemma alloc_fresh_spec h l a :
  alloc_fresh h l a = true <->
  0 < a /\ a mod lay_align l = 0 /\ a + lay_size l <= 2 ^ 64
  /\ disjoint_from a (lay_size l) (h_blocks h).
Proof.
  unfold alloc_fresh. rewrite !andb_true_iff, bool_decide_eq_true, Z.ltb_lt, Z.eqb_eq, Z.leb_le.
  tauto.
Qed.

Lemma new_inline a s h :
  (length s <= 7)%nat ->
  exists v, new a s h = Ok v h /\ length (ia_data v) = 8%nat
    /\ inline_trailer v = Z.shiftl (Z.of_nat (length s)) 2
    /\ firstn (length s) (ia_data v) = s.
Proof.
  intros Hs.
  do 8 (destruct s as [|? s]; [eexists; split; [reflexivity|]; repeat split; vm_compute; reflexivity|]).
  cbn in Hs. lia.
Qed.

Lemma from_size_align_ok size : 0 <= size <= ISIZE_MAX - 7 ->
  from_size_align size 8 = Some (mkLayout size 8).
Proof.
  intros Hs. unfold from_size_align.
  replace (size <=? ISIZE_MAX - (8 - 1)) with true by (symmetry; apply Z.leb_le; lia).
  reflexivity.
Qed.

Lemma new_small_eq a s h :
  small_range (Z.of_nat (length s)) ->
  new a s h =
    let L := Z.of_nat (length s) in
    if alloc_fresh h (mkLayout (L + 2) 8) a then
      if Z.land (nth 7 (ptr_bytes (a + L)) 0) 7 =? 0 then
        Ok (mkIA (stored_word (a + L) 1))
           (mkHeap (mem_write a s (mem_write (a + L) [1; L] (h_mem h)))
                   (<[a := mkLayout (L + 2) 8]> (h_blocks h)))
      else Panicked PAssertAlign
    else Panicked PAllocNull.
Proof.
  intros HL. unfold small_range in HL. unfold new.
  set (L := Z.of_nat (length s)) in *. cbv zeta.
  replace (L <=? INLINE_CUTOFF) with false by (symmetry; apply Z.leb_gt; unfold INLINE_CUTOFF, SZ; lia).
  replace (L <=? SMALL_REMOTE_CUTOFF) with true by (symmetry; apply Z.leb_le; unfold SMALL_REMOTE_CUTOFF; lia).
  unfold SMALL_TRAILER_SIZE. rewrite from_size_align_ok by (unfold ISIZE_MAX; lia).
  unfold bind, unwrap, ret, alloc. destruct (alloc_fresh h (mkLayout (L + 2) 8) a) eqn:Ha.
  - apply alloc_fresh_spec in Ha as (Ha0 & _). unfold assert.
    replace (negb (a =? 0)) with true by (symmetry; apply negb_true_iff, Z.eqb_neq; lia).
    unfold ret. rewrite !write_bytes_eq. cbn [h_mem h_blocks].
    destruct (Z.land (nth 7 (ptr_bytes (a + L)) 0) 7 =? 0); done.
  - done.
Qed.

Lemma new_big_eq a s h :
  big_range (Z.of_nat (length s)) ->
  new a s h =
    let L := Z.of_nat (length s) in
    if alloc_fresh h (mkLayout (L + 8) 8) a then
      if Z.land (nth 7 (ptr_bytes a) 0) 7 =? 0 then
        Ok (mkIA (stored_word a 2))
           (mkHeap (mem_write (a + 8) s (mem_write a (le_bytes 1 2 ++ le_bytes L 6) (h_mem h)))
                   (<[a := mkLayout (L + 8) 8]> (h_blocks h)))
      else Panicked PAssertAlign
    else Panicked PAllocNull.
Proof.
  intros HL. unfold big_range in HL. unfold new.
  set (L := Z.of_nat (length s)) in *. cbv zeta.
  replace (L <=? INLINE_CUTOFF) with false by (symmetry; apply Z.leb_gt; unfold INLINE_CUTOFF, SZ; lia).
  replace (L <=? SMALL_REMOTE_CUTOFF) with false by (symmetry; apply Z.leb_gt; unfold SMALL_REMOTE_CUTOFF; lia).
  unfold BIG_HEADER_SIZE. rewrite from_size_align_ok by (unfold ISIZE_MAX; lia).
  rewrite !nth_le_bytes by lia.
  replace (L / 2 ^ (8 * Z.of_nat 6)) with 0 by (symmetry; apply Z.div_small; cbn; lia).
  replace (L / 2 ^ (8 * Z.of_nat 7)) with 0 by (symmetry; apply Z.div_small; cbn; lia).
  change BIG_REMOTE_LEN_BYTES with 6%nat. rewrite firstn_le_bytes by lia.
  unfold bind, unwrap, ret, alloc, assert. change (0 mod 256 =? 0) with true. unfold ret.
  cbv beta iota.
  destruct (alloc_fresh h (mkLayout (L + 8) 8) a) eqn:Ha.
  - apply alloc_fresh_spec in Ha as (Ha0 & _).
    replace (negb (a =? 0)) with true by (symmetry; apply negb_true_iff, Z.eqb_neq; lia).
    unfold ret. rewrite !write_bytes_eq. cbn [h_mem h_blocks].
    destruct (Z.land (nth 7 (ptr_bytes a) 0) 7 =? 0); done.
  - done.
Qed.

Lemma new_huge a s h :
  2 ^ 48 <= Z.of_nat (length s) ->
  exists p, new a s h = Panicked p /\ (p = PUnwrap \/ p = PAssertLen).
Proof.
  intros HL. unfold new.
  set (L := Z.of_nat (length s)) in *. cbv zeta.
  replace (L <=? INLINE_CUTOFF) with false by (symmetry; apply Z.leb_gt; unfold INLINE_CUTOFF, SZ; lia).
  replace (L <=? SMALL_REMOTE_CUTOFF) with false by (symmetry; apply Z.leb_gt; unfold SMALL_REMOTE_CUTOFF; lia).
  unfold BIG_HEADER_SIZE. unfold bind, unwrap.
  destruct (from_size_align (L + 8) 8) eqn:Hf; [|eexists; split; [reflexivity|auto]].
  assert (HL' : L + 8 <= ISIZE_MAX - 7).
  { unfold from_size_align in Hf. destruct (_ && _ && _) eqn:Hc; [|discriminate].
    apply andb_prop in Hc as [_ Hc]. apply Z.leb_le in Hc. done. }
  unfold ISIZE_MAX in HL'.
  rewrite !nth_le_bytes by lia. change (Z.of_nat 6) with 6. change (Z.of_nat 7) with 7.
  unfold ret. cbv beta iota.
  assert (Hq : 1 <= L / 2 ^ 48 < 2 ^ 15).
  { split; [apply Z.div_le_lower_bound; lia|apply Z.div_lt_upper_bound; lia]. }
  assert (H7 : L / 2 ^ (8 * 7) = (L / 2 ^ 48) / 256).
  { rewrite Z.div_div by lia. done. }
  assert (H7' : 0 <= L / 2 ^ (8 * 7) < 256).
  { rewrite H7. split; [apply Z.div_pos; lia|apply Z.div_lt_upper_bound; lia]. }
  unfold assert, bind.
  destruct ((L / 2 ^ (8 * 6)) mod 256 =? 0) eqn:E6; [|eexists; split; [reflexivity|auto]].
  destruct ((L / 2 ^ (8 * 7)) mod 256 =? 0) eqn:E7; [|eexists; split; [reflexivity|auto]].
  exfalso. apply Z.eqb_eq in E6, E7. rewrite Z.mod_small in E7 by done.
  change (2 ^ (8 * 6)) with (2 ^ 48) in E6.
  pose proof (Z.div_mod (L / 2 ^ 48) 256 ltac:(lia)). rewrite <- H7 in *. lia.
Qed.

Lemma mem_read_write_sub x l m k n :
  (k + n <= length l)%nat ->
  mem_read (mem_write x l m) (x + Z.of_nat k) n = Some (firstn n (skipn k l)).
Proof.
  intros Hkn. apply mem_read_spec. split.
  - rewrite length_take, length_drop. lia.
  - intros j Hj. rewrite lookup_mem_write_in by lia.
    rewrite lookup_take_lt by lia. rewrite lookup_drop. f_equal. lia.
Qed.

Lemma small_cells_new a s m :
  let L := Z.of_nat (length s) in
  small_cells (mem_write a s (mem_write (a + L) [1; L] m)) a L 1 s.
Proof.
  cbv zeta. unfold small_cells. split; [|split].
  - rewrite lookup_mem_write_out by lia. rewrite lookup_mem_write_in by (cbn; lia).
    replace (a + _ - _) with 0 by lia. done.
  - rewrite lookup_mem_write_out by lia. rewrite lookup_mem_write_in by (cbn; lia).
    replace (a + _ + 1 - _) with 1 by lia. done.
  - rewrite Nat2Z.id. apply mem_read_write.
Qed.

Lemma big_cells_new a s m :
  let L := Z.of_nat (length s) in
  big_cells (mem_write (a + 8) s (mem_write a (le_bytes 1 2 ++ le_bytes L 6) m)) a L 1 s.
Proof.
  cbv zeta. unfold big_cells. split; [|split].
  - rewrite (mem_read_ext _ (mem_write a (le_bytes 1 2 ++ le_bytes (Z.of_nat (length s)) 6) m))
      by (intros; apply lookup_mem_write_out; lia).
    rewrite <- (Z.add_0_r a) at 2. rewrite (mem_read_write_sub a _ m 0 2)
      by (rewrite length_app, !length_le_bytes; lia). done.
  - rewrite (mem_read_ext _ (mem_write a (le_bytes 1 2 ++ le_bytes (Z.of_nat (length s)) 6) m))
      by (intros; apply lookup_mem_write_out; lia).
    rewrite (mem_read_write_sub a _ m 2 6) by (rewrite length_app, !length_le_bytes; lia).
    change (le_bytes 1 2) with [1; 0]. cbn [skipn app].
    rewrite drop_0, firstn_le_bytes by lia. done.
  - rewrite Nat2Z.id. apply mem_read_write.
Qed.

(** What construction returns: its view is the slice. *)
Lemma new_view a s h v h' :
  new a s h = Ok v h' ->
  view v h' = Ok s h' /\ len v h' = Ok (Z.of_nat (length s)) h'.
Proof.
  intros Hnew.
  destruct (decide (length s <= 7)%nat) as [Hi|Hi].
  { destruct (new_inline a s h Hi) as (v0 & Hn & Hlen & Ht & Hf).
    rewrite Hn in Hnew. injection Hnew as <- <-.
    assert (Hk := kind_inline v0 _ h Ht ltac:(lia)).
    destruct (inline_facts v0 _ Ht ltac:(lia)) as [_ Hil].
    unfold view, len, deref, bind. rewrite Hk. cbn. rewrite Hil.
    replace (Z.of_nat (length s) <=? SZ) with true by (symmetry; apply Z.leb_le; unfold SZ; lia).
    cbn. rewrite Nat2Z.id, Hf. done. }
  destruct (decide (Z.of_nat (length s) <= 255)) as [Hs|Hs].
  { rewrite new_small_eq in Hnew by (unfold small_range; lia). cbv zeta in Hnew.
    destruct (alloc_fresh h _ a) eqn:Ha; [|discriminate].
    destruct (_ =? 0) eqn:Htop; [|discriminate]. injection Hnew as <- <-.
    apply alloc_fresh_spec in Ha as (Ha0 & _ & Ha2 & _). cbn [lay_size] in Ha2.
    apply Z.eqb_eq in Htop.
    pose proof (small_cells_new a s (h_mem h)) as Hc. cbv zeta in Hc.
    unfold view, len, bind.
    rewrite (deref_small_val (mkIA (stored_word (a + Z.of_nat (length s)) 1)) a (Z.of_nat (length s)) _ _ _ _ eq_refl ltac:(lia) Htop Hc).
    split; [|done]. cbn [read_slice]. rewrite read_bytes_eq. cbn [h_mem].
    destruct Hc as (_ & _ & ->). done. }
  destruct (decide (Z.of_nat (length s) < 2 ^ 48)) as [Hb|Hb].
  { rewrite new_big_eq in Hnew by (unfold big_range; lia). cbv zeta in Hnew.
    destruct (alloc_fresh h _ a) eqn:Ha; [|discriminate].
    destruct (_ =? 0) eqn:Htop; [|discriminate]. injection Hnew as <- <-.
    apply alloc_fresh_spec in Ha as (Ha0 & _ & Ha2 & _). cbn [lay_size] in Ha2.
    apply Z.eqb_eq in Htop.
    pose proof (big_cells_new a s (h_mem h)) as Hc. cbv zeta in Hc.
    unfold view, len, bind.
    rewrite (deref_big_val (mkIA (stored_word a 2)) a (Z.of_nat (length s)) _ _ _ _ eq_refl ltac:(lia) Htop ltac:(lia) Hc).
    split; [|done]. cbn [read_slice]. rewrite read_bytes_eq. cbn [h_mem].
    destruct Hc as (_ & _ & ->). done. }
  destruct (new_huge a s h ltac:(lia)) as [p [Hp _]]. congruence.
Qed.

(** ** Counting the sharers of an allocation *)

Lemma heap_ptr_stored v p t :
  ia_data v = stored_word p t -> 0 <= p < 2 ^ 64 -> top_ok p -> t = 1 \/ t = 2 ->
  heap_ptr v = Some p.
Proof.
  intros Hv Hp Htop Ht. unfold heap_ptr, inline_trailer. rewrite Hv.
  rewrite stored_word_trailer by (done || lia). rewrite decode_stored by (done || lia).
  unfold SMALL_REMOTE_TRAILER_TAG, BIG_REMOTE_TRAILER_TAG.
  destruct Ht as [-> | ->]; done.
Qed.

Lemma heap_ptr_inline v L :
  inline_trailer v = Z.shiftl L 2 -> 0 <= L <= 7 -> heap_ptr v = None.
Proof.
  intros Ht HL. unfold heap_ptr. rewrite (proj1 (inline_facts v L Ht HL)). done.
Qed.

Lemma count_ptr_app p xs ys : count_ptr p (xs ++ ys) = (count_ptr p xs + count_ptr p ys)%nat.
Proof. induction xs as [|x xs IH]; cbn; [done|]. rewrite IH. lia. Qed.

Lemma count_ptr_one p v :
  count_ptr p [v] = if decide (heap_ptr v = Some p) then 1%nat else 0%nat.
Proof. cbn. destruct (decide _); done. Qed.

Lemma count_ptr_perm p xs ys : xs ≡ₚ ys -> count_ptr p xs = count_ptr p ys.
Proof. induction 1; cbn; lia. Qed.

Lemma count_ptr_delete p vs i v :
  vs !! i = Some v ->
  count_ptr p vs = ((if decide (heap_ptr v = Some p) then 1 else 0) + count_ptr p (delete i vs))%nat.
Proof. intros Hi. rewrite (count_ptr_perm p _ _ (delete_Permutation vs i v Hi)). done. Qed.

Lemma count_ptr_none p vs :
  (forall v, In v vs -> heap_ptr v <> Some p) -> count_ptr p vs = 0%nat.
Proof.
  induction vs as [|v vs IH]; intros Hn; [done|]. cbn.
  destruct (decide _) as [E|_]; [exfalso; by apply (Hn v); [left|]|].
  apply IH. intros. apply Hn. by right.
Qed.

Lemma count_ptr_pos p vs : (1 <= count_ptr p vs)%nat -> exists v, In v vs /\ heap_ptr v = Some p.
Proof.
  induction vs as [|v vs IH]; cbn; intros H; [lia|].
  destruct (decide _) as [E|_]; [exists v; by split; [left|]|].
  destruct (IH H) as (w & Hw & E). exists w. by split; [right|].
Qed.

(** ** What the invariant gives for one live value *)

Lemma val_info h vs u :
  inv (mkWorld h vs) -> In u vs ->
  (exists L, inline_info u L)
  \/ (exists b L payload, small_info h vs u b L payload)
  \/ (exists b L payload, big_info h vs u b L payload).
Proof.
  intros (Hv & Hb & _) Hu. cbn [w_heap w_vals] in *.
  rewrite Forall_forall in Hv. specialize (Hv u (proj2 (list_elem_of_In _ _) Hu)).
  destruct Hv as [(Hl & L & HL & Ht & Hok) | [(b & L & Hr & Htop & Hd & Hblk) | (b & L & Hr & Htop & Hd & Hblk)]].
  - left. exists L. done.
  - right; left. specialize (Hb b _ Hblk) as (Hb0 & Hb8 & Hbsz & _ & Hsh). cbn [lay_size] in *.
    destruct Hsh as [(L' & pl & Hsz & Hr' & Htop' & Hok & Hc & Hn) | (L' & pl & Hsz & Hr' & _)].
    + assert (L' = L) as -> by lia. exists b, L, pl. unfold small_range, big_range in *. destruct Hc as (? & ? & ?). repeat split; done || lia.
    + unfold small_range, big_range in *. lia.
  - right; right. specialize (Hb b _ Hblk) as (Hb0 & Hb8 & Hbsz & _ & Hsh). cbn [lay_size] in *.
    destruct Hsh as [(L' & pl & Hsz & Hr' & _) | (L' & pl & Hsz & Hr' & Htop' & Hok & Hc & Hn)].
    + unfold small_range, big_range in *. lia.
    + assert (L' = L) as -> by lia. exists b, L, pl. unfold small_range, big_range in *. destruct Hc as (? & ? & ?). repeat split; done || lia.
Qed.

Lemma small_info_ptr h vs u b L pl :
  small_info h vs u b L pl -> heap_ptr u = Some (b + L).
Proof.
  intros (Hr & Htop & Hd & _ & Hb0 & _ & Hsz & _). unfold small_range in Hr.
  apply (heap_ptr_stored u _ 1); (done || lia).
Qed.

Lemma big_info_ptr h vs u b L pl :
  big_info h vs u b L pl -> heap_ptr u = Some b.
Proof.
  intros (Hr & Htop & Hd & _ & Hb0 & _ & Hsz & _). unfold big_range in Hr.
  apply (heap_ptr_stored u _ 2); (done || lia).
Qed.

Lemma inline_info_ptr u L : inline_info u L -> heap_ptr u = None.
Proof. intros (_ & HL & Ht & _). by apply (heap_ptr_inline u L). Qed.

(** ** The read view of a live value *)

Lemma view_inline_eq u L h :
  inline_info u L -> view u h = Ok (firstn (Z.to_nat L) (ia_data u)) h
  /\ deref u h = Ok (SInline L) h.
Proof.
  intros (Hl & HL & Ht & _). unfold view, deref, bind.
  rewrite (kind_inline u L h Ht HL). cbn.
  rewrite (proj2 (inline_facts u L Ht HL)).
  replace (L <=? SZ) with true by (symmetry; apply Z.leb_le; unfold SZ; lia). done.
Qed.

Lemma view_small_eq u b L h :
  ia_data u = stored_word (b + L) 1 -> 0 <= b + L < 2 ^ 64 -> top_ok (b + L) ->
  h_mem h !! (b + L + 1) = Some L ->
  deref u h = Ok (SHeap b L) h
  /\ view u h = match mem_read (h_mem h) b (Z.to_nat L) with Some s => Ok s h | None => UB end.
Proof.
  intros Hv Hp Htop Hlen.
  assert (Hd : deref u h = Ok (SHeap b L) h).
  { unfold deref, bind.
    rewrite (kind_stored u (b + L) 1) by (done || lia). cbn.
    rewrite (deref_small_trailer_stored u (b + L)) by done.
    unfold small_len, load. rewrite Hlen.
    rewrite (remote_ptr_stored u (b + L) 1) by (done || lia). unfold ret.
    replace (b + L - L) with b by lia. done. }
  split; [done|]. unfold view, bind. rewrite Hd. cbn [read_slice]. apply read_bytes_eq.
Qed.

Lemma view_big_eq u b L h :
  ia_data u = stored_word b 2 -> 0 <= b < 2 ^ 64 -> top_ok b -> 0 <= L < 2 ^ 48 ->
  mem_read (h_mem h) (b + 2) 6 = Some (le_bytes L 6) ->
  deref u h = Ok (SHeap (b + 8) L) h
  /\ view u h = match mem_read (h_mem h) (b + 8) (Z.to_nat L) with Some s => Ok s h | None => UB end.
Proof.
  intros Hv Hp Htop HL Hlen.
  assert (Hbl : big_len b h = Ok L h).
  { unfold big_len, bind. rewrite read_bytes_eq.
    change BIG_REMOTE_LEN_BYTES with 6%nat. rewrite Hlen. cbv beta iota. unfold ret.
    rewrite le_to_Z_app_zeros, le_to_Z_le_bytes. rewrite Z.mod_small by (cbn; lia). done. }
  assert (Hd : deref u h = Ok (SHeap (b + 8) L) h).
  { unfold deref, bind.
    rewrite (kind_stored u b 2) by (done || lia). cbn.
    rewrite (remote_ptr_stored u b 2) by (done || lia).
    rewrite (deref_big_header_stored u b) by done. rewrite Hbl. done. }
  split; [done|]. unfold view, bind. rewrite Hd. cbn [read_slice]. apply read_bytes_eq.
Qed.

Lemma view_small_info h vs u b L pl :
  small_info h vs u b L pl -> deref u h = Ok (SHeap b L) h /\ view u h = Ok pl h.
Proof.
  intros (Hr & Htop & Hd & _ & Hb0 & _ & Hsz & _ & (_ & Hlen & Hpl) & _). unfold small_range in Hr.
  destruct (view_small_eq u b L h) as [H1 H2]; try (done || lia).
  rewrite H2, Hpl. done.
Qed.

Lemma view_big_info h vs u b L pl :
  big_info h vs u b L pl -> deref u h = Ok (SHeap (b + 8) L) h /\ view u h = Ok pl h.
Proof.
  intros (Hr & Htop & Hd & _ & Hb0 & _ & Hsz & _ & (_ & Hlen & Hpl) & _). unfold big_range in Hr.
  destruct (view_big_eq u b L h) as [H1 H2]; try (done || lia).
  rewrite H2, Hpl. done.
Qed.

Lemma refcount_small_info h vs u b L pl :
  small_info h vs u b L pl -> refcount u h = Ok (Z.of_nat (count_ptr (b + L) vs)) h.
Proof.
  intros (Hr & Htop & Hd & _ & Hb0 & _ & Hsz & _ & (Hrc & _) & _). unfold small_range in Hr.
  unfold refcount, bind. rewrite (kind_stored u (b + L) 1) by (done || lia). cbn.
  rewrite (deref_small_trailer_stored u (b + L)) by (done || lia).
  unfold small_rc, load. rewrite Hrc. done.
Qed.

Lemma refcount_big_info h vs u b L pl :
  big_info h vs u b L pl -> refcount u h = Ok (Z.of_nat (count_ptr b vs)) h.
Proof.
  intros (Hr & Htop & Hd & _ & Hb0 & _ & Hsz & _ & Hc & Hn). unfold big_range in Hr.
  unfold refcount, bind. rewrite (kind_stored u b 2) by (done || lia). cbn.
  rewrite (deref_big_header_stored u b) by (done || lia).
  destruct h as [m bl]. apply (big_rc_cells m bl b L _ pl Hc). unfold U16_MAX in Hn. lia.
Qed.

Lemma kind_small_stored u p h :
  ia_data u = stored_word p 1 -> top_ok p -> kind u h = Ok SmallRemote h.
Proof. intros Hd Htop. rewrite (kind_stored u p 1) by (done || lia). done. Qed.

Lemma kind_big_stored u p h :
  ia_data u = stored_word p 2 -> top_ok p -> kind u h = Ok BigRemote h.
Proof. intros Hd Htop. rewrite (kind_stored u p 2) by (done || lia). done. Qed.

(** ** Clone *)

Ltac decide_kinds :=
  repeat (first [rewrite decide_True by done | rewrite decide_False by done]); cbv beta iota.

Lemma cas_loop_eq ld st max n h c :
  ld h = Ok c h ->
  cas_loop ld st max n h = if c =? max then Ok false h else bind (st (c + 1)) (fun _ => ret true) h.
Proof.
  intros Hld. induction n as [|n IH]; cbn [cas_loop]; unfold bind at 1; rewrite Hld;
    destruct (c =? max); done.
Qed.

Lemma clone_inline_eq a n u L h :
  inline_info u L -> clone a n u h = Ok (mkIA (ia_data u)) h.
Proof.
  intros (_ & HL & Ht & _). unfold clone, bind. rewrite (kind_inline u L h Ht HL).
  rewrite decide_False by done. cbv beta iota.
  rewrite (kind_inline u L h Ht HL). rewrite decide_False by done. done.
Qed.

Lemma clone_small_eq a n h vs u b L pl :
  small_info h vs u b L pl ->
  clone a n u h =
    if Z.of_nat (count_ptr (b + L) vs) =? U8_MAX then new a pl h
    else Ok (mkIA (ia_data u))
            (mkHeap (<[b + L := Z.of_nat (count_ptr (b + L) vs) + 1]> (h_mem h)) (h_blocks h)).
Proof.
  intros Hi. pose proof (view_small_info _ _ _ _ _ _ Hi) as [_ Hview].
  destruct Hi as (Hr & Htop & Hd & _ & Hb0 & _ & Hsz & _ & (Hrc & _) & _). unfold small_range in Hr.
  unfold clone, bind at 1. rewrite (kind_small_stored u (b + L)) by done. decide_kinds.
  unfold bind at 1. rewrite (deref_small_trailer_stored u (b + L)) by (done || lia).
  unfold bind at 1. rewrite (cas_loop_eq _ _ _ _ _ (Z.of_nat (count_ptr (b + L) vs))) by (unfold small_rc, load; rewrite Hrc; done).
  destruct (_ =? U8_MAX).
  - unfold ret, bind. rewrite Hview. done.
  - done.
Qed.

Lemma clone_big_eq a n h vs u b L pl :
  big_info h vs u b L pl ->
  clone a n u h =
    if Z.of_nat (count_ptr b vs) =? U16_MAX then new a pl h
    else Ok (mkIA (ia_data u))
            (mkHeap (mem_write b (le_bytes (Z.of_nat (count_ptr b vs) + 1) 2) (h_mem h)) (h_blocks h)).
Proof.
  intros Hi. pose proof (view_big_info _ _ _ _ _ _ Hi) as [_ Hview].
  destruct Hi as (Hr & Htop & Hd & _ & Hb0 & _ & Hsz & _ & Hc & Hn). unfold big_range in Hr.
  unfold clone, bind at 1. rewrite (kind_big_stored u b) by done. decide_kinds.
  unfold bind at 1. rewrite (kind_big_stored u b) by done. decide_kinds.
  unfold bind at 1. rewrite (deref_big_header_stored u b) by (done || lia).
  unfold bind at 1. rewrite (cas_loop_eq _ _ _ _ _ (Z.of_nat (count_ptr b vs))).
  2: { destruct h as [m bl]. apply (big_rc_cells m bl b L _ pl Hc). unfold U16_MAX in Hn. lia. }
  destruct (_ =? U16_MAX).
  - unfold ret, bind. rewrite Hview. done.
  - unfold bind, big_rc_store. rewrite write_bytes_eq. done.
Qed.

(** ** Drop *)

Lemma drop_inline_eq u L h : inline_info u L -> drop u h = Ok tt h.
Proof.
  intros (_ & HL & Ht & _). unfold drop, bind. rewrite (kind_inline u L h Ht HL). done.
Qed.

Lemma drop_small_eq h vs u b L pl :
  small_info h vs u b L pl ->
  let c := Z.of_nat (count_ptr (b + L) vs) in
  drop u h =
    Ok tt (if c =? 1
           then mkHeap (range_delete b (Z.to_nat (L + 2)) (<[b + L := 0]> (h_mem h)))
                       (delete b (h_blocks h))
           else mkHeap (<[b + L := c - 1]> (h_mem h)) (h_blocks h)).
Proof.
  intros (Hr & Htop & Hd & Hblk & Hb0 & _ & Hsz & _ & (Hrc & Hlen & _) & Hn). unfold small_range in Hr.
  cbv zeta. set (c := Z.of_nat (count_ptr (b + L) vs)) in *. unfold U8_MAX in Hn.
  unfold drop, bind at 1. rewrite (kind_small_stored u (b + L)) by done. decide_kinds.
  unfold bind at 1. rewrite (deref_small_trailer_stored u (b + L)) by (done || lia).
  unfold bind at 1, small_rc, load. rewrite Hrc.
  unfold bind at 1, store. cbn [h_mem h_blocks].
  rewrite Z.mod_small by lia.
  destruct (c =? 1) eqn:E1.
  - apply Z.eqb_eq in E1. replace (c - 1 =? 0) with true by (symmetry; apply Z.eqb_eq; lia).
    replace (c - 1) with 0 by lia.
    unfold bind at 1, small_len, load. cbn [h_mem]. rewrite lookup_insert_ne by lia. rewrite Hlen.
    unfold SMALL_TRAILER_SIZE. rewrite from_size_align_ok by (unfold ISIZE_MAX; lia).
    unfold bind at 1, unwrap, ret.
    unfold bind at 1. rewrite (remote_ptr_stored u (b + L) 1) by (done || lia).
    unfold bind at 1, load. cbn [h_mem]. rewrite lookup_insert_ne by lia. rewrite Hlen.
    replace (b + L - L) with b by lia.
    unfold dealloc. cbn [h_blocks h_mem]. rewrite Hblk. rewrite decide_True by done. done.
  - apply Z.eqb_neq in E1. replace (c - 1 =? 0) with false by (symmetry; apply Z.eqb_neq; lia).
    done.
Qed.

Lemma drop_big_eq h vs u b L pl :
  big_info h vs u b L pl ->
  let c := Z.of_nat (count_ptr b vs) in
  drop u h =
    Ok tt (if c =? 1
           then mkHeap (range_delete b (Z.to_nat (L + 8)) (mem_write b (le_bytes 0 2) (h_mem h)))
                       (delete b (h_blocks h))
           else mkHeap (mem_write b (le_bytes (c - 1) 2) (h_mem h)) (h_blocks h)).
Proof.
  intros (Hr & Htop & Hd & Hblk & Hb0 & _ & Hsz & _ & Hc & Hn). unfold big_range in Hr.
  cbv zeta. set (c := Z.of_nat (count_ptr b vs)) in *. unfold U16_MAX in Hn.
  unfold drop, bind at 1. rewrite (kind_big_stored u b) by done. decide_kinds.
  unfold bind at 1. rewrite (deref_big_header_stored u b) by (done || lia).
  unfold bind at 1. destruct h as [m bl]. rewrite (big_rc_cells m bl b L c pl Hc) by lia.
  unfold bind at 1, big_rc_store. rewrite write_bytes_eq. cbn [h_mem h_blocks].
  rewrite Z.mod_small by lia.
  destruct (c =? 1) eqn:E1.
  - apply Z.eqb_eq in E1. replace (c - 1 =? 0) with true by (symmetry; apply Z.eqb_eq; lia).
    replace (c - 1) with 0 by lia.
    assert (Hc' : big_cells (mem_write b (le_bytes 0 2) m) b L 0 pl).
    { destruct Hc as (_ & Hl & Hp). split; [|split].
      - rewrite <- (Z.add_0_r b) at 2. rewrite (mem_read_write_sub b _ m 0 2) by (rewrite length_le_bytes; lia).
        done.
      - rewrite <- Hl. apply mem_read_ext. intros y Hy. apply lookup_mem_write_out.
        rewrite length_le_bytes. lia.
      - rewrite <- Hp. apply mem_read_ext. intros y Hy. apply lookup_mem_write_out.
        rewrite length_le_bytes. lia. }
    unfold bind at 1. rewrite (big_len_cells _ bl b L 0 pl Hc') by lia.
    unfold BIG_HEADER_SIZE. rewrite from_size_align_ok by (unfold ISIZE_MAX; lia).
    unfold bind at 1, unwrap, ret.
    unfold bind at 1. rewrite (remote_ptr_stored u b 2) by (done || lia).
    unfold dealloc. cbn [h_blocks h_mem] in *. rewrite Hblk. rewrite decide_True by done. done.
  - apply Z.eqb_neq in E1. replace (c - 1 =? 0) with false by (symmetry; apply Z.eqb_neq; lia).
    done.
Qed.

(** ** Frame properties of the invariant *)

Lemma ptr_in_block h vs w p :
  inv (mkWorld h vs) -> In w vs -> heap_ptr w = Some p ->
  exists b l, h_blocks h !! b = Some l /\ b <= p < b + lay_size l.
Proof.
  intros Hinv Hw Hp.
  destruct (val_info h vs w Hinv Hw) as [(L & Hi) | [(b & L & pl & Hi) | (b & L & pl & Hi)]].
  - rewrite (inline_info_ptr w L Hi) in Hp. discriminate.
  - rewrite (small_info_ptr h vs w b L pl Hi) in Hp. injection Hp as <-.
    destruct Hi as (Hr & _ & _ & Hblk & _). exists b, (mkLayout (L + 2) 8). split; [exact Hblk|]. cbn. unfold small_range in Hr. lia.
  - rewrite (big_info_ptr h vs w b L pl Hi) in Hp. injection Hp as <-.
    destruct Hi as (Hr & _ & _ & Hblk & _). exists b, (mkLayout (L + 8) 8). split; [exact Hblk|]. cbn. unfold big_range in Hr. lia.
Qed.

Lemma block_size_pos h vs b l :
  inv (mkWorld h vs) -> h_blocks h !! b = Some l -> 0 < lay_size l.
Proof.
  intros (_ & Hb & _) Hl. specialize (Hb b l Hl) as (_ & _ & _ & _ & Hsh).
  unfold small_range, big_range in Hsh. destruct Hsh as [(L & pl & Hs & Hr & _) | (L & pl & Hs & Hr & _)]; lia.
Qed.

Lemma fresh_not_block h vs a sz :
  inv (mkWorld h vs) -> 0 < sz -> disjoint_from a sz (h_blocks h) -> h_blocks h !! a = None.
Proof.
  intros Hinv Hsz Hd. destruct (h_blocks h !! a) as [l|] eqn:Ha; [|done].
  pose proof (block_size_pos h vs a l Hinv Ha). specialize (Hd a l Ha). cbn in Hd. lia.
Qed.

Lemma count_fresh h vs a sz p :
  inv (mkWorld h vs) -> disjoint_from a sz (h_blocks h) -> a <= p < a + sz ->
  count_ptr p vs = 0%nat.
Proof.
  intros Hinv Hd Hp. apply count_ptr_none. intros w Hw E.
  destruct (ptr_in_block h vs w p Hinv Hw E) as (b & l & Hb & Hbp).
  specialize (Hd b l Hb). cbn in Hd. lia.
Qed.

Lemma count_ptr_snoc_other p vs v :
  heap_ptr v <> Some p -> count_ptr p (vs ++ [v]) = count_ptr p vs.
Proof. intros Hn. rewrite count_ptr_app, count_ptr_one, decide_False by done. lia. Qed.

Lemma wf_block_frame h h' vs vs' b l :
  wf_block h vs b l ->
  (forall y, b <= y < b + lay_size l -> h_mem h' !! y = h_mem h !! y) ->
  (forall p, b <= p < b + lay_size l -> count_ptr p vs' = count_ptr p vs) ->
  wf_block h' vs' b l.
Proof.
  intros (Hb0 & Hb8 & Hsz & Hal & Hsh) Hm Hc. do 4 (split; [done|]).
  unfold small_range, big_range in Hsh.
  destruct Hsh as [(L & pl & Hs & Hr & Htop & Hok & (Hrc & Hlen & Hpl) & Hn)
                  | (L & pl & Hs & Hr & Htop & Hok & (Hrc & Hlen & Hpl) & Hn)].
  - left. exists L, pl. rewrite Hc by lia. do 4 (split; [done|]). split; [|done].
    split; [|split].
    + rewrite Hm by lia. done.
    + rewrite Hm by lia. done.
    + rewrite <- Hpl. apply mem_read_ext. intros y Hy. apply Hm. lia.
  - right. exists L, pl. rewrite Hc by lia. do 4 (split; [done|]). split; [|done].
    split; [|split].
    + rewrite <- Hrc. apply mem_read_ext. intros y Hy. apply Hm. cbn in Hy. lia.
    + rewrite <- Hlen. apply mem_read_ext. intros y Hy. apply Hm. cbn in Hy. lia.
    + rewrite <- Hpl. apply mem_read_ext. intros y Hy. apply Hm. lia.
Qed.

Lemma wf_val_blocks_sub h h' v :
  (forall b l, h_blocks h !! b = Some l -> h_blocks h' !! b = Some l) ->
  wf_val h v -> wf_val h' v.
Proof.
  intros Hsub [Hi | [(b & L & ? & ? & ? & Hb) | (b & L & ? & ? & ? & Hb)]].
  - by left.
  - right; left. exists b, L. auto.
  - right; right. exists b, L. auto.
Qed.

(** Adding one fresh allocation and one value pointing into it. *)
Lemma inv_alloc h vs a l m' v :
  inv (mkWorld h vs) -> 0 < lay_size l -> disjoint_from a (lay_size l) (h_blocks h) ->
  (forall y, y < a \/ a + lay_size l <= y -> m' !! y = h_mem h !! y) ->
  (forall p, heap_ptr v = Some p -> a <= p < a + lay_size l) ->
  wf_val (mkHeap m' (<[a := l]> (h_blocks h))) v ->
  wf_block (mkHeap m' (<[a := l]> (h_blocks h))) (vs ++ [v]) a l ->
  inv (mkWorld (mkHeap m' (<[a := l]> (h_blocks h))) (vs ++ [v])).
Proof.
  intros Hinv Hpos Hd Hm Hv Hwv Hwb.
  pose proof (fresh_not_block h vs a _ Hinv Hpos Hd) as Ha.
  destruct Hinv as (Hvals & Hblocks & Hdisj). cbn [w_heap w_vals] in *.
  split; [|split]; cbn [w_heap w_vals h_blocks].
  - apply Forall_app. split; [|by constructor].
    eapply Forall_impl; [exact Hvals|]. intros w. apply wf_val_blocks_sub.
    intros b l' Hb. cbn. rewrite lookup_insert_ne; [done|]. congruence.
  - apply map_Forall_insert_2; [done|].
    intros b l' Hb. pose proof (Hd b l' Hb) as Hdb. cbn in Hdb.
    apply (wf_block_frame h _ vs); [by apply Hblocks| |].
    + intros y Hy. cbn. apply Hm. lia.
    + intros p Hp. apply count_ptr_snoc_other. intros E. specialize (Hv p E). lia.
  - intros b1 b2 l1 l2 H1 H2 Hne.
    rewrite lookup_insert_Some in H1, H2.
    destruct H1 as [[<- <-] | [Hne1 H1]], H2 as [[<- <-] | [Hne2 H2]]; [done| | |by apply Hdisj].
    + specialize (Hd b2 l2 H2). cbn in Hd. lia.
    + specialize (Hd b1 l1 H1). cbn in Hd. lia.
Qed.

(** ** Construction preserves the invariant *)

Lemma count_new_one h vs a sz p v :
  inv (mkWorld h vs) -> disjoint_from a sz (h_blocks h) -> a <= p < a + sz ->
  heap_ptr v = Some p -> count_ptr p (vs ++ [v]) = 1%nat.
Proof.
  intros Hinv Hd Hp Hv. rewrite count_ptr_app, count_ptr_one, decide_True by done.
  rewrite (count_fresh h vs a sz p Hinv Hd Hp). done.
Qed.

Lemma inv_new h vs a s v h' :
  inv (mkWorld h vs) -> bytes_ok s = true -> new a s h = Ok v h' -> inv (mkWorld h' (vs ++ [v])).
Proof.
  intros Hinv Hs Hnew.
  destruct (decide (length s <= 7)%nat) as [Hi|Hi].
  { destruct (new_inline a s h Hi) as (v0 & Hn & Hlen & Ht & Hf).
    rewrite Hn in Hnew. injection Hnew as <- <-.
    assert (Hp : heap_ptr v0 = None) by (apply (heap_ptr_inline v0 (Z.of_nat (length s))); [done|lia]).
    destruct Hinv as (Hvals & Hblocks & Hdisj). cbn [w_heap w_vals] in *.
    split; [|split]; cbn [w_heap w_vals]; [|intros b l Hb| done].
    - apply Forall_app. split; [done|]. constructor; [|constructor].
      left. split; [done|]. exists (Z.of_nat (length s)). rewrite Nat2Z.id, Hf. split; [lia|done].
    - apply (wf_block_frame h _ vs); [by apply Hblocks|done|].
      intros p _. apply count_ptr_snoc_other. rewrite Hp. done. }
  destruct (decide (Z.of_nat (length s) <= 255)) as [Hsm|Hsm].
  { rewrite new_small_eq in Hnew by (unfold small_range; lia). cbv zeta in Hnew.
    set (L := Z.of_nat (length s)) in *.
    destruct (alloc_fresh h _ a) eqn:Ha; [|discriminate].
    destruct (_ =? 0) eqn:Htop; [|discriminate]. injection Hnew as <- <-.
    apply Z.eqb_eq in Htop. apply alloc_fresh_spec in Ha as (Ha0 & Ha8 & Ha2 & Hd). cbn [lay_size lay_align] in *.
    assert (Hp : heap_ptr (mkIA (stored_word (a + L) 1)) = Some (a + L))
      by (apply (heap_ptr_stored _ _ 1); (done || lia)).
    apply inv_alloc; cbn [lay_size]; [done|lia|done| | | |].
    - intros y Hy. rewrite lookup_mem_write_out by (unfold L in *; lia).
      rewrite ?lookup_insert_ne by lia. rewrite ?lookup_mem_write_out by (cbn; lia). done.
    - intros p. rewrite Hp. intros [= <-]. lia.
    - right; left. exists a, L. split; [unfold small_range; lia|]. split; [done|]. split; [done|].
      cbn. apply lookup_insert_eq.
    - split; [lia|]. split; [done|]. split; [cbn; lia|]. split; [done|]. left.
      exists L, s. cbn [lay_size h_mem].
      rewrite (count_new_one h vs a (L + 2) (a + L)) by (done || lia).
      split; [done|]. split; [unfold small_range; lia|]. do 2 (split; [done|]).
      split; [apply small_cells_new|]. unfold U8_MAX. lia. }
  destruct (decide (Z.of_nat (length s) < 2 ^ 48)) as [Hb|Hb].
  { rewrite new_big_eq in Hnew by (unfold big_range; lia). cbv zeta in Hnew.
    set (L := Z.of_nat (length s)) in *.
    destruct (alloc_fresh h _ a) eqn:Ha; [|discriminate].
    destruct (_ =? 0) eqn:Htop; [|discriminate]. injection Hnew as <- <-.
    apply Z.eqb_eq in Htop. apply alloc_fresh_spec in Ha as (Ha0 & Ha8 & Ha2 & Hd). cbn [lay_size lay_align] in *.
    assert (Hp : heap_ptr (mkIA (stored_word a 2)) = Some a)
      by (apply (heap_ptr_stored _ _ 2); (done || lia)).
    apply inv_alloc; cbn [lay_size]; [done|lia|done| | | |].
    - intros y Hy. rewrite lookup_mem_write_out by (unfold L in *; lia).
      rewrite ?lookup_insert_ne by lia.
      rewrite ?lookup_mem_write_out by (rewrite ?length_app, ?length_le_bytes; cbn; lia). done.
    - intros p. rewrite Hp. intros [= <-]. lia.
    - right; right. exists a, L. split; [unfold big_range; lia|]. split; [done|]. split; [done|].
      cbn. apply lookup_insert_eq.
    - split; [lia|]. split; [done|]. split; [cbn; lia|]. split; [done|]. right.
      exists L, s. cbn [lay_size h_mem].
      rewrite (count_new_one h vs a (L + 8) a) by (done || lia).
      split; [done|]. split; [unfold big_range; lia|]. do 2 (split; [done|]).
      split; [apply big_cells_new|]. unfold U16_MAX. lia. }
  destruct (new_huge a s h ltac:(lia)) as [p [Hp _]]. congruence.
Qed.

(** ** Rearranging the live values *)

Lemma delete_insert_list (vs : list InlineArray) i w :
  delete i (<[i := w]> vs) = delete i vs.
Proof.
  revert i; induction vs as [|v vs IH]; intros [|i]; cbn; try done. rewrite IH. done.
Qed.

Lemma insert_perm (vs : list InlineArray) i v w :
  vs !! i = Some v -> <[i := w]> vs ≡ₚ w :: delete i vs.
Proof.
  intros Hi. rewrite <- (delete_insert_list vs i w). apply delete_Permutation.
  apply list_lookup_insert_eq. apply lookup_lt_Some in Hi. done.
Qed.

Lemma delete_app_l (vs ys : list InlineArray) i :
  (i < length vs)%nat -> delete i (vs ++ ys) = delete i vs ++ ys.
Proof.
  revert i; induction vs as [|v vs IH]; intros [|i] Hi; cbn in *; try lia; try done.
  rewrite IH by lia. done.
Qed.

Lemma delete_snoc_perm (vs : list InlineArray) i v w :
  vs !! i = Some v -> delete i (vs ++ [w]) ≡ₚ <[i := w]> vs.
Proof.
  intros Hi. rewrite delete_app_l by (apply lookup_lt_Some in Hi; done).
  rewrite (insert_perm vs i v w Hi). rewrite Permutation_app_comm. done.
Qed.

Lemma lookup_In (vs : list InlineArray) i v : vs !! i = Some v -> In v vs.
Proof. intros Hi. apply list_elem_of_In. by eapply list_elem_of_lookup_2. Qed.

Lemma count_ptr_in p vs w : In w vs -> heap_ptr w = Some p -> (1 <= count_ptr p vs)%nat.
Proof.
  induction vs as [|v vs IH]; intros Hw Hp; [done|]. cbn.
  destruct Hw as [<- | Hw]; [rewrite decide_True by done; lia|]. specialize (IH Hw Hp). lia.
Qed.

Lemma inv_perm h vs vs' : vs ≡ₚ vs' -> inv (mkWorld h vs) -> inv (mkWorld h vs').
Proof.
  intros Hp (Hv & Hb & Hd). split; [|split]; cbn [w_heap w_vals] in *; [| |done].
  - rewrite Forall_forall in *. intros x Hx. apply Hv. by rewrite Hp.
  - intros b l Hbl. apply (wf_block_frame h h vs); [by apply Hb|done|].
    intros p _. symmetry. by apply count_ptr_perm.
Qed.

(** A change of the memory confined to one live block. *)
Lemma inv_local h vs m' vs' b l :
  inv (mkWorld h vs) -> h_blocks h !! b = Some l ->
  (forall y, y < b \/ b + lay_size l <= y -> m' !! y = h_mem h !! y) ->
  (forall p, p < b \/ b + lay_size l <= p -> count_ptr p vs' = count_ptr p vs) ->
  Forall (wf_val h) vs' ->
  wf_block (mkHeap m' (h_blocks h)) vs' b l ->
  inv (mkWorld (mkHeap m' (h_blocks h)) vs').
Proof.
  intros (Hv & Hb & Hd) Hl Hm Hc Hv' Hwb. cbn [w_heap w_vals] in *.
  split; [|split]; cbn [w_heap w_vals h_blocks]; [| |done].
  - eapply Forall_impl; [exact Hv'|]. intros w. apply wf_val_blocks_sub. done.
  - intros b2 l2 Hb2. destruct (decide (b2 = b)) as [->|Hne].
    + rewrite Hl in Hb2. injection Hb2 as <-. done.
    + pose proof (Hd b2 b l2 l Hb2 Hl Hne) as Hdis.
      apply (wf_block_frame h _ vs); [by apply Hb| |].
      * intros y Hy. apply Hm. lia.
      * intros p Hp. apply Hc. lia.
Qed.

(** Freeing one block that no remaining value points into. *)
Lemma inv_free h vs m' vs' b l :
  inv (mkWorld h vs) -> h_blocks h !! b = Some l ->
  (forall y, y < b \/ b + lay_size l <= y -> m' !! y = h_mem h !! y) ->
  (forall p, p < b \/ b + lay_size l <= p -> count_ptr p vs' = count_ptr p vs) ->
  (forall p, b <= p < b + lay_size l -> count_ptr p vs' = 0%nat) ->
  (forall w, In w vs' -> In w vs) ->
  inv (mkWorld (mkHeap m' (delete b (h_blocks h))) vs').
Proof.
  intros Hinv Hl Hm Hc H0 Hsub. pose proof Hinv as (Hv & Hb & Hd). cbn [w_heap w_vals] in *.
  split; [|split]; cbn [w_heap w_vals h_blocks].
  - rewrite Forall_forall in *. intros w Hw. apply list_elem_of_In in Hw.
    pose proof (Hv w (proj2 (list_elem_of_In _ _) (Hsub w Hw))) as Hwf.
    destruct (val_info h vs w Hinv (Hsub w Hw)) as [(L & Hi) | [(b' & L & pl & Hi) | (b' & L & pl & Hi)]].
    + left. destruct Hi as (? & ? & ? & ?). split; [done|]. exists L. done.
    + pose proof (small_info_ptr _ _ _ _ _ _ Hi) as Hp.
      destruct Hi as (Hr & Htop & Hdw & Hblk & _).
      right; left. exists b', L. do 3 (split; [done|]). cbn.
      rewrite lookup_delete_ne; [done|]. intros <-. rewrite Hl in Hblk. injection Hblk as Hll. subst l.
      pose proof (count_ptr_in _ _ _ Hw Hp). rewrite H0 in H by (cbn; unfold small_range in Hr; lia). lia.
    + pose proof (big_info_ptr _ _ _ _ _ _ Hi) as Hp.
      destruct Hi as (Hr & Htop & Hdw & Hblk & _).
      right; right. exists b', L. do 3 (split; [done|]). cbn.
      rewrite lookup_delete_ne; [done|]. intros <-. rewrite Hl in Hblk. injection Hblk as Hll. subst l.
      pose proof (count_ptr_in _ _ _ Hw Hp). rewrite H0 in H by (cbn; unfold big_range in Hr; lia). lia.
  - intros b2 l2 Hb2. rewrite lookup_delete_Some in Hb2. destruct Hb2 as [Hne Hb2].
    pose proof (Hd b2 b l2 l Hb2 Hl ltac:(congruence)) as Hdis.
    apply (wf_block_frame h _ vs); [by apply Hb| |].
    + intros y Hy. apply Hm. lia.
    + intros p Hp. apply Hc. lia.
  - intros b1 b2 l1 l2 H1 H2 Hne. rewrite lookup_delete_Some in H1, H2.
    apply (Hd b1 b2); tauto.
Qed.

(** ** Clone and drop preserve the invariant *)

Lemma mem_read_write_len x l m n : length l = n -> mem_read (mem_write x l m) x n = Some l.
Proof. intros <-. apply mem_read_write. Qed.

Lemma small_block_update h vs u b L pl vs' bl' :
  small_info h vs u b L pl -> 1 <= Z.of_nat (count_ptr (b + L) vs') <= U8_MAX ->
  wf_block (mkHeap (<[b + L := Z.of_nat (count_ptr (b + L) vs')]> (h_mem h)) bl') vs' b
           (mkLayout (L + 2) 8).
Proof.
  intros (Hr & Htop & _ & _ & Hb0 & Hb8 & Hsz & Hok & (_ & Hlen & Hpl) & _) Hn.
  unfold small_range in Hr. cbn [lay_size lay_align h_mem].
  do 4 (split; [done|]). left. exists L, pl. split; [done|]. split; [unfold small_range; lia|].
  do 2 (split; [done|]). split; [|done]. cbn [h_mem]. split; [|split].
  - apply lookup_insert_eq.
  - rewrite lookup_insert_ne by lia. done.
  - rewrite <- Hpl. apply mem_read_ext. intros y Hy. apply lookup_insert_ne. lia.
Qed.

Lemma big_block_update h vs u b L pl vs' bl' :
  big_info h vs u b L pl -> 1 <= Z.of_nat (count_ptr b vs') <= U16_MAX ->
  wf_block (mkHeap (mem_write b (le_bytes (Z.of_nat (count_ptr b vs')) 2) (h_mem h)) bl') vs' b
           (mkLayout (L + 8) 8).
Proof.
  intros (Hr & Htop & _ & _ & Hb0 & Hb8 & Hsz & Hok & (_ & Hlen & Hpl) & _) Hn.
  unfold big_range in Hr. cbn [lay_size lay_align h_mem].
  do 4 (split; [done|]). right. exists L, pl. split; [done|]. split; [unfold big_range; lia|].
  do 2 (split; [done|]). split; [|done]. cbn [h_mem]. split; [|split].
  - apply mem_read_write_len, length_le_bytes.
  - rewrite <- Hlen. apply mem_read_ext. intros y Hy. apply lookup_mem_write_out.
    rewrite length_le_bytes. lia.
  - rewrite <- Hpl. apply mem_read_ext. intros y Hy. apply lookup_mem_write_out.
    rewrite length_le_bytes. lia.
Qed.

Lemma inv_snoc_none h vs v :
  inv (mkWorld h vs) -> wf_val h v -> heap_ptr v = None -> inv (mkWorld h (vs ++ [v])).
Proof.
  intros (Hvals & Hblocks & Hdisj) Hv Hp. cbn [w_heap w_vals] in *.
  split; [|split]; cbn [w_heap w_vals]; [|intros b l Hb|done].
  - apply Forall_app. split; [done|]. by constructor.
  - apply (wf_block_frame h _ vs); [by apply Hblocks|done|].
    intros p _. apply count_ptr_snoc_other. rewrite Hp. done.
Qed.

Lemma inv_delete_none h vs i v :
  inv (mkWorld h vs) -> vs !! i = Some v -> heap_ptr v = None -> inv (mkWorld h (delete i vs)).
Proof.
  intros (Hvals & Hblocks & Hdisj) Hi Hp. cbn [w_heap w_vals] in *.
  split; [|split]; cbn [w_heap w_vals]; [|intros b l Hb|done].
  - by apply Forall_delete.
  - apply (wf_block_frame h _ vs); [by apply Hblocks|done|].
    intros p _. rewrite (count_ptr_delete p vs i v Hi), Hp. done.
Qed.

Lemma wf_val_lookup h vs i v : inv (mkWorld h vs) -> vs !! i = Some v -> wf_val h v.
Proof.
  intros (Hv & _) Hi. cbn in Hv. rewrite Forall_forall in Hv. apply Hv.
  by eapply list_elem_of_lookup_2.
Qed.

Lemma mkIA_eta v : mkIA (ia_data v) = v.
Proof. by destruct v. Qed.

(** Inside a live block, only its designated pointer is stored by values. *)
Lemma count_small_block_other h vs b L p :
  inv (mkWorld h vs) -> h_blocks h !! b = Some (mkLayout (L + 2) 8) -> small_range L ->
  b <= p < b + L + 2 -> p <> b + L -> count_ptr p vs = 0%nat.
Proof.
  intros Hinv Hb Hr Hp Hne. apply count_ptr_none. intros w Hw E.
  pose proof Hinv as (_ & _ & Hd). unfold small_range, big_range in *.
  destruct (val_info h vs w Hinv Hw) as [(L' & Hi) | [(b' & L' & pl & Hi) | (b' & L' & pl & Hi)]].
  - rewrite (inline_info_ptr w L' Hi) in E. discriminate.
  - rewrite (small_info_ptr _ _ _ _ _ _ Hi) in E. injection E as <-.
    destruct Hi as (Hr' & _ & _ & Hb' & _). unfold small_range in Hr'.
    destruct (decide (b' = b)) as [->|Hbb].
    + rewrite Hb in Hb'. injection Hb' as HL. lia.
    + specialize (Hd b' b _ _ Hb' Hb Hbb). cbn in Hd. lia.
  - rewrite (big_info_ptr _ _ _ _ _ _ Hi) in E. injection E as <-.
    destruct Hi as (Hr' & _ & _ & Hb' & _). unfold big_range in Hr'.
    destruct (decide (b' = b)) as [->|Hbb].
    + rewrite Hb in Hb'. injection Hb' as HL. lia.
    + specialize (Hd b' b _ _ Hb' Hb Hbb). cbn in Hd. lia.
Qed.

Lemma count_big_block_other h vs b L p :
  inv (mkWorld h vs) -> h_blocks h !! b = Some (mkLayout (L + 8) 8) -> big_range L ->
  b <= p < b + L + 8 -> p <> b -> count_ptr p vs = 0%nat.
Proof.
  intros Hinv Hb Hr Hp Hne. apply count_ptr_none. intros w Hw E.
  pose proof Hinv as (_ & _ & Hd). unfold small_range, big_range in *.
  destruct (val_info h vs w Hinv Hw) as [(L' & Hi) | [(b' & L' & pl & Hi) | (b' & L' & pl & Hi)]].
  - rewrite (inline_info_ptr w L' Hi) in E. discriminate.
  - rewrite (small_info_ptr _ _ _ _ _ _ Hi) in E. injection E as <-.
    destruct Hi as (Hr' & _ & _ & Hb' & _). unfold small_range in Hr'.
    destruct (decide (b' = b)) as [->|Hbb].
    + rewrite Hb in Hb'. injection Hb' as HL. lia.
    + specialize (Hd b' b _ _ Hb' Hb Hbb). cbn in Hd. lia.
  - rewrite (big_info_ptr _ _ _ _ _ _ Hi) in E. injection E as <-.
    destruct Hi as (Hr' & _ & _ & Hb' & _). unfold big_range in Hr'.
    destruct (decide (b' = b)) as [->|Hbb]; [done|].
    specialize (Hd b' b _ _ Hb' Hb Hbb). cbn in Hd. lia.
Qed.

Lemma inv_clone h vs i u a n v' h' :
  inv (mkWorld h vs) -> vs !! i = Some u -> clone a n u h = Ok v' h' ->
  inv (mkWorld h' (vs ++ [v'])).
Proof.
  intros Hinv Hi Hcl. pose proof (lookup_In _ _ _ Hi) as Hu.
  pose proof (wf_val_lookup _ _ _ _ Hinv Hi) as Hwu.
  destruct (val_info h vs u Hinv Hu) as [(L & Hinf) | [(b & L & pl & Hinf) | (b & L & pl & Hinf)]].
  - rewrite (clone_inline_eq a n u L h Hinf), mkIA_eta in Hcl. injection Hcl as <- <-.
    apply inv_snoc_none; [done|done|]. by apply (inline_info_ptr u L).
  - pose proof (small_info_ptr _ _ _ _ _ _ Hinf) as Hp.
    rewrite (clone_small_eq a n h vs u b L pl Hinf) in Hcl.
    pose proof Hinf as (Hr & _ & _ & Hblk & _ & _ & _ & Hok & _ & Hn). unfold small_range, U8_MAX in *.
    destruct (_ =? 255) eqn:Ec; [by apply (inv_new h vs a pl)|].
    apply Z.eqb_neq in Ec. rewrite mkIA_eta in Hcl. injection Hcl as <- <-.
    assert (Hc : count_ptr (b + L) (vs ++ [u]) = S (count_ptr (b + L) vs)).
    { rewrite count_ptr_app, count_ptr_one, decide_True by done. lia. }
    replace (Z.of_nat (count_ptr (b + L) vs) + 1) with (Z.of_nat (count_ptr (b + L) (vs ++ [u]))) by lia.
    apply (inv_local h vs _ _ b _ Hinv Hblk).
    + intros y Hy. cbn [lay_size] in Hy. apply lookup_insert_ne. lia.
    + intros p Hp'. cbn [lay_size] in Hp'. apply count_ptr_snoc_other. rewrite Hp. intros [= <-]. lia.
    + apply Forall_app. split; [apply Hinv|by constructor].
    + apply (small_block_update h vs u b L pl); [done|]. rewrite Hc. unfold U8_MAX. lia.
  - pose proof (big_info_ptr _ _ _ _ _ _ Hinf) as Hp.
    rewrite (clone_big_eq a n h vs u b L pl Hinf) in Hcl.
    pose proof Hinf as (Hr & _ & _ & Hblk & _ & _ & _ & Hok & _ & Hn). unfold big_range, U16_MAX in *.
    destruct (_ =? 65535) eqn:Ec; [by apply (inv_new h vs a pl)|].
    apply Z.eqb_neq in Ec. rewrite mkIA_eta in Hcl. injection Hcl as <- <-.
    assert (Hc : count_ptr b (vs ++ [u]) = S (count_ptr b vs)).
    { rewrite count_ptr_app, count_ptr_one, decide_True by done. lia. }
    replace (Z.of_nat (count_ptr b vs) + 1) with (Z.of_nat (count_ptr b (vs ++ [u]))) by lia.
    apply (inv_local h vs _ _ b _ Hinv Hblk).
    + intros y Hy. cbn [lay_size] in Hy. rewrite ?lookup_insert_ne by lia.
      first [done | apply lookup_mem_write_out; rewrite length_le_bytes; lia].
    + intros p Hp'. cbn [lay_size] in Hp'. apply count_ptr_snoc_other. rewrite Hp. intros [= <-]. lia.
    + apply Forall_app. split; [apply Hinv|by constructor].
    + apply (big_block_update h vs u b L pl); [done|]. rewrite Hc. unfold U16_MAX. lia.
Qed.

Lemma inv_drop h vs i u h' :
  inv (mkWorld h vs) -> vs !! i = Some u -> drop u h = Ok tt h' ->
  inv (mkWorld h' (delete i vs)).
Proof.
  intros Hinv Hi Hdr. pose proof (lookup_In _ _ _ Hi) as Hu.
  pose proof Hinv as (Hvals & _ & _). cbn [w_vals w_heap] in Hvals.
  destruct (val_info h vs u Hinv Hu) as [(L & Hinf) | [(b & L & pl & Hinf) | (b & L & pl & Hinf)]].
  - rewrite (drop_inline_eq u L h Hinf) in Hdr. injection Hdr as <-.
    apply (inv_delete_none h vs i u Hinv Hi). by apply (inline_info_ptr u L).
  - pose proof (small_info_ptr _ _ _ _ _ _ Hinf) as Hp.
    rewrite (drop_small_eq h vs u b L pl Hinf) in Hdr. cbv zeta in Hdr.
    pose proof Hinf as (Hr & _ & _ & Hblk & _ & _ & _ & Hok & _ & Hn). unfold small_range, U8_MAX in *.
    assert (Hc : forall p, count_ptr p vs =
              ((if decide (p = (b + L)%Z) then 1 else 0) + count_ptr p (delete i vs))%nat).
    { intros p. rewrite (count_ptr_delete p vs i u Hi), Hp.
      destruct (decide (Some (b + L) = Some p)), (decide (p = b + L)); congruence. }
    destruct (_ =? 1) eqn:E1; injection Hdr as <-.
    + apply Z.eqb_eq in E1. apply (inv_free h vs _ _ b _ Hinv Hblk).
      * intros y Hy. cbn [lay_size] in Hy. rewrite lookup_range_delete_out by lia. apply lookup_insert_ne. lia.
      * intros p Hp'. cbn [lay_size] in Hp'. rewrite (Hc p), decide_False by lia. done.
      * intros p Hp'. cbn [lay_size] in Hp'. destruct (decide (p = b + L)) as [->|Hne].
        -- specialize (Hc (b + L)). rewrite decide_True in Hc by done. lia.
        -- pose proof (count_small_block_other h vs b L p Hinv Hblk Hr ltac:(lia) Hne).
           specialize (Hc p). lia.
      * intros w Hw. apply list_elem_of_In, list_elem_of_delete_inv, list_elem_of_In in Hw. done.
    + apply Z.eqb_neq in E1.
      assert (Hc' : Z.of_nat (count_ptr (b + L) vs) - 1 = Z.of_nat (count_ptr (b + L) (delete i vs))).
      { specialize (Hc (b + L)). rewrite decide_True in Hc by done. lia. }
      rewrite Hc'. apply (inv_local h vs _ _ b _ Hinv Hblk).
      * intros y Hy. cbn [lay_size] in Hy. apply lookup_insert_ne. lia.
      * intros p Hp'. cbn [lay_size] in Hp'. rewrite (Hc p), decide_False by lia. done.
      * by apply Forall_delete.
      * apply (small_block_update h vs u b L pl); [done|]. unfold U8_MAX. lia.
  - pose proof (big_info_ptr _ _ _ _ _ _ Hinf) as Hp.
    rewrite (drop_big_eq h vs u b L pl Hinf) in Hdr. cbv zeta in Hdr.
    pose proof Hinf as (Hr & _ & _ & Hblk & _ & _ & _ & Hok & _ & Hn). unfold big_range, U16_MAX in *.
    assert (Hc : forall p, count_ptr p vs =
              ((if decide (p = b) then 1 else 0) + count_ptr p (delete i vs))%nat).
    { intros p. rewrite (count_ptr_delete p vs i u Hi), Hp.
      destruct (decide (Some b = Some p)), (decide (p = b)); congruence. }
    destruct (_ =? 1) eqn:E1; injection Hdr as <-.
    + apply Z.eqb_eq in E1. apply (inv_free h vs _ _ b _ Hinv Hblk).
      * intros y Hy. cbn [lay_size] in Hy. rewrite lookup_range_delete_out by lia.
        rewrite ?lookup_insert_ne by lia.
        first [done | apply lookup_mem_write_out; rewrite length_le_bytes; lia].
      * intros p Hp'. cbn [lay_size] in Hp'. rewrite (Hc p), decide_False by lia. done.
      * intros p Hp'. cbn [lay_size] in Hp'. destruct (decide (p = b)) as [->|Hne].
        -- specialize (Hc b). rewrite decide_True in Hc by done. lia.
        -- pose proof (count_big_block_other h vs b L p Hinv Hblk Hr ltac:(lia) Hne).
           specialize (Hc p). lia.
      * intros w Hw. apply list_elem_of_In, list_elem_of_delete_inv, list_elem_of_In in Hw. done.
    + apply Z.eqb_neq in E1.
      assert (Hc' : Z.of_nat (count_ptr b vs) - 1 = Z.of_nat (count_ptr b (delete i vs))).
      { specialize (Hc b). rewrite decide_True in Hc by done. lia. }
      rewrite Hc'. apply (inv_local h vs _ _ b _ Hinv Hblk).
      * intros y Hy. cbn [lay_size] in Hy. rewrite ?lookup_insert_ne by lia.
      first [done | apply lookup_mem_write_out; rewrite length_le_bytes; lia].
      * intros p Hp'. cbn [lay_size] in Hp'. rewrite (Hc p), decide_False by lia. done.
      * by apply Forall_delete.
      * apply (big_block_update h vs u b L pl); [done|]. unfold U16_MAX. lia.
Qed.

(** ** Views and the memory they read *)

Lemma view_frame_small h vs w b L pl h' :
  small_info h vs w b L pl ->
  (forall y, b <= y < b + L + 2 -> y <> b + L -> h_mem h' !! y = h_mem h !! y) ->
  deref w h' = Ok (SHeap b L) h' /\ view w h' = Ok pl h'.
Proof.
  intros (Hr & Htop & Hd & _ & Hb0 & _ & Hsz & _ & (_ & Hlen & Hpl) & _) Hm.
  unfold small_range in Hr.
  destruct (view_small_eq w b L h') as [H1 H2]; try (done || lia).
  - rewrite Hm by lia. done.
  - split; [done|]. rewrite H2.
    rewrite (mem_read_ext _ (h_mem h)), Hpl; [done|]. intros y Hy. apply Hm; lia.
Qed.

Lemma view_frame_big h vs w b L pl h' :
  big_info h vs w b L pl ->
  (forall y, b + 2 <= y < b + L + 8 -> h_mem h' !! y = h_mem h !! y) ->
  deref w h' = Ok (SHeap (b + 8) L) h' /\ view w h' = Ok pl h'.
Proof.
  intros (Hr & Htop & Hd & _ & Hb0 & _ & Hsz & _ & (_ & Hlen & Hpl) & _) Hm.
  unfold big_range in Hr.
  destruct (view_big_eq w b L h') as [H1 H2]; try (done || lia).
  - rewrite (mem_read_ext _ (h_mem h)), Hlen; [done|]. intros y Hy. apply Hm; lia.
  - split; [done|]. rewrite H2.
    rewrite (mem_read_ext _ (h_mem h)), Hpl; [done|]. intros y Hy. apply Hm; lia.
Qed.

Lemma view_preserved h vs w s h' :
  inv (mkWorld h vs) -> In w vs -> view w h = Ok s h ->
  (forall b L pl, small_info h vs w b L pl ->
     forall y, b <= y < b + L + 2 -> y <> b + L -> h_mem h' !! y = h_mem h !! y) ->
  (forall b L pl, big_info h vs w b L pl ->
     forall y, b + 2 <= y < b + L + 8 -> h_mem h' !! y = h_mem h !! y) ->
  view w h' = Ok s h'.
Proof.
  intros Hinv Hw Hv Hs Hb.
  destruct (val_info h vs w Hinv Hw) as [(L & Hi) | [(b & L & pl & Hi) | (b & L & pl & Hi)]].
  - rewrite (proj1 (view_inline_eq w L h Hi)) in Hv. injection Hv as <-.
    apply (view_inline_eq w L h' Hi).
  - rewrite (proj2 (view_small_info _ _ _ _ _ _ Hi)) in Hv. injection Hv as <-.
    apply (view_frame_small h vs w b L pl h' Hi). by apply (Hs b L pl).
  - rewrite (proj2 (view_big_info _ _ _ _ _ _ Hi)) in Hv. injection Hv as <-.
    apply (view_frame_big h vs w b L pl h' Hi). by apply (Hb b L pl).
Qed.

(** The block of a live value, as a range of addresses. *)
Lemma info_block_small h vs w b L pl :
  small_info h vs w b L pl -> h_blocks h !! b = Some (mkLayout (L + 2) 8).
Proof. intros Hi. apply Hi. Qed.

Lemma info_block_big h vs w b L pl :
  big_info h vs w b L pl -> h_blocks h !! b = Some (mkLayout (L + 8) 8).
Proof. intros Hi. apply Hi. Qed.

Lemma blocks_apart h vs b1 l1 b2 l2 y1 y2 :
  inv (mkWorld h vs) -> h_blocks h !! b1 = Some l1 -> h_blocks h !! b2 = Some l2 ->
  b1 <= y1 < b1 + lay_size l1 -> b2 <= y2 < b2 + lay_size l2 -> b1 <> b2 -> y1 <> y2.
Proof.
  intros (_ & _ & Hd) H1 H2 Hy1 Hy2 Hne. specialize (Hd b1 b2 l1 l2 H1 H2 Hne). cbn in Hd. lia.
Qed.

Lemma small_info_frame h vs u b L pl h' vs' :
  small_info h vs u b L pl -> h_blocks h' !! b = h_blocks h !! b ->
  (forall y, b <= y < b + L + 2 -> h_mem h' !! y = h_mem h !! y) ->
  count_ptr (b + L) vs' = count_ptr (b + L) vs ->
  small_info h' vs' u b L pl.
Proof.
  intros (Hr & Htop & Hd & Hblk & Hb0 & Hb8 & Hsz & Hok & (Hrc & Hlen & Hpl) & Hn) Hbl Hm Hc.
  unfold small_range in Hr. unfold small_info. rewrite Hc. do 3 (split; [done|]). split; [by rewrite Hbl|].
  do 4 (split; [done|]). split; [|done]. split; [|split].
  - rewrite Hm by lia. done.
  - rewrite Hm by lia. done.
  - rewrite (mem_read_ext _ (h_mem h)); [done|]. intros y Hy. apply Hm. lia.
Qed.

Lemma big_info_frame h vs u b L pl h' vs' :
  big_info h vs u b L pl -> h_blocks h' !! b = h_blocks h !! b ->
  (forall y, b <= y < b + L + 8 -> h_mem h' !! y = h_mem h !! y) ->
  count_ptr b vs' = count_ptr b vs ->
  big_info h' vs' u b L pl.
Proof.
  intros (Hr & Htop & Hd & Hblk & Hb0 & Hb8 & Hsz & Hok & (Hrc & Hlen & Hpl) & Hn) Hbl Hm Hc.
  unfold big_range in Hr. unfold big_info. rewrite Hc. do 3 (split; [done|]). split; [by rewrite Hbl|].
  do 4 (split; [done|]). split; [|done]. split; [|split].
  - rewrite (mem_read_ext _ (h_mem h)); [done|]. intros y Hy. apply Hm. lia.
  - rewrite (mem_read_ext _ (h_mem h)); [done|]. intros y Hy. apply Hm. lia.
  - rewrite (mem_read_ext _ (h_mem h)); [done|]. intros y Hy. apply Hm. lia.
Qed.

(** ** Copy-on-write *)

Lemma make_mut_inline_eq a n u L h :
  inline_info u L -> make_mut a n u h = Ok (u, SInline L) h.
Proof.
  intros (Hl & HL & Ht & _). unfold make_mut, bind. rewrite (kind_inline u L h Ht HL).
  cbv beta iota. rewrite (proj2 (inline_facts u L Ht HL)).
  replace (L <=? SZ) with true by (symmetry; apply Z.leb_le; unfold SZ; lia). done.
Qed.

(** After its refcount branch, [make_mut] re-derives the slice exactly as
    [deref] does. *)
Lemma tail_small_deref v h :
  kind v h = Ok SmallRemote h ->
  (let! t' := deref_small_trailer v in let! l := small_len t' in
   let! p := remote_ptr v in ret (v, SHeap (p - l) l)) h
  = match deref v h with Ok sl h' => Ok (v, sl) h' | Panicked p => Panicked p | UB => UB end.
Proof.
  intros Hk. unfold deref, bind. rewrite Hk. cbv beta iota.
  destruct (deref_small_trailer v h) as [t h1| |]; try done.
  destruct (small_len t h1) as [l h2| |]; try done.
  destruct (remote_ptr v h2); done.
Qed.

Lemma tail_big_deref v h :
  kind v h = Ok BigRemote h ->
  (let! p := remote_ptr v in
   let! hp' := deref_big_header v in let! l := big_len hp' in ret (v, SHeap (p + BIG_HEADER_SIZE) l)) h
  = match deref v h with Ok sl h' => Ok (v, sl) h' | Panicked p => Panicked p | UB => UB end.
Proof.
  intros Hk. unfold deref, bind. rewrite Hk. cbv beta iota.
  destruct (remote_ptr v h) as [p h1| |]; try done.
  destruct (deref_big_header v h1) as [hp h2| |]; try done.
  destruct (big_len hp h2); done.
Qed.

Lemma bind_Ok {A B} (m : M A) (f : A -> M B) h x h' :
  m h = Ok x h' -> bind m f h = f x h'.
Proof. intros Hm. unfold bind. rewrite Hm. done. Qed.

Lemma bind_Panicked {A B} (m : M A) (f : A -> M B) h p :
  m h = Panicked p -> bind m f h = Panicked p.
Proof. intros Hm. unfold bind. rewrite Hm. done. Qed.

Lemma bind_assoc {A B C} (m : M A) (f : A -> M B) (g : B -> M C) h :
  bind (bind m f) g h = bind m (fun x => bind (f x) g) h.
Proof. unfold bind. destruct (m h); done. Qed.

Lemma small_info_other h vs u b L pl w bw Lw plw y :
  inv (mkWorld h vs) -> small_info h vs u b L pl -> big_info h vs w bw Lw plw ->
  bw <= y < bw + Lw + 8 -> b <= y < b + L + 2 -> False.
Proof.
  intros Hinv Hu Hw Hy1 Hy2.
  pose proof (info_block_small _ _ _ _ _ _ Hu) as Hb. pose proof (info_block_big _ _ _ _ _ _ Hw) as Hbw.
  destruct Hu as (Hr & _). destruct Hw as (Hrw & _). unfold small_range, big_range in *.
  destruct (decide (bw = b)) as [->|Hne].
  - rewrite Hb in Hbw. injection Hbw as HL. lia.
  - apply (blocks_apart h vs b _ bw _ y y Hinv Hb Hbw); cbn; (done || lia).
Qed.

Lemma bind_same_run {A B} (m1 m2 : M A) (f : A -> M B) h :
  m1 h = m2 h -> bind m1 f h = bind m2 f h.
Proof. intros E. unfold bind. rewrite E. done. Qed.

Lemma heap_eta h : mkHeap (h_mem h) (h_blocks h) = h.
Proof. by destruct h. Qed.

Lemma mem_write_id x l m n : mem_read m x n = Some l -> mem_write x l m = m.
Proof.
  intros Hr. apply mem_read_spec in Hr as [<- Hk]. apply map_eq. intros y.
  destruct (decide (x <= y < x + Z.of_nat (length l))) as [Hy|Hy].
  - rewrite lookup_mem_write_in by done. rewrite <- Hk by lia. f_equal. lia.
  - apply lookup_mem_write_out. lia.
Qed.

Lemma mem_write_write x l1 l2 m :
  length l1 = length l2 -> mem_write x l1 (mem_write x l2 m) = mem_write x l1 m.
Proof.
  intros Hl. apply map_eq. intros y.
  destruct (decide (x <= y < x + Z.of_nat (length l1))) as [Hy|Hy].
  - rewrite !lookup_mem_write_in by done. done.
  - rewrite !lookup_mem_write_out by lia. done.
Qed.

(** The counter cell of a live SmallRemote allocation set to the number
    of sharers in another list of values. *)
Lemma small_info_bump h vs u b L pl vs' :
  small_info h vs u b L pl -> 1 <= Z.of_nat (count_ptr (b + L) vs') <= U8_MAX ->
  small_info (mkHeap (<[b + L := Z.of_nat (count_ptr (b + L) vs')]> (h_mem h)) (h_blocks h)) vs' u b L pl.
Proof.
  intros (Hr & Htop & Hd & Hblk & Hb0 & Hb8 & Hsz & Hok & (Hrc & Hlen & Hpl) & _) Hn.
  unfold small_range in Hr. unfold small_info. cbn [h_mem h_blocks].
  do 8 (split; [done|]). split; [|done]. split; [|split].
  - apply lookup_insert_eq.
  - rewrite lookup_insert_ne by lia. done.
  - rewrite <- Hpl. apply mem_read_ext. intros y Hy. apply lookup_insert_ne. lia.
Qed.

Lemma big_info_bump h vs u b L pl vs' :
  big_info h vs u b L pl -> 1 <= Z.of_nat (count_ptr b vs') <= U16_MAX ->
  big_info (mkHeap (mem_write b (le_bytes (Z.of_nat (count_ptr b vs')) 2) (h_mem h)) (h_blocks h)) vs' u b L pl.
Proof.
  intros (Hr & Htop & Hd & Hblk & Hb0 & Hb8 & Hsz & Hok & (Hrc & Hlen & Hpl) & _) Hn.
  unfold big_range in Hr. unfold big_info. cbn [h_mem h_blocks].
  do 8 (split; [done|]). split; [|done]. split; [|split].
  - apply mem_read_write_len. apply length_le_bytes.
  - rewrite <- Hlen. apply mem_read_ext. intros y Hy. apply lookup_mem_write_out.
    rewrite length_le_bytes. lia.
  - rewrite <- Hpl. apply mem_read_ext. intros y Hy. apply lookup_mem_write_out.
    rewrite length_le_bytes. lia.
Qed.

Lemma owns_holds h vs v sl s : owns h vs v sl s -> holds h vs v sl s.
Proof.
  intros [(n & -> & Hi & ->) | [(b & L & -> & Hi & _) | (b & L & -> & Hi & _)]].
  - left. by exists n.
  - right; left. by exists b, L.
  - right; right. by exists b, L.
Qed.

(** [make_mut] that hands back the value itself with an unchanged heap. *)
Lemma make_mut_post_same h vs i u sl s :
  inv (mkWorld h vs) -> vs !! i = Some u -> deref u h = Ok sl h -> view u h = Ok s h ->
  holds h vs u sl s -> make_mut_post h vs i u u sl h.
Proof.
  intros Hinv Hi Hd Hv Hh. unfold make_mut_post. rewrite (list_insert_id vs i u Hi).
  split; [done|]. split; [done|]. split; [by exists s|]. split.
  - intros j w t _ _ Hw. done.
  - intros k Hk. done.
Qed.

(** Below saturation, the clone of the privatisation branch and the drop
    of the old value cancel out: [make_mut] leaves the heap as it was and
    returns the value itself with the shared payload.  At saturation the
    clone is a fresh allocation that the new value holds alone. *)
Lemma make_mut_small h vs i u b L pl a n r :
  inv (mkWorld h vs) -> vs !! i = Some u -> small_info h vs u b L pl ->
  make_mut a n u h = r ->
  if Z.of_nat (count_ptr (b + L) vs) =? U8_MAX
  then make_mut_outcome h vs i u r
       /\ (forall v' sl h1, r = Ok (v', sl) h1 -> exists s, owns h1 (<[i := v']> vs) v' sl s)
  else r = Ok (u, SHeap b L) h.
Proof.
  intros Hinv Hi Hinf Hmk.
  pose proof (small_info_ptr _ _ _ _ _ _ Hinf) as Hp.
  pose proof (view_small_info _ _ _ _ _ _ Hinf) as [Hder Hview].
  pose proof (clone_small_eq a n h vs u b L pl Hinf) as Hcl.
  pose proof Hinf as (Hr & Htop & Hd & Hblk & Hb0 & Hb8 & Hsz & Hok & (Hrc & Hlen & Hpl) & Hn).
  unfold small_range in Hr. unfold U8_MAX in *.
  pose proof (kind_small_stored u (b + L) h Hd Htop) as Hk.
  unfold make_mut in Hmk. rewrite (bind_Ok _ _ _ _ _ Hk) in Hmk. cbv beta iota in Hmk.
  rewrite (bind_Ok _ _ _ _ _ (deref_small_trailer_stored u (b + L) h Hd ltac:(lia) Htop)) in Hmk.
  assert (Hrc' : small_rc (b + L) h = Ok (Z.of_nat (count_ptr (b + L) vs)) h)
    by (unfold small_rc, load; rewrite Hrc; done).
  rewrite (bind_Ok _ _ _ _ _ Hrc') in Hmk.
  set (c := Z.of_nat (count_ptr (b + L) vs)) in *.
  destruct (c =? 1) eqn:E1; cbn [negb] in Hmk.
  - apply Z.eqb_eq in E1. replace (c =? 255) with false by (symmetry; apply Z.eqb_neq; lia).
    rewrite (bind_Ok _ _ _ _ _ (eq_refl : ret u h = Ok u h)) in Hmk.
    rewrite (tail_small_deref u h Hk), Hder in Hmk. by subst r.
  - apply Z.eqb_neq in E1. rewrite bind_assoc in Hmk.
    destruct (c =? 255) eqn:Emax.
    2: {
    apply Z.eqb_neq in Emax. rewrite mkIA_eta in Hcl.
    rewrite (bind_Ok _ _ _ _ _ Hcl) in Hmk. cbv beta in Hmk.
    assert (Hc : count_ptr (b + L) (vs ++ [u]) = S (count_ptr (b + L) vs))
      by (rewrite count_ptr_app, count_ptr_one, decide_True by done; lia).
    assert (Hinf1 : small_info (mkHeap (<[b + L := c + 1]> (h_mem h)) (h_blocks h)) (vs ++ [u]) u b L pl).
    { replace (c + 1) with (Z.of_nat (count_ptr (b + L) (vs ++ [u]))) by (unfold c; lia).
      apply (small_info_bump h vs u b L pl); [done|]. unfold U8_MAX. lia. }
    pose proof (drop_small_eq _ _ _ _ _ _ Hinf1) as Hdrop. cbv zeta in Hdrop.
    replace (Z.of_nat (count_ptr (b + L) (vs ++ [u]))) with (c + 1) in Hdrop by (unfold c; lia).
    replace (c + 1 =? 1) with false in Hdrop by (symmetry; apply Z.eqb_neq; lia).
    cbn [h_mem h_blocks] in Hdrop. replace (c + 1 - 1) with c in Hdrop by lia.
    rewrite insert_insert_eq, (insert_id _ _ _ Hrc), heap_eta in Hdrop.
    rewrite bind_assoc, (bind_Ok _ _ _ _ _ Hdrop) in Hmk. cbv beta in Hmk.
    rewrite (bind_Ok _ _ _ _ _ (eq_refl : ret u h = Ok u h)) in Hmk.
    rewrite (tail_small_deref u h Hk), Hder in Hmk. by subst r. }
    apply Z.eqb_eq in Emax.
    assert (HlenL : Z.of_nat (length pl) = L).
    { apply mem_read_spec in Hpl as [Hl _]. lia. }
    pose proof (new_small_eq a pl h ltac:(unfold small_range; lia)) as Hnew. cbv zeta in Hnew.
    rewrite HlenL in Hnew. rewrite (bind_same_run _ _ _ _ Hcl) in Hmk.
    destruct (alloc_fresh h (mkLayout (L + 2) 8) a) eqn:Ha;
      [|rewrite (bind_Panicked _ _ _ _ Hnew) in Hmk; subst r; split; [cbn; tauto|discriminate]].
    destruct (Z.land (nth 7 (ptr_bytes (a + L)) 0) 7 =? 0) eqn:Htop';
      [|rewrite (bind_Panicked _ _ _ _ Hnew) in Hmk; subst r; split; [cbn; tauto|discriminate]].
    apply Z.eqb_eq in Htop'. fold (top_ok (a + L)) in Htop'.
    rewrite (bind_Ok _ _ _ _ _ Hnew) in Hmk. cbv beta in Hmk.
    apply alloc_fresh_spec in Ha as (Ha0 & Ha8 & Ha2 & Hdisj). cbn [lay_size lay_align] in *.
    set (nv := mkIA (stored_word (a + L) 1)) in *.
    set (m1 := mem_write a pl (mem_write (a + L) [1; L] (h_mem h))) in *.
    set (h1' := mkHeap m1 (<[a := mkLayout (L + 2) 8]> (h_blocks h))) in *.
    assert (Hna : h_blocks h !! a = None) by (apply (fresh_not_block h vs a (L + 2)); (done || lia)).
    assert (Hab : a <> b) by congruence.
    pose proof (Hdisj b _ Hblk) as Hdab. cbn [lay_size] in Hdab.
    assert (Hpnv : heap_ptr nv = Some (a + L)) by (apply (heap_ptr_stored nv _ 1); (done || lia)).
    assert (Hm1 : forall y, y < a \/ a + (L + 2) <= y -> m1 !! y = h_mem h !! y).
    { intros y Hy. unfold m1. rewrite lookup_mem_write_out by lia.
      apply lookup_mem_write_out. cbn. lia. }
    assert (Hinv1 : inv (mkWorld h1' (vs ++ [nv]))).
    { apply (inv_new h vs a pl nv h1' Hinv Hok). rewrite Hnew. done. }
    assert (Hc1 : count_ptr (b + L) (vs ++ [nv]) = count_ptr (b + L) vs).
    { apply count_ptr_snoc_other. rewrite Hpnv. intros [= E]. lia. }
    assert (Hinf1 : small_info h1' (vs ++ [nv]) u b L pl).
    { apply (small_info_frame h vs u b L pl); [done| | |done].
      - cbn. apply lookup_insert_ne. done.
      - intros y Hy. cbn [h_mem h1']. apply Hm1. lia. }
    pose proof (drop_small_eq _ _ _ _ _ _ Hinf1) as Hdrop. cbv zeta in Hdrop.
    rewrite Hc1 in Hdrop. fold c in Hdrop.
    replace (c =? 1) with false in Hdrop by (symmetry; apply Z.eqb_neq; done).
    cbn [h_mem h_blocks h1'] in Hdrop.
    set (h2 := mkHeap (<[b + L := c - 1]> m1) (<[a := mkLayout (L + 2) 8]> (h_blocks h))) in *.
    rewrite bind_assoc, (bind_Ok _ _ _ _ _ Hdrop) in Hmk. cbv beta in Hmk.
    rewrite (bind_Ok _ _ _ _ _ (eq_refl : ret nv h2 = Ok nv h2)) in Hmk.
    pose proof (kind_small_stored nv (a + L) h2 eq_refl Htop') as Hknv.
    rewrite (tail_small_deref nv h2 Hknv) in Hmk.
    pose proof (small_cells_new a pl (h_mem h)) as Hcn. cbv zeta in Hcn. rewrite HlenL in Hcn.
    fold m1 in Hcn. destruct Hcn as (Hcn1 & Hcn2 & Hcn3).
    assert (Hm2a : forall y, a <= y < a + L + 2 -> h_mem h2 !! y = m1 !! y).
    { intros y Hy. cbn [h_mem h2]. apply lookup_insert_ne. lia. }
    destruct (view_small_eq nv a L h2 eq_refl ltac:(lia) Htop') as [Hdnv Hvnv].
    { rewrite Hm2a by lia. done. }
    rewrite (mem_read_ext _ m1) in Hvnv by (intros y Hy; apply Hm2a; lia).
    rewrite Hcn3 in Hvnv.
    rewrite Hdnv in Hmk. subst r.
    assert (Hinv2 : inv (mkWorld h2 (<[i := nv]> vs))).
    { apply (inv_perm _ (delete i (vs ++ [nv]))); [by apply (delete_snoc_perm vs i u nv)|].
      apply (inv_drop h1' (vs ++ [nv]) i u h2 Hinv1); [by apply lookup_app_l_Some|done]. }
    assert (Hcnv : count_ptr (a + L) (<[i := nv]> vs) = 1%nat).
    { rewrite (count_ptr_perm _ _ _ (insert_perm vs i u nv Hi)). cbn [count_ptr].
      rewrite decide_True by done.
      pose proof (count_ptr_delete (a + L) vs i u Hi) as Hdl.
      rewrite (count_fresh h vs a (L + 2) (a + L) Hinv Hdisj ltac:(lia)) in Hdl. lia. }
    assert (Hown : owns h2 (<[i := nv]> vs) nv (SHeap a L) pl).
    { right; left. exists a, L. split; [done|]. split; [|done].
      unfold small_info. rewrite Hcnv. split; [unfold small_range; lia|]. split; [done|]. split; [done|].
      split; [cbn; apply lookup_insert_eq|]. do 4 (split; [done || lia|]).
      split; [|unfold U8_MAX; lia]. split; [|split].
      - rewrite Hm2a by lia. done.
      - rewrite Hm2a by lia. done.
      - rewrite (mem_read_ext _ m1) by (intros y Hy; apply Hm2a; lia). done. }
    split; [|intros v' sl h1 [= <- <- <-]; by exists pl].
    cbn [make_mut_outcome]. unfold make_mut_post. split; [done|]. split; [done|]. split; [|split].
    + exists pl. do 2 (split; [done|]). by apply owns_holds.
    + intros j w s Hji Hj Hv. pose proof (lookup_In _ _ _ Hj) as Hw.
      apply (view_preserved h vs w s h2 Hinv Hw Hv).
      * intros bw Lw plw Hwi y Hy Hy'. cbn [h2 h_mem].
        pose proof (info_block_small _ _ _ _ _ _ Hwi) as Hbw.
        pose proof (Hdisj bw _ Hbw) as Hdw. cbn [lay_size] in Hdw.
        rewrite lookup_insert_ne.
        -- apply Hm1. lia.
        -- destruct (decide (bw = b)) as [->|Hne].
           ++ rewrite Hblk in Hbw. injection Hbw as HL. lia.
           ++ apply not_eq_sym, (blocks_apart h vs bw _ b _ y (b + L) Hinv Hbw Hblk); cbn; (done || lia).
      * intros bw Lw plw Hwi y Hy. cbn [h2 h_mem].
        pose proof (info_block_big _ _ _ _ _ _ Hwi) as Hbw.
        pose proof (Hdisj bw _ Hbw) as Hdw. cbn [lay_size] in Hdw.
        rewrite lookup_insert_ne.
        -- apply Hm1. lia.
        -- intros E. apply (small_info_other h vs u b L pl w bw Lw plw (b + L) Hinv Hinf Hwi); lia.
    + intros k Hku. rewrite Hk in Hku. injection Hku as <-. done.
Qed.

Lemma make_mut_big h vs i u b L pl a n r :
  inv (mkWorld h vs) -> vs !! i = Some u -> big_info h vs u b L pl ->
  make_mut a n u h = r ->
  if Z.of_nat (count_ptr b vs) =? U16_MAX
  then make_mut_outcome h vs i u r
       /\ (forall v' sl h1, r = Ok (v', sl) h1 -> exists s, owns h1 (<[i := v']> vs) v' sl s)
  else r = Ok (u, SHeap (b + 8) L) h.
Proof.
  intros Hinv Hi Hinf Hmk.
  pose proof (big_info_ptr _ _ _ _ _ _ Hinf) as Hp.
  pose proof (view_big_info _ _ _ _ _ _ Hinf) as [Hder Hview].
  pose proof (clone_big_eq a n h vs u b L pl Hinf) as Hcl.
  pose proof Hinf as (Hr & Htop & Hd & Hblk & Hb0 & Hb8 & Hsz & Hok & Hcells & Hn).
  unfold big_range in Hr. unfold U16_MAX in *.
  pose proof (kind_big_stored u b h Hd Htop) as Hk.
  unfold make_mut in Hmk. rewrite (bind_Ok _ _ _ _ _ Hk) in Hmk. cbv beta iota in Hmk.
  rewrite (bind_Ok _ _ _ _ _ (deref_big_header_stored u b h Hd ltac:(lia) Htop)) in Hmk.
  assert (Hrc' : big_rc_load b h = Ok (Z.of_nat (count_ptr b vs)) h).
  { destruct h as [m bl]. apply (big_rc_cells m bl b L _ pl Hcells). lia. }
  rewrite (bind_Ok _ _ _ _ _ Hrc') in Hmk.
  set (c := Z.of_nat (count_ptr b vs)) in *.
  destruct (c =? 1) eqn:E1; cbn [negb] in Hmk.
  - apply Z.eqb_eq in E1. replace (c =? 65535) with false by (symmetry; apply Z.eqb_neq; lia).
    rewrite (bind_Ok _ _ _ _ _ (eq_refl : ret u h = Ok u h)) in Hmk. cbv beta zeta in Hmk.
    rewrite (tail_big_deref u h Hk), Hder in Hmk. by subst r.
  - apply Z.eqb_neq in E1. rewrite bind_assoc in Hmk.
    destruct (c =? 65535) eqn:Emax.
    2: {
    apply Z.eqb_neq in Emax. rewrite mkIA_eta in Hcl.
    rewrite (bind_Ok _ _ _ _ _ Hcl) in Hmk. cbv beta in Hmk.
    assert (Hc : count_ptr b (vs ++ [u]) = S (count_ptr b vs))
      by (rewrite count_ptr_app, count_ptr_one, decide_True by done; lia).
    assert (Hinf1 : big_info (mkHeap (mem_write b (le_bytes (c + 1) 2) (h_mem h)) (h_blocks h))
                             (vs ++ [u]) u b L pl).
    { replace (c + 1) with (Z.of_nat (count_ptr b (vs ++ [u]))) by (unfold c; lia).
      apply (big_info_bump h vs u b L pl); [done|]. unfold U16_MAX. lia. }
    pose proof (drop_big_eq _ _ _ _ _ _ Hinf1) as Hdrop. cbv zeta in Hdrop.
    replace (Z.of_nat (count_ptr b (vs ++ [u]))) with (c + 1) in Hdrop by (unfold c; lia).
    replace (c + 1 =? 1) with false in Hdrop by (symmetry; apply Z.eqb_neq; lia).
    cbn [h_mem h_blocks] in Hdrop. replace (c + 1 - 1) with c in Hdrop by lia.
    rewrite mem_write_write in Hdrop by (rewrite !length_le_bytes; done).
    destruct Hcells as (Hrcm & _).
    rewrite (mem_write_id _ _ _ _ Hrcm), heap_eta in Hdrop.
    rewrite bind_assoc, (bind_Ok _ _ _ _ _ Hdrop) in Hmk. cbv beta in Hmk.
    rewrite (bind_Ok _ _ _ _ _ (eq_refl : ret u h = Ok u h)) in Hmk. cbv beta zeta in Hmk.
    rewrite (tail_big_deref u h Hk), Hder in Hmk. by subst r. }
    apply Z.eqb_eq in Emax.
    assert (HlenL : Z.of_nat (length pl) = L).
    { destruct Hcells as (_ & _ & Hpl). apply mem_read_spec in Hpl as [Hl _]. lia. }
    pose proof (new_big_eq a pl h ltac:(unfold big_range; lia)) as Hnew. cbv zeta in Hnew.
    rewrite HlenL in Hnew. rewrite (bind_same_run _ _ _ _ Hcl) in Hmk.
    destruct (alloc_fresh h (mkLayout (L + 8) 8) a) eqn:Ha;
      [|rewrite (bind_Panicked _ _ _ _ Hnew) in Hmk; subst r; split; [cbn; tauto|discriminate]].
    destruct (Z.land (nth 7 (ptr_bytes a) 0) 7 =? 0) eqn:Htop';
      [|rewrite (bind_Panicked _ _ _ _ Hnew) in Hmk; subst r; split; [cbn; tauto|discriminate]].
    apply Z.eqb_eq in Htop'. fold (top_ok a) in Htop'.
    rewrite (bind_Ok _ _ _ _ _ Hnew) in Hmk. cbv beta in Hmk.
    apply alloc_fresh_spec in Ha as (Ha0 & Ha8 & Ha2 & Hdisj). cbn [lay_size lay_align] in *.
    set (nv := mkIA (stored_word a 2)) in *.
    set (m1 := mem_write (a + 8) pl (mem_write a (le_bytes 1 2 ++ le_bytes L 6) (h_mem h))) in *.
    set (h1' := mkHeap m1 (<[a := mkLayout (L + 8) 8]> (h_blocks h))) in *.
    assert (Hna : h_blocks h !! a = None) by (apply (fresh_not_block h vs a (L + 8)); (done || lia)).
    assert (Hab : a <> b) by congruence.
    pose proof (Hdisj b _ Hblk) as Hdab. cbn [lay_size] in Hdab.
    assert (Hpnv : heap_ptr nv = Some a) by (apply (heap_ptr_stored nv _ 2); (done || lia)).
    assert (Hm1 : forall y, y < a \/ a + (L + 8) <= y -> m1 !! y = h_mem h !! y).
    { intros y Hy. unfold m1. rewrite lookup_mem_write_out by lia.
      apply lookup_mem_write_out. rewrite length_app, !length_le_bytes. lia. }
    assert (Hinv1 : inv (mkWorld h1' (vs ++ [nv]))).
    { apply (inv_new h vs a pl nv h1' Hinv Hok). rewrite Hnew. done. }
    assert (Hc1 : count_ptr b (vs ++ [nv]) = count_ptr b vs).
    { apply count_ptr_snoc_other. rewrite Hpnv. intros [= E]. lia. }
    assert (Hinf1 : big_info h1' (vs ++ [nv]) u b L pl).
    { apply (big_info_frame h vs u b L pl); [done| | |done].
      - cbn. apply lookup_insert_ne. done.
      - intros y Hy. cbn [h_mem h1']. apply Hm1. lia. }
    pose proof (drop_big_eq _ _ _ _ _ _ Hinf1) as Hdrop. cbv zeta in Hdrop.
    rewrite Hc1 in Hdrop. fold c in Hdrop.
    replace (c =? 1) with false in Hdrop by (symmetry; apply Z.eqb_neq; done).
    cbn [h_mem h_blocks h1'] in Hdrop.
    set (h2 := mkHeap (mem_write b (le_bytes (c - 1) 2) m1) (<[a := mkLayout (L + 8) 8]> (h_blocks h))) in *.
    rewrite bind_assoc, (bind_Ok _ _ _ _ _ Hdrop) in Hmk. cbv beta in Hmk.
    rewrite (bind_Ok _ _ _ _ _ (eq_refl : ret nv h2 = Ok nv h2)) in Hmk. cbv beta zeta in Hmk.
    pose proof (kind_big_stored nv a h2 eq_refl Htop') as Hknv.
    rewrite (tail_big_deref nv h2 Hknv) in Hmk.
    pose proof (big_cells_new a pl (h_mem h)) as Hcn. cbv zeta in Hcn. rewrite HlenL in Hcn.
    fold m1 in Hcn. destruct Hcn as (Hcn1 & Hcn2 & Hcn3).
    assert (Hm2a : forall y, a <= y < a + L + 8 -> h_mem h2 !! y = m1 !! y).
    { intros y Hy. cbn [h_mem h2]. apply lookup_mem_write_out. rewrite length_le_bytes. cbn. lia. }
    destruct (view_big_eq nv a L h2 eq_refl ltac:(lia) Htop' ltac:(lia)) as [Hdnv Hvnv].
    { rewrite (mem_read_ext _ m1) by (intros y Hy; apply Hm2a; cbn in Hy; lia). done. }
    rewrite (mem_read_ext _ m1) in Hvnv by (intros y Hy; apply Hm2a; lia).
    rewrite Hcn3 in Hvnv.
    rewrite Hdnv in Hmk. subst r.
    assert (Hinv2 : inv (mkWorld h2 (<[i := nv]> vs))).
    { apply (inv_perm _ (delete i (vs ++ [nv]))); [by apply (delete_snoc_perm vs i u nv)|].
      apply (inv_drop h1' (vs ++ [nv]) i u h2 Hinv1); [by apply lookup_app_l_Some|done]. }
    assert (Hcnv : count_ptr a (<[i := nv]> vs) = 1%nat).
    { rewrite (count_ptr_perm _ _ _ (insert_perm vs i u nv Hi)). cbn [count_ptr].
      rewrite decide_True by done.
      pose proof (count_ptr_delete a vs i u Hi) as Hdl.
      rewrite (count_fresh h vs a (L + 8) a Hinv Hdisj ltac:(lia)) in Hdl. lia. }
    assert (Hown : owns h2 (<[i := nv]> vs) nv (SHeap (a + 8) L) pl).
    { right; right. exists a, L. split; [done|]. split; [|done].
      unfold big_info. rewrite Hcnv. split; [unfold big_range; lia|]. split; [done|]. split; [done|].
      split; [cbn; apply lookup_insert_eq|]. do 4 (split; [done || lia|]).
      split; [|unfold U16_MAX; lia]. split; [|split].
      - rewrite (mem_read_ext _ m1) by (intros y Hy; apply Hm2a; cbn in Hy; lia). done.
      - rewrite (mem_read_ext _ m1) by (intros y Hy; apply Hm2a; cbn in Hy; lia). done.
      - rewrite (mem_read_ext _ m1) by (intros y Hy; apply Hm2a; lia). done. }
    split; [|intros v' sl h1 [= <- <- <-]; by exists pl].
    cbn [make_mut_outcome]. unfold make_mut_post. split; [done|]. split; [done|]. split; [|split].
    + exists pl. do 2 (split; [done|]). by apply owns_holds.
    + intros j w s Hji Hj Hv. pose proof (lookup_In _ _ _ Hj) as Hw.
      apply (view_preserved h vs w s h2 Hinv Hw Hv).
      * intros bw Lw plw Hwi y Hy Hy'. cbn [h2 h_mem].
        pose proof (info_block_small _ _ _ _ _ _ Hwi) as Hbw.
        pose proof (Hdisj bw _ Hbw) as Hdw. cbn [lay_size] in Hdw.
        rewrite lookup_mem_write_out.
        -- apply Hm1. lia.
        -- rewrite length_le_bytes. destruct (decide (y < b \/ b + 2 <= y)) as [|Hy2]; [done|].
           exfalso. apply (small_info_other h vs w bw Lw plw u b L pl y Hinv Hwi Hinf); lia.
      * intros bw Lw plw Hwi y Hy. cbn [h2 h_mem].
        pose proof (info_block_big _ _ _ _ _ _ Hwi) as Hbw.
        pose proof (Hdisj bw _ Hbw) as Hdw. cbn [lay_size] in Hdw.
        rewrite lookup_mem_write_out.
        -- apply Hm1. lia.
        -- rewrite length_le_bytes. destruct (decide (y < b \/ b + 2 <= y)) as [|Hy2]; [done|].
           exfalso. destruct (decide (bw = b)) as [->|Hne]; [lia|].
           apply (blocks_apart h vs bw _ b _ y y Hinv Hbw Hblk); cbn; (done || lia).
    + intros k Hku. rewrite Hk in Hku. injection Hku as <-. done.
Qed.

Lemma make_mut_outcome_live h vs i u a n :
  inv (mkWorld h vs) -> vs !! i = Some u -> make_mut_outcome h vs i u (make_mut a n u h).
Proof.
  intros Hinv Hi. pose proof (lookup_In _ _ _ Hi) as Hu.
  destruct (val_info h vs u Hinv Hu) as [(L & Hinf) | [(b & L & pl & Hinf) | (b & L & pl & Hinf)]].
  - rewrite (make_mut_inline_eq a n u L h Hinf). cbn [make_mut_outcome].
    pose proof (view_inline_eq u L h Hinf) as [Hv Hd].
    apply (make_mut_post_same h vs i u _ _ Hinv Hi Hd Hv). left. exists L. done.
  - pose proof (make_mut_small h vs i u b L pl a n _ Hinv Hi Hinf eq_refl) as Hm.
    destruct (_ =? U8_MAX); [apply Hm|]. rewrite Hm. cbn [make_mut_outcome].
    pose proof (view_small_info _ _ _ _ _ _ Hinf) as [Hd Hv].
    apply (make_mut_post_same h vs i u _ _ Hinv Hi Hd Hv). right; left. by exists b, L.
  - pose proof (make_mut_big h vs i u b L pl a n _ Hinv Hi Hinf eq_refl) as Hm.
    destruct (_ =? U16_MAX); [apply Hm|]. rewrite Hm. cbn [make_mut_outcome].
    pose proof (view_big_info _ _ _ _ _ _ Hinf) as [Hd Hv].
    apply (make_mut_post_same h vs i u _ _ Hinv Hi Hd Hv). right; right. by exists b, L.
Qed.

Lemma make_mut_spec h vs i u a n v' sl h1 :
  inv (mkWorld h vs) -> vs !! i = Some u ->
  make_mut a n u h = Ok (v', sl) h1 -> make_mut_post h vs i u v' sl h1.
Proof.
  intros Hinv Hi Hmk. pose proof (make_mut_outcome_live h vs i u a n Hinv Hi) as Ho.
  rewrite Hmk in Ho. exact Ho.
Qed.

(** Below saturation of the refcount, [make_mut] returns the value itself
    and the slice [deref] gives, and leaves the heap as it was. *)
Lemma make_mut_no_copy h vs i u a n :
  inv (mkWorld h vs) -> vs !! i = Some u ->
  (forall k, kind u h = Ok k h -> refcount u h <> Ok (rc_max k) h) ->
  exists sl, deref u h = Ok sl h /\ make_mut a n u h = Ok (u, sl) h.
Proof.
  intros Hinv Hi Hns. pose proof (lookup_In _ _ _ Hi) as Hu.
  destruct (val_info h vs u Hinv Hu) as [(L & Hinf) | [(b & L & pl & Hinf) | (b & L & pl & Hinf)]].
  - exists (SInline L). split; [apply (view_inline_eq u L h Hinf)|]. apply make_mut_inline_eq, Hinf.
  - pose proof (make_mut_small h vs i u b L pl a n _ Hinv Hi Hinf eq_refl) as Hm.
    pose proof Hinf as (_ & Htop & Hd & _).
    specialize (Hns SmallRemote (kind_small_stored u (b + L) h Hd Htop)).
    rewrite (refcount_small_info h vs u b L pl Hinf) in Hns. cbn [rc_max] in Hns.
    destruct (_ =? U8_MAX) eqn:E; [apply Z.eqb_eq in E; by rewrite E in Hns|].
    exists (SHeap b L). split; [apply (view_small_info _ _ _ _ _ _ Hinf)|done].
  - pose proof (make_mut_big h vs i u b L pl a n _ Hinv Hi Hinf eq_refl) as Hm.
    pose proof Hinf as (_ & Htop & Hd & _).
    specialize (Hns BigRemote (kind_big_stored u b h Hd Htop)).
    rewrite (refcount_big_info h vs u b L pl Hinf) in Hns. cbn [rc_max] in Hns.
    destruct (_ =? U16_MAX) eqn:E; [apply Z.eqb_eq in E; by rewrite E in Hns|].
    exists (SHeap (b + 8) L). split; [apply (view_big_info _ _ _ _ _ _ Hinf)|done].
Qed.

(** At saturation, the value [make_mut] returns holds its slice alone. *)
Lemma make_mut_saturated h vs i u k a n v' sl h1 :
  inv (mkWorld h vs) -> vs !! i = Some u -> kind u h = Ok k h -> refcount u h = Ok (rc_max k) h ->
  make_mut a n u h = Ok (v', sl) h1 -> exists s, owns h1 (<[i := v']> vs) v' sl s.
Proof.
  intros Hinv Hi Hk Hrc Hmk. pose proof (lookup_In _ _ _ Hi) as Hu.
  destruct (val_info h vs u Hinv Hu) as [(L & Hinf) | [(b & L & pl & Hinf) | (b & L & pl & Hinf)]].
  - pose proof Hinf as (_ & HL & Ht & _). unfold refcount, bind in Hrc.
    rewrite (kind_inline u L h Ht HL) in Hrc. discriminate.
  - pose proof (make_mut_small h vs i u b L pl a n _ Hinv Hi Hinf Hmk) as Hm.
    pose proof Hinf as (_ & Htop & Hd & _).
    rewrite (kind_small_stored u (b + L) h Hd Htop) in Hk. injection Hk as <-.
    rewrite (refcount_small_info h vs u b L pl Hinf) in Hrc. injection Hrc as Hrc.
    rewrite Hrc in Hm. cbn [rc_max] in Hm. rewrite Z.eqb_refl in Hm. by apply Hm.
  - pose proof (make_mut_big h vs i u b L pl a n _ Hinv Hi Hinf Hmk) as Hm.
    pose proof Hinf as (_ & Htop & Hd & _).
    rewrite (kind_big_stored u b h Hd Htop) in Hk. injection Hk as <-.
    rewrite (refcount_big_info h vs u b L pl Hinf) in Hrc. injection Hrc as Hrc.
    rewrite Hrc in Hm. cbn [rc_max] in Hm. rewrite Z.eqb_refl in Hm. by apply Hm.
Qed.

(** ** Writes through an owned slice *)

Lemma nth_insert_ne (l : list Z) i j x d : i <> j -> nth i (<[j := x]> l) d = nth i l d.
Proof.
  revert i j; induction l as [|y l IH]; intros i j Hij; [done|].
  destruct i, j; cbn; first [lia | done | apply IH; lia].
Qed.

Lemma bytes_ok_insert l j x :
  bytes_ok l = true -> is_byte x = true -> bytes_ok (<[j := x]> l) = true.
Proof.
  revert j; induction l as [|y l IH]; intros j Hl Hx; [done|].
  unfold bytes_ok in *. cbn in Hl. apply andb_prop in Hl as [Hy Hl].
  destruct j; cbn; rewrite ?Hx, ?Hy; cbn; [done|]. by apply IH.
Qed.

Lemma kind_heap_indep v h h' k : kind v h = Ok k h -> kind v h' = Ok k h'.
Proof.
  unfold kind, ret, ub.
  destruct (_ =? INLINE_TRAILER_TAG); [intros [= ->]; done|].
  destruct (_ =? SMALL_REMOTE_TRAILER_TAG); [intros [= ->]; done|].
  destruct (_ =? BIG_REMOTE_TRAILER_TAG); [intros [= ->]; done|]. discriminate.
Qed.

Lemma count_two p vs i k v w :
  vs !! i = Some v -> vs !! k = Some w -> i <> k ->
  heap_ptr v = Some p -> heap_ptr w = Some p -> (2 <= count_ptr p vs)%nat.
Proof.
  revert i k; induction vs as [|y vs IH]; intros i k Hi Hk Hik Hv Hw; [done|].
  destruct i as [|i], k as [|k]; cbn in *; [lia| | |].
  - injection Hi as <-. rewrite decide_True by done.
    pose proof (count_ptr_in p vs w (lookup_In _ _ _ Hk) Hw). lia.
  - injection Hk as <-. rewrite decide_True by done.
    pose proof (count_ptr_in p vs v (lookup_In _ _ _ Hi) Hv). lia.
  - specialize (IH i k Hi Hk ltac:(lia) Hv Hw). lia.
Qed.

Lemma small_info_block h vs v b L pl :
  small_info h vs v b L pl -> wf_block h vs b (mkLayout (L + 2) 8).
Proof.
  intros (Hr & Htop & _ & _ & Hb0 & Hb8 & Hsz & Hok & Hc & Hn). cbn [lay_size lay_align].
  do 4 (split; [done|]). left. exists L, pl. done.
Qed.

Lemma big_info_block h vs v b L pl :
  big_info h vs v b L pl -> wf_block h vs b (mkLayout (L + 8) 8).
Proof.
  intros (Hr & Htop & _ & _ & Hb0 & Hb8 & Hsz & Hok & Hc & Hn). cbn [lay_size lay_align].
  do 4 (split; [done|]). right. exists L, pl. done.
Qed.

Lemma inv_replace h vs i v v1 :
  inv (mkWorld h vs) -> vs !! i = Some v -> heap_ptr v1 = heap_ptr v -> wf_val h v1 ->
  inv (mkWorld h (<[i := v1]> vs)).
Proof.
  intros (Hv & Hb & Hd) Hi Hp Hw1. split; [|split]; cbn [w_heap w_vals] in *; [| |done].
  - by apply Forall_insert.
  - intros b l Hbl. apply (wf_block_frame h h vs); [by apply Hb|done|].
    intros p _. rewrite (count_ptr_perm _ _ _ (insert_perm vs i v v1 Hi)), (count_ptr_delete p vs i v Hi).
    cbn [count_ptr]. rewrite Hp. done.
Qed.

Lemma mem_read_insert m x n l j y :
  mem_read m x n = Some l -> 0 <= j < Z.of_nat n ->
  mem_read (<[x + j := y]> m) x n = Some (<[Z.to_nat j := y]> l).
Proof.
  intros Hr Hj. apply mem_read_spec in Hr as [Hl Hk]. apply mem_read_spec.
  split; [by rewrite length_insert|]. intros k Hkn.
  destruct (decide (k = Z.to_nat j)) as [->|Hne].
  - rewrite Z2Nat.id by lia. rewrite lookup_insert_eq, list_lookup_insert_eq by lia. done.
  - rewrite lookup_insert_ne by lia. rewrite list_lookup_insert_ne by lia. by apply Hk.
Qed.

Lemma small_info_write h vs v b L s j x :
  small_info h vs v b L s -> 0 <= j < L -> is_byte x = true ->
  small_info (mkHeap (<[b + j := x]> (h_mem h)) (h_blocks h)) vs v b L (<[Z.to_nat j := x]> s).
Proof.
  intros (Hr & Htop & Hd & Hblk & Hb0 & Hb8 & Hsz & Hok & (Hrc & Hlen & Hpl) & Hn) Hj Hx.
  unfold small_range in Hr. unfold small_info. cbn [h_mem h_blocks].
  do 7 (split; [done|]). split; [by apply bytes_ok_insert|]. split; [|done].
  split; [|split].
  - rewrite lookup_insert_ne by lia. done.
  - rewrite lookup_insert_ne by lia. done.
  - apply mem_read_insert; [done|lia].
Qed.

Lemma big_info_write h vs v b L s j x :
  big_info h vs v b L s -> 0 <= j < L -> is_byte x = true ->
  big_info (mkHeap (<[b + 8 + j := x]> (h_mem h)) (h_blocks h)) vs v b L (<[Z.to_nat j := x]> s).
Proof.
  intros (Hr & Htop & Hd & Hblk & Hb0 & Hb8 & Hsz & Hok & (Hrc & Hlen & Hpl) & Hn) Hj Hx.
  unfold big_range in Hr. unfold big_info. cbn [h_mem h_blocks].
  do 7 (split; [done|]). split; [by apply bytes_ok_insert|]. split; [|done].
  split; [|split].
  - rewrite <- Hrc. apply mem_read_ext. intros y Hy. apply lookup_insert_ne. cbn in Hy. lia.
  - rewrite <- Hlen. apply mem_read_ext. intros y Hy. apply lookup_insert_ne. cbn in Hy. lia.
  - apply mem_read_insert; [done|lia].
Qed.

Lemma slice_write_spec h vs i v sl s j x v1 h1 :
  inv (mkWorld h vs) -> vs !! i = Some v -> holds h vs v sl s -> is_byte x = true ->
  slice_write v sl j x h = Ok v1 h1 ->
  inv (mkWorld h1 (<[i := v1]> vs)) /\ holds h1 (<[i := v1]> vs) v1 sl (<[Z.to_nat j := x]> s)
  /\ (forall k w t, k <> i -> vs !! k = Some w -> heap_ptr w <> heap_ptr v ->
                     view w h = Ok t h -> view w h1 = Ok t h1)
  /\ (forall k, kind v h = Ok k h -> kind v1 h1 = Ok k h1)
  /\ heap_ptr v1 = heap_ptr v.
Proof.
  intros Hinv Hi Ho Hx Hw.
  destruct Ho as [(n & -> & Hinf & ->) | [(b & L & -> & Hinf) | (b & L & -> & Hinf)]].
  - cbn [slice_write] in Hw. destruct ((0 <=? j) && (j <? n)) eqn:Ej; [|discriminate].
    apply andb_prop in Ej as [Ej1 Ej2]. apply Z.leb_le in Ej1. apply Z.ltb_lt in Ej2.
    injection Hw as <- <-.
    pose proof Hinf as (Hl & Hn & Ht & Hok).
    set (v1 := mkIA (<[Z.to_nat j := x]> (ia_data v))).
    assert (Hinf1 : inline_info v1 n).
    { unfold inline_info, v1, inline_trailer in *. cbn [ia_data].
      rewrite length_insert, nth_insert_ne by lia. do 3 (split; [done|]).
      rewrite take_insert_lt by lia. by apply bytes_ok_insert. }
    split; [|split; [|split; [|split]]].
    + apply (inv_replace h vs i v v1 Hinv Hi).
      * rewrite (inline_info_ptr _ _ Hinf1), (inline_info_ptr _ _ Hinf). done.
      * left. destruct Hinf1 as (? & ? & ? & ?). split; [done|]. exists n. done.
    + left. exists n. split; [done|]. split; [done|].
      unfold v1. cbn [ia_data]. rewrite take_insert_lt by lia. done.
    + intros k w t _ _ _ Hv. done.
    + intros k Hk. rewrite (kind_inline v n h Ht ltac:(lia)) in Hk. injection Hk as <-.
      destruct Hinf1 as (_ & _ & Ht1 & _). apply (kind_inline v1 n h Ht1). lia.
    + rewrite (inline_info_ptr _ _ Hinf1), (inline_info_ptr _ _ Hinf). done.
  - cbn [slice_write] in Hw. destruct ((0 <=? j) && (j <? L)) eqn:Ej; [|discriminate].
    apply andb_prop in Ej as [Ej1 Ej2]. apply Z.leb_le in Ej1. apply Z.ltb_lt in Ej2.
    unfold bind, store, ret in Hw. injection Hw as <- <-.
    rewrite (list_insert_id vs i v Hi).
    pose proof (small_info_ptr _ _ _ _ _ _ Hinf) as Hp.
    pose proof Hinf as (Hr & _ & _ & Hblk & _). unfold small_range in Hr.
    pose proof (small_info_write h vs v b L s j x Hinf ltac:(lia) Hx) as Hinf1.
    split; [|split; [|split; [|split]]].
    + apply (inv_local h vs _ vs b _ Hinv Hblk).
      * intros y Hy. cbn in Hy. apply lookup_insert_ne. lia.
      * done.
      * apply Hinv.
      * apply (small_info_block _ _ _ _ _ _ Hinf1).
    + right; left. exists b, L. done.
    + intros k w t Hki Hk Hwp Hv. pose proof (lookup_In _ _ _ Hk) as Hwin.
      apply (view_preserved h vs w t _ Hinv Hwin Hv).
      * intros bw Lw plw Hwi y Hy Hy'. cbn [h_mem]. apply lookup_insert_ne.
        pose proof (info_block_small _ _ _ _ _ _ Hwi) as Hbw.
        destruct (decide (bw = b)) as [->|Hne].
        -- rewrite Hblk in Hbw. injection Hbw as HL. assert (Lw = L) as -> by lia.
           rewrite Hp, (small_info_ptr _ _ _ _ _ _ Hwi) in Hwp. done.
        -- apply (blocks_apart h vs b _ bw _ (b + j) y Hinv Hblk Hbw); cbn; (done || lia).
      * intros bw Lw plw Hwi y Hy. cbn [h_mem]. apply lookup_insert_ne. intros E.
        apply (small_info_other h vs v b L s w bw Lw plw y Hinv Hinf Hwi); lia.
    + intros k Hk. by apply (kind_heap_indep v h).
    + done.
  - cbn [slice_write] in Hw. destruct ((0 <=? j) && (j <? L)) eqn:Ej; [|discriminate].
    apply andb_prop in Ej as [Ej1 Ej2]. apply Z.leb_le in Ej1. apply Z.ltb_lt in Ej2.
    unfold bind, store, ret in Hw. injection Hw as <- <-.
    rewrite (list_insert_id vs i v Hi).
    pose proof (big_info_ptr _ _ _ _ _ _ Hinf) as Hp.
    pose proof Hinf as (Hr & _ & _ & Hblk & _). unfold big_range in Hr.
    pose proof (big_info_write h vs v b L s j x Hinf ltac:(lia) Hx) as Hinf1.
    split; [|split; [|split; [|split]]].
    + apply (inv_local h vs _ vs b _ Hinv Hblk).
      * intros y Hy. cbn in Hy. apply lookup_insert_ne. lia.
      * done.
      * apply Hinv.
      * apply (big_info_block _ _ _ _ _ _ Hinf1).
    + right; right. exists b, L. done.
    + intros k w t Hki Hk Hwp Hv. pose proof (lookup_In _ _ _ Hk) as Hwin.
      apply (view_preserved h vs w t _ Hinv Hwin Hv).
      * intros bw Lw plw Hwi y Hy Hy'. cbn [h_mem]. apply lookup_insert_ne. intros E.
        apply (small_info_other h vs w bw Lw plw v b L s y Hinv Hwi Hinf); lia.
      * intros bw Lw plw Hwi y Hy. cbn [h_mem]. apply lookup_insert_ne.
        pose proof (info_block_big _ _ _ _ _ _ Hwi) as Hbw.
        destruct (decide (bw = b)) as [->|Hne].
        -- rewrite Hp, (big_info_ptr _ _ _ _ _ _ Hwi) in Hwp. done.
        -- apply (blocks_apart h vs b _ bw _ (b + 8 + j) y Hinv Hblk Hbw); cbn; (done || lia).
    + intros k Hk. by apply (kind_heap_indep v h).
    + done.
Qed.

Lemma slice_writes_spec ws : forall h vs i v sl s v'' h',
  inv (mkWorld h vs) -> vs !! i = Some v -> holds h vs v sl s ->
  forallb (fun w => is_byte (snd w)) ws = true ->
  slice_writes v sl ws h = Ok v'' h' ->
  inv (mkWorld h' (<[i := v'']> vs)) /\ holds h' (<[i := v'']> vs) v'' sl (list_writes s ws)
  /\ (forall k w t, k <> i -> vs !! k = Some w -> heap_ptr w <> heap_ptr v ->
                     view w h = Ok t h -> view w h' = Ok t h')
  /\ (forall k, kind v h = Ok k h -> kind v'' h' = Ok k h').
Proof.
  induction ws as [|[j x] ws IH]; intros h vs i v sl s v'' h' Hinv Hi Ho Hb Hsw.
  - cbn in Hsw. unfold ret in Hsw. injection Hsw as <- <-.
    rewrite (list_insert_id vs i v Hi). cbn [list_writes]. done.
  - cbn [slice_writes] in Hsw. cbn [forallb snd] in Hb. apply andb_prop in Hb as [Hx Hb].
    unfold bind in Hsw. destruct (slice_write v sl j x h) as [v1 h1| |] eqn:E1; try discriminate.
    destruct (slice_write_spec h vs i v sl s j x v1 h1 Hinv Hi Ho Hx E1) as (Hinv1 & Ho1 & Hoth1 & Hk1 & Hp1).
    assert (Hi1 : <[i := v1]> vs !! i = Some v1)
      by (apply list_lookup_insert_eq; apply lookup_lt_Some in Hi; done).
    destruct (IH h1 _ i v1 sl _ v'' h' Hinv1 Hi1 Ho1 Hb Hsw) as (Hinv2 & Ho2 & Hoth2 & Hk2).
    rewrite list_insert_insert_eq in Hinv2, Ho2. cbn [list_writes].
    split; [done|]. split; [done|]. split.
    + intros k w t Hk Hw Hwp Hv. apply (Hoth2 k w t Hk); [rewrite list_lookup_insert_ne; done| |].
      * rewrite Hp1. done.
      * by apply (Hoth1 k).
    + intros k Hk. apply Hk2, Hk1, Hk.
Qed.

(** ** Reachable worlds satisfy the invariant *)

Lemma inv_init : inv world_init.
Proof.
  split; [|split]; cbn.
  - constructor.
  - apply map_Forall_empty.
  - intros b1 b2 l1 l2 H1. rewrite lookup_empty in H1. discriminate.
Qed.

Lemma step_inv w w' : inv w -> step w w' -> inv w'.
Proof.
  intros Hinv Hs. destruct Hs as [h vs a s v h' Hs Hn | h vs i v a n v' h' Hi Hc
                                 | h vs i v h' Hi Hd | h vs i v a n v' sl h1 ws v'' h' Hi Hm Hws Hsw].
  - by apply (inv_new h vs a s).
  - by apply (inv_clone h vs i v a n).
  - by apply (inv_drop h vs i v).
  - destruct (make_mut_spec h vs i v a n v' sl h1 Hinv Hi Hm) as (Hinv1 & _ & (s & _ & _ & Ho) & _).
    assert (Hi1 : <[i := v']> vs !! i = Some v')
      by (apply list_lookup_insert_eq; apply lookup_lt_Some in Hi; done).
    destruct (slice_writes_spec ws h1 _ i v' sl s v'' h' Hinv1 Hi1 Ho Hws Hsw) as (Hinv2 & _).
    rewrite list_insert_insert_eq in Hinv2. done.
Qed.

Lemma reachable_inv w : reachable w -> inv w.
Proof.
  induction 1 as [|w w' _ IH Hs]; [apply inv_init|]. by apply (step_inv w).
Qed.

(** ** Facts about live values *)

Lemma refcount_eq_count h vs v p :
  inv (mkWorld h vs) -> In v vs -> heap_ptr v = Some p ->
  refcount v h = Ok (Z.of_nat (count_ptr p vs)) h.
Proof.
  intros Hinv Hv Hp.
  destruct (val_info h vs v Hinv Hv) as [(L & Hi) | [(b & L & pl & Hi) | (b & L & pl & Hi)]].
  - rewrite (inline_info_ptr v L Hi) in Hp. discriminate.
  - rewrite (small_info_ptr _ _ _ _ _ _ Hi) in Hp. injection Hp as <-. by apply (refcount_small_info h vs v b L pl).
  - rewrite (big_info_ptr _ _ _ _ _ _ Hi) in Hp. injection Hp as <-. by apply (refcount_big_info h vs v b L pl).
Qed.

Lemma owns_view h vs v sl s :
  owns h vs v sl s -> deref v h = Ok sl h /\ view v h = Ok s h.
Proof.
  intros [(n & -> & Hi & ->) | [(b & L & -> & Hi & _) | (b & L & -> & Hi & _)]].
  - destruct (view_inline_eq v n h Hi). done.
  - apply (view_small_info h vs v b L s Hi).
  - apply (view_big_info h vs v b L s Hi).
Qed.

Lemma owns_refcount h vs v sl s p :
  inv (mkWorld h vs) -> In v vs -> owns h vs v sl s -> heap_ptr v = Some p -> refcount v h = Ok 1 h.
Proof.
  intros Hinv Hv Ho Hp. rewrite (refcount_eq_count h vs v p Hinv Hv Hp).
  destruct Ho as [(n & -> & Hi & ->) | [(b & L & -> & Hi & Hc) | (b & L & -> & Hi & Hc)]].
  - rewrite (inline_info_ptr v n Hi) in Hp. discriminate.
  - rewrite (small_info_ptr _ _ _ _ _ _ Hi) in Hp. injection Hp as <-. rewrite Hc. done.
  - rewrite (big_info_ptr _ _ _ _ _ _ Hi) in Hp. injection Hp as <-. rewrite Hc. done.
Qed.

Lemma view_of_deref v sl s h :
  deref v h = Ok sl h -> view v h = Ok s h -> read_slice v sl h = Ok s h.
Proof. intros Hd Hv. unfold view in Hv. rewrite (bind_Ok _ _ _ _ _ Hd) in Hv. done. Qed.

(** What [new] does to the heap: nothing for an inline value, one fresh
    allocation holding the stored pointer otherwise. *)
Lemma new_frame a s h v h' :
  new a s h = Ok v h' ->
  (h' = h /\ heap_ptr v = None)
  \/ (exists sz, 0 < sz /\ disjoint_from a sz (h_blocks h)
      /\ h_blocks h' = <[a := mkLayout sz 8]> (h_blocks h)
      /\ (forall y, y < a \/ a + sz <= y -> h_mem h' !! y = h_mem h !! y)
      /\ exists p, heap_ptr v = Some p /\ a <= p < a + sz).
Proof.
  intros Hnew.
  destruct (decide (length s <= 7)%nat) as [Hi|Hi].
  { destruct (new_inline a s h Hi) as (v0 & Hn & Hlen & Ht & Hf).
    rewrite Hn in Hnew. injection Hnew as <- <-. left. split; [done|].
    apply (heap_ptr_inline v0 (Z.of_nat (length s))); [done|lia]. }
  right.
  destruct (decide (Z.of_nat (length s) <= 255)) as [Hsm|Hsm].
  { rewrite new_small_eq in Hnew by (unfold small_range; lia). cbv zeta in Hnew.
    set (L := Z.of_nat (length s)) in *.
    destruct (alloc_fresh h _ a) eqn:Ha; [|discriminate].
    destruct (_ =? 0) eqn:Htop; [|discriminate]. injection Hnew as <- <-.
    apply Z.eqb_eq in Htop. apply alloc_fresh_spec in Ha as (Ha0 & Ha8 & Ha2 & Hd). cbn [lay_size lay_align] in *.
    exists (L + 2). split; [lia|]. split; [done|]. split; [done|]. split.
    - intros y Hy. cbn [h_mem]. rewrite lookup_mem_write_out by (unfold L in *; lia).
      rewrite ?lookup_insert_ne by lia. rewrite ?lookup_mem_write_out by (cbn; lia). done.
    - exists (a + L). split; [|lia]. apply (heap_ptr_stored _ _ 1); (done || lia). }
  destruct (decide (Z.of_nat (length s) < 2 ^ 48)) as [Hb|Hb].
  { rewrite new_big_eq in Hnew by (unfold big_range; lia). cbv zeta in Hnew.
    set (L := Z.of_nat (length s)) in *.
    destruct (alloc_fresh h _ a) eqn:Ha; [|discriminate].
    destruct (_ =? 0) eqn:Htop; [|discriminate]. injection Hnew as <- <-.
    apply Z.eqb_eq in Htop. apply alloc_fresh_spec in Ha as (Ha0 & Ha8 & Ha2 & Hd). cbn [lay_size lay_align] in *.
    exists (L + 8). split; [lia|]. split; [done|]. split; [done|]. split.
    - intros y Hy. cbn [h_mem]. rewrite lookup_mem_write_out by (unfold L in *; lia).
      rewrite ?lookup_insert_ne by lia.
      rewrite ?lookup_mem_write_out by (rewrite ?length_app, ?length_le_bytes; cbn; lia). done.
    - exists a. split; [|lia]. apply (heap_ptr_stored _ _ 2); (done || lia). }
  destruct (new_huge a s h ltac:(lia)) as [p [Hp _]]. congruence.
Qed.

Lemma view_new_frame h vs w t a s v h' :
  inv (mkWorld h vs) -> In w vs -> view w h = Ok t h -> new a s h = Ok v h' ->
  view w h' = Ok t h'.
Proof.
  intros Hinv Hw Hv Hnew.
  destruct (new_frame a s h v h' Hnew) as [[-> _] | (sz & Hsz & Hd & _ & Hm & _)]; [done|].
  apply (view_preserved h vs w t h' Hinv Hw Hv).
  - intros bw Lw plw Hwi y Hy _. pose proof (Hd bw _ (info_block_small _ _ _ _ _ _ Hwi)) as Hdw.
    cbn in Hdw. apply Hm. lia.
  - intros bw Lw plw Hwi y Hy. pose proof (Hd bw _ (info_block_big _ _ _ _ _ _ Hwi)) as Hdw.
    cbn in Hdw. apply Hm. lia.
Qed.

Lemma new_fresh h vs a s v h' p :
  inv (mkWorld h vs) -> new a s h = Ok v h' -> heap_ptr v = Some p ->
  count_ptr p vs = 0%nat /\ count_ptr p (vs ++ [v]) = 1%nat.
Proof.
  intros Hinv Hnew Hp.
  destruct (new_frame a s h v h' Hnew) as [[_ Hn] | (sz & Hsz & Hd & _ & _ & p' & Hp' & Hr)]; [congruence|].
  rewrite Hp in Hp'. injection Hp' as <-.
  split; [apply (count_fresh h vs a sz p Hinv Hd Hr)|apply (count_new_one h vs a sz p v Hinv Hd Hr Hp)].
Qed.

Lemma new_kind a s h v h' :
  new a s h = Ok v h' -> kind v h' = Ok (kind_of_len (Z.of_nat (length s))) h'.
Proof.
  intros Hnew. unfold kind_of_len, INLINE_CUTOFF, SZ, SMALL_REMOTE_CUTOFF.
  destruct (decide (length s <= 7)%nat) as [Hi|Hi].
  { destruct (new_inline a s h Hi) as (v0 & Hn & Hlen & Ht & Hf).
    rewrite Hn in Hnew. injection Hnew as <- <-.
    replace (Z.of_nat (length s) <=? 8 - 1) with true by (symmetry; apply Z.leb_le; lia).
    apply (kind_inline v0 _ h Ht). lia. }
  replace (Z.of_nat (length s) <=? 8 - 1) with false by (symmetry; apply Z.leb_gt; lia).
  destruct (decide (Z.of_nat (length s) <= 255)) as [Hsm|Hsm].
  { replace (Z.of_nat (length s) <=? 255) with true by (symmetry; apply Z.leb_le; lia).
    rewrite new_small_eq in Hnew by (unfold small_range; lia). cbv zeta in Hnew.
    destruct (alloc_fresh h _ a); [|discriminate].
    destruct (_ =? 0) eqn:Htop; [|discriminate]. injection Hnew as <- <-.
    apply Z.eqb_eq in Htop. by apply (kind_small_stored _ (a + Z.of_nat (length s))). }
  replace (Z.of_nat (length s) <=? 255) with false by (symmetry; apply Z.leb_gt; lia).
  destruct (decide (Z.of_nat (length s) < 2 ^ 48)) as [Hb|Hb].
  { rewrite new_big_eq in Hnew by (unfold big_range; lia). cbv zeta in Hnew.
    destruct (alloc_fresh h _ a); [|discriminate].
    destruct (_ =? 0) eqn:Htop; [|discriminate]. injection Hnew as <- <-.
    apply Z.eqb_eq in Htop. by apply (kind_big_stored _ a). }
  destruct (new_huge a s h ltac:(lia)) as [p [Hp _]]. congruence.
Qed.

Lemma view_live h vs v :
  inv (mkWorld h vs) -> In v vs ->
  exists sl s, deref v h = Ok sl h /\ view v h = Ok s h /\ slice_len sl = Z.of_nat (length s).
Proof.
  intros Hinv Hv.
  destruct (val_info h vs v Hinv Hv) as [(L & Hi) | [(b & L & pl & Hi) | (b & L & pl & Hi)]].
  - destruct (view_inline_eq v L h Hi) as [H1 H2]. eexists _, _. split; [exact H2|]. split; [exact H1|].
    destruct Hi as (Hl & HL & _). cbn. rewrite length_firstn, Hl. lia.
  - destruct (view_small_info h vs v b L pl Hi) as [H1 H2]. eexists _, _. split; [exact H1|]. split; [exact H2|].
    destruct Hi as (Hr & _ & _ & _ & _ & _ & _ & _ & (_ & _ & Hpl) & _). apply mem_read_spec in Hpl as [Hl _].
    unfold small_range in Hr. cbn. lia.
  - destruct (view_big_info h vs v b L pl Hi) as [H1 H2]. eexists _, _. split; [exact H1|]. split; [exact H2|].
    destruct Hi as (Hr & _ & _ & _ & _ & _ & _ & _ & (_ & _ & Hpl) & _). apply mem_read_spec in Hpl as [Hl _].
    unfold big_range in Hr. cbn. lia.
Qed.

(** ** Facts about live values used by the statements *)

Lemma eq_ia_views v w s t h :
  view v h = Ok s h -> view w h = Ok t h -> eq_ia v w h = Ok (bool_decide (s = t)) h.
Proof.
  intros Hv Hw. unfold eq_ia. rewrite (bind_Ok _ _ _ _ _ Hv). cbv beta.
  rewrite (bind_Ok _ _ _ _ _ Hw). done.
Qed.

Lemma eq_slice_view v s r h :
  view v h = Ok s h -> eq_slice v r h = Ok (bool_decide (s = r)) h.
Proof. intros Hv. unfold eq_slice. rewrite (bind_Ok _ _ _ _ _ Hv). done. Qed.

Lemma hash_ia_view {S} `{Hasher S} v sl s st h :
  deref v h = Ok sl h -> view v h = Ok s h -> hash_ia v st h = Ok (hash_slice s st) h.
Proof.
  intros Hd Hv. unfold hash_ia. rewrite (bind_Ok _ _ _ _ _ Hd). cbv beta.
  rewrite (bind_Ok _ _ _ _ _ (view_of_deref v sl s h Hd Hv)). done.
Qed.

Lemma len_deref v sl h : deref v h = Ok sl h -> len v h = Ok (slice_len sl) h.
Proof. intros Hd. unfold len. rewrite (bind_Ok _ _ _ _ _ Hd). done. Qed.

Lemma heap_ptr_kind v h k :
  kind v h = Ok k h -> k <> Inline -> heap_ptr v = Some (decode_ptr (ia_data v)).
Proof.
  unfold kind, heap_ptr. intros Hk Hn.
  set (t := Z.land (inline_trailer v) TRAILER_TAG_MASK) in *.
  destruct (t =? INLINE_TRAILER_TAG) eqn:E0; [cbv [ret] in Hk; congruence|].
  destruct (t =? SMALL_REMOTE_TRAILER_TAG) eqn:E1; [done|].
  destruct (t =? BIG_REMOTE_TRAILER_TAG) eqn:E2; [done|]. discriminate.
Qed.

Lemma refcount_small_cells v b L m bl rc pl :
  ia_data v = stored_word (b + L) 1 -> 0 <= b + L < 2 ^ 64 -> top_ok (b + L) ->
  small_cells m b L rc pl -> refcount v (mkHeap m bl) = Ok rc (mkHeap m bl).
Proof.
  intros Hd Hr Htop (Hrc & _).
  unfold refcount, bind. rewrite (kind_stored v (b + L) 1) by (done || lia). cbn.
  rewrite (deref_small_trailer_stored v (b + L)) by (done || lia).
  unfold small_rc, load. cbn [h_mem]. rewrite Hrc. done.
Qed.

Lemma refcount_big_cells v b L m bl rc pl :
  ia_data v = stored_word b 2 -> 0 <= b < 2 ^ 64 -> top_ok b -> 0 <= rc < 2 ^ 16 ->
  big_cells m b L rc pl -> refcount v (mkHeap m bl) = Ok rc (mkHeap m bl).
Proof.
  intros Hd Hr Htop Hrc Hc.
  unfold refcount, bind. rewrite (kind_stored v b 2) by (done || lia). cbn.
  rewrite (deref_big_header_stored v b) by (done || lia).
  apply (big_rc_cells m bl b L rc pl Hc Hrc).
Qed.

(** A freshly constructed heap value has refcount 1. *)
Lemma new_refcount_one a s h v h' p :
  new a s h = Ok v h' -> heap_ptr v = Some p -> refcount v h' = Ok 1 h'.
Proof.
  intros Hnew Hp.
  destruct (decide (length s <= 7)%nat) as [Hi|Hi].
  { destruct (new_inline a s h Hi) as (v0 & Hn & Hlen & Ht & Hf).
    rewrite Hn in Hnew. injection Hnew as <- <-.
    rewrite (heap_ptr_inline v0 (Z.of_nat (length s))) in Hp by (done || lia). discriminate. }
  destruct (decide (Z.of_nat (length s) <= 255)) as [Hsm|Hsm].
  { rewrite new_small_eq in Hnew by (unfold small_range; lia). cbv zeta in Hnew.
    destruct (alloc_fresh h _ a) eqn:Ha; [|discriminate].
    destruct (_ =? 0) eqn:Htop; [|discriminate]. injection Hnew as <- <-.
    apply Z.eqb_eq in Htop. apply alloc_fresh_spec in Ha as (Ha0 & Ha8 & Ha2 & Hd). cbn [lay_size] in *.
    apply (refcount_small_cells _ a (Z.of_nat (length s)) _ _ 1 s); [done|lia|done|].
    apply small_cells_new. }
  destruct (decide (Z.of_nat (length s) < 2 ^ 48)) as [Hb|Hb].
  { rewrite new_big_eq in Hnew by (unfold big_range; lia). cbv zeta in Hnew.
    destruct (alloc_fresh h _ a) eqn:Ha; [|discriminate].
    destruct (_ =? 0) eqn:Htop; [|discriminate]. injection Hnew as <- <-.
    apply Z.eqb_eq in Htop. apply alloc_fresh_spec in Ha as (Ha0 & Ha8 & Ha2 & Hd). cbn [lay_size] in *.
    apply (refcount_big_cells _ a (Z.of_nat (length s)) _ _ 1 s); [done|lia|done|lia|].
    apply big_cells_new. }
  destruct (new_huge a s h ltac:(lia)) as [p' [Hp' _]]. congruence.
Qed.

(** Storing a new refcount into a SmallRemote trailer changes no view. *)
Lemma view_store_trailer h vs u b L pl z w t :
  inv (mkWorld h vs) -> small_info h vs u b L pl -> In w vs -> view w h = Ok t h ->
  view w (mkHeap (<[b + L := z]> (h_mem h)) (h_blocks h))
  = Ok t (mkHeap (<[b + L := z]> (h_mem h)) (h_blocks h)).
Proof.
  intros Hinv Hu Hw Hv. pose proof (info_block_small _ _ _ _ _ _ Hu) as Hblk.
  pose proof Hu as (Hr & _). unfold small_range in Hr.
  apply (view_preserved h vs w t _ Hinv Hw Hv).
  - intros bw Lw plw Hwi y Hy Hy'. cbn [h_mem].
    pose proof (info_block_small _ _ _ _ _ _ Hwi) as Hbw.
    rewrite lookup_insert_ne; [done|].
    destruct (decide (bw = b)) as [->|Hne].
    + rewrite Hblk in Hbw. injection Hbw as HL. lia.
    + apply not_eq_sym, (blocks_apart h vs bw _ b _ y (b + L) Hinv Hbw Hblk); cbn; (done || lia).
  - intros bw Lw plw Hwi y Hy. cbn [h_mem].
    rewrite lookup_insert_ne; [done|].
    intros E. apply (small_info_other h vs u b L pl w bw Lw plw (b + L) Hinv Hu Hwi); lia.
Qed.

(** Storing a new refcount into a BigRemote header changes no view. *)
Lemma view_store_header h vs u b L pl z w t :
  inv (mkWorld h vs) -> big_info h vs u b L pl -> In w vs -> view w h = Ok t h ->
  view w (mkHeap (mem_write b (le_bytes z 2) (h_mem h)) (h_blocks h))
  = Ok t (mkHeap (mem_write b (le_bytes z 2) (h_mem h)) (h_blocks h)).
Proof.
  intros Hinv Hu Hw Hv. pose proof (info_block_big _ _ _ _ _ _ Hu) as Hblk.
  pose proof Hu as (Hr & _). unfold big_range in Hr.
  apply (view_preserved h vs w t _ Hinv Hw Hv).
  - intros bw Lw plw Hwi y Hy Hy'. cbn [h_mem].
    rewrite lookup_mem_write_out; [done|]. rewrite length_le_bytes.
    destruct (decide (b <= y < b + 2)) as [Hin|Hout]; [|lia]. exfalso.
    apply (small_info_other h vs w bw Lw plw u b L pl y Hinv Hwi Hu); lia.
  - intros bw Lw plw Hwi y Hy. cbn [h_mem].
    pose proof (info_block_big _ _ _ _ _ _ Hwi) as Hbw.
    rewrite lookup_mem_write_out; [done|]. rewrite length_le_bytes.
    destruct (decide (bw = b)) as [->|Hne]; [lia|].
    destruct (decide (b <= y < b + 2)) as [Hin|Hout]; [|lia]. exfalso.
    apply (blocks_apart h vs bw _ b _ y y Hinv Hbw Hblk); cbn; (done || lia).
Qed.

Lemma In_lookup (vs : list InlineArray) v : In v vs -> exists i, vs !! i = Some v.
Proof. intros H. apply list_elem_of_In in H. by apply list_elem_of_lookup_1. Qed.

(** Construction never reaches undefined behaviour or a kind assertion. *)
Lemma new_no_ub a s h : new a s h <> UB /\ new a s h <> Panicked PAssertKind.
Proof.
  destruct (decide (length s <= 7)%nat) as [Hi|Hi].
  { destruct (new_inline a s h Hi) as (v0 & Hn & _). rewrite Hn. done. }
  destruct (decide (Z.of_nat (length s) <= 255)) as [Hsm|Hsm].
  { rewrite new_small_eq by (unfold small_range; lia). cbv zeta.
    destruct (alloc_fresh h _ a); [destruct (_ =? 0)|]; done. }
  destruct (decide (Z.of_nat (length s) < 2 ^ 48)) as [Hb|Hb].
  { rewrite new_big_eq by (unfold big_range; lia). cbv zeta.
    destruct (alloc_fresh h _ a); [destruct (_ =? 0)|]; done. }
  destruct (new_huge a s h ltac:(lia)) as [p [Hp Hp']]. rewrite Hp.
  split; [done|]. intros [= ->]. destruct Hp'; discriminate.
Qed.

Lemma clone_no_ub h vs v a n :
  inv (mkWorld h vs) -> In v vs -> clone a n v h <> UB /\ clone a n v h <> Panicked PAssertKind.
Proof.
  intros Hinv Hv.
  destruct (val_info h vs v Hinv Hv) as [(L & Hi) | [(b & L & pl & Hi) | (b & L & pl & Hi)]].
  - rewrite (clone_inline_eq a n v L h Hi). done.
  - rewrite (clone_small_eq a n h vs v b L pl Hi). destruct (_ =? U8_MAX); [apply new_no_ub|done].
  - rewrite (clone_big_eq a n h vs v b L pl Hi). destruct (_ =? U16_MAX); [apply new_no_ub|done].
Qed.

(** A clone has the view of the original, which keeps its own view. *)
Lemma clone_view h vs v a n v' h' :
  inv (mkWorld h vs) -> In v vs -> clone a n v h = Ok v' h' ->
  exists s, view v h = Ok s h /\ view v' h' = Ok s h' /\ view v h' = Ok s h'.
Proof.
  intros Hinv Hv Hcl.
  destruct (val_info h vs v Hinv Hv) as [(L & Hi) | [(b & L & pl & Hi) | (b & L & pl & Hi)]].
  - rewrite (clone_inline_eq a n v L h Hi), mkIA_eta in Hcl. injection Hcl as <- <-.
    destruct (view_inline_eq v L h Hi) as [Hvw _]. eexists. done.
  - pose proof (view_small_info h vs v b L pl Hi) as [_ Hvw].
    rewrite (clone_small_eq a n h vs v b L pl Hi) in Hcl.
    exists pl. split; [done|]. destruct (_ =? U8_MAX).
    + split; [apply (new_view a pl h v' h' Hcl)|].
      apply (view_new_frame h vs v pl a pl v' h' Hinv Hv Hvw Hcl).
    + rewrite mkIA_eta in Hcl. injection Hcl as <- <-.
      pose proof (view_store_trailer h vs v b L pl (Z.of_nat (count_ptr (b + L) vs) + 1) v pl Hinv Hi Hv Hvw). done.
  - pose proof (view_big_info h vs v b L pl Hi) as [_ Hvw].
    rewrite (clone_big_eq a n h vs v b L pl Hi) in Hcl.
    exists pl. split; [done|]. destruct (_ =? U16_MAX).
    + split; [apply (new_view a pl h v' h' Hcl)|].
      apply (view_new_frame h vs v pl a pl v' h' Hinv Hv Hvw Hcl).
    + rewrite mkIA_eta in Hcl. injection Hcl as <- <-.
      pose proof (view_store_header h vs v b L pl (Z.of_nat (count_ptr b vs) + 1) v pl Hinv Hi Hv Hvw). done.
Qed.

Lemma clone_kind h vs v a n k v' h' :
  inv (mkWorld h vs) -> In v vs -> kind v h = Ok k h -> clone a n v h = Ok v' h' ->
  kind v' h' = Ok k h'.
Proof.
  intros Hinv Hv Hk Hcl.
  destruct (val_info h vs v Hinv Hv) as [(L & Hi) | [(b & L & pl & Hi) | (b & L & pl & Hi)]].
  - rewrite (clone_inline_eq a n v L h Hi), mkIA_eta in Hcl. injection Hcl as <- <-. done.
  - rewrite (clone_small_eq a n h vs v b L pl Hi) in Hcl.
    pose proof Hi as (Hr & Htop & Hd & _ & _ & _ & _ & _ & (_ & _ & Hpl) & _).
    rewrite (kind_small_stored v (b + L) h Hd Htop) in Hk. injection Hk as <-.
    destruct (_ =? U8_MAX).
    + rewrite (new_kind a pl h v' h' Hcl). apply mem_read_spec in Hpl as [Hl _].
      unfold small_range in Hr. unfold kind_of_len, INLINE_CUTOFF, SZ, SMALL_REMOTE_CUTOFF.
      replace (Z.of_nat (length pl) <=? 8 - 1) with false by (symmetry; apply Z.leb_gt; lia).
      replace (Z.of_nat (length pl) <=? 255) with true by (symmetry; apply Z.leb_le; lia). done.
    + rewrite mkIA_eta in Hcl. injection Hcl as <- <-. by apply (kind_small_stored v (b + L)).
  - rewrite (clone_big_eq a n h vs v b L pl Hi) in Hcl.
    pose proof Hi as (Hr & Htop & Hd & _ & _ & _ & _ & _ & (_ & _ & Hpl) & _).
    rewrite (kind_big_stored v b h Hd Htop) in Hk. injection Hk as <-.
    destruct (_ =? U16_MAX).
    + rewrite (new_kind a pl h v' h' Hcl). apply mem_read_spec in Hpl as [Hl _].
      unfold big_range in Hr. unfold kind_of_len, INLINE_CUTOFF, SZ, SMALL_REMOTE_CUTOFF.
      replace (Z.of_nat (length pl) <=? 8 - 1) with false by (symmetry; apply Z.leb_gt; lia).
      replace (Z.of_nat (length pl) <=? 255) with false by (symmetry; apply Z.leb_gt; lia). done.
    + rewrite mkIA_eta in Hcl. injection Hcl as <- <-. by apply (kind_big_stored v b).
Qed.

Lemma owns_count h vs v sl s p :
  owns h vs v sl s -> heap_ptr v = Some p -> count_ptr p vs = 1%nat.
Proof.
  intros [(n & -> & Hi & _) | [(b & L & -> & Hi & Hc) | (b & L & -> & Hi & Hc)]] Hp.
  - rewrite (inline_info_ptr v n Hi) in Hp. discriminate.
  - rewrite (small_info_ptr _ _ _ _ _ _ Hi) in Hp. injection Hp as <-. done.
  - rewrite (big_info_ptr _ _ _ _ _ _ Hi) in Hp. injection Hp as <-. done.
Qed.

(** The allocation a live heap value points into, with its layout. *)
Lemma live_block h vs v p :
  inv (mkWorld h vs) -> In v vs -> heap_ptr v = Some p ->
  exists b k L, kind v h = Ok k h /\ len v h = Ok L h
  /\ h_blocks h !! b = Some (mkLayout (L + remote_overhead k) 8)
  /\ b <= p < b + L + remote_overhead k.
Proof.
  intros Hinv Hv Hp.
  destruct (val_info h vs v Hinv Hv) as [(L & Hi) | [(b & L & pl & Hi) | (b & L & pl & Hi)]].
  - rewrite (inline_info_ptr v L Hi) in Hp. discriminate.
  - rewrite (small_info_ptr _ _ _ _ _ _ Hi) in Hp. injection Hp as <-.
    pose proof (view_small_info h vs v b L pl Hi) as [Hd _].
    pose proof Hi as (Hr & Htop & Hdat & Hblk & _). unfold small_range in Hr.
    exists b, SmallRemote, L. split; [apply (kind_small_stored v (b + L) h Hdat Htop)|].
    split; [apply (len_deref v _ h Hd)|]. cbn [remote_overhead]. unfold SMALL_TRAILER_SIZE.
    split; [done|lia].
  - rewrite (big_info_ptr _ _ _ _ _ _ Hi) in Hp. injection Hp as <-.
    pose proof (view_big_info h vs v b L pl Hi) as [Hd _].
    pose proof Hi as (Hr & Htop & Hdat & Hblk & _). unfold big_range in Hr.
    exists b, BigRemote, L. split; [apply (kind_big_stored v b h Hdat Htop)|].
    split; [apply (len_deref v _ h Hd)|]. cbn [remote_overhead]. unfold BIG_HEADER_SIZE.
    split; [done|lia].
Qed.

(** * Properties of the specification *)

(** Reachability of the example worlds, by running the program. *)
Ltac reach_ex9 :=
  eapply reach_step; [apply reach_init|];
  apply (StepNew heap_empty [] 4096 ex_s9 ex_v9 ex_h9); vm_compute; reflexivity.

Ltac reach_ex64c :=
  eapply reach_step; [eapply reach_step; [apply reach_init|]|];
  [apply (StepNew heap_empty [] 4096 ex_s64 ex_v64 ex_h64); vm_compute; reflexivity
  |apply (StepClone ex_h64 [ex_v64] 0 ex_v64 0 0 ex_v64 ex_h64c); [reflexivity|vm_compute; reflexivity]].

Ltac reach_ex_i :=
  apply (reach_step (mkWorld heap_empty [ex_i1; ex_i2]));
  [apply (reach_step (mkWorld heap_empty [ex_i1]));
   [apply (reach_step world_init); [apply reach_init|]|]|];
  [apply (StepNew heap_empty [] 0 [1] ex_i1 heap_empty)
  |apply (StepNew heap_empty [ex_i1] 0 [2] ex_i2 heap_empty)
  |apply (StepNew heap_empty [ex_i1; ex_i2] 0 [3] ex_i3 heap_empty)]; vm_compute; reflexivity.

Lemma count_ptr_repeat p v k : heap_ptr v = Some p -> count_ptr p (repeat v k) = k.
Proof. intros Hp. induction k as [|k IH]; cbn; [done|]. rewrite decide_True by done. lia. Qed.

(** Cloning [ex_v9] again and again: [k] sharers and refcount [k]. *)
Lemma reach_ex9_shared k :
  (1 <= k <= 255)%nat ->
  reachable (mkWorld (mkHeap (<[4105 := Z.of_nat k]> (h_mem ex_h9)) (h_blocks ex_h9)) (repeat ex_v9 k)).
Proof.
  induction k as [|k IH]; intros Hk; [lia|].
  destruct (decide (k = 0%nat)) as [->|Hk0].
  { replace (mkHeap (<[4105 := Z.of_nat 1]> (h_mem ex_h9)) (h_blocks ex_h9)) with ex_h9
      by (vm_compute; reflexivity).
    cbn [repeat]. reach_ex9. }
  specialize (IH ltac:(lia)).
  set (hk := mkHeap (<[4105 := Z.of_nat k]> (h_mem ex_h9)) (h_blocks ex_h9)) in *.
  pose proof (reachable_inv _ IH) as Hinv.
  assert (Hin : (repeat ex_v9 k) !! 0%nat = Some ex_v9) by (destruct k; [lia|done]).
  assert (Hp : heap_ptr ex_v9 = Some 4105) by (vm_compute; reflexivity).
  destruct (val_info hk _ ex_v9 Hinv (lookup_In _ _ _ Hin)) as [(L & Hi) | [(b & L & pl & Hi) | (b & L & pl & Hi)]].
  - rewrite (inline_info_ptr _ _ Hi) in Hp. discriminate.
  - pose proof (small_info_ptr _ _ _ _ _ _ Hi) as Hp'. rewrite Hp in Hp'. injection Hp' as Hb.
    pose proof (clone_small_eq 0 0 hk _ ex_v9 b L pl Hi) as Hcl.
    rewrite <- Hb, (count_ptr_repeat 4105 ex_v9 k Hp) in Hcl.
    replace (Z.of_nat k =? U8_MAX) with false in Hcl by (symmetry; apply Z.eqb_neq; unfold U8_MAX; lia).
    rewrite mkIA_eta in Hcl. unfold hk in Hcl. cbn [h_mem h_blocks] in Hcl.
    rewrite insert_insert_eq in Hcl. replace (Z.of_nat k + 1) with (Z.of_nat (S k)) in Hcl by lia.
    change (repeat ex_v9 (S k)) with (ex_v9 :: repeat ex_v9 k). rewrite List.repeat_cons.
    eapply reach_step; [exact IH|]. exact (StepClone hk _ 0 ex_v9 0 0 ex_v9 _ Hin Hcl).
  - pose proof (big_info_ptr _ _ _ _ _ _ Hi) as Hp'. rewrite Hp in Hp'. injection Hp' as <-.
    destruct Hi as (_ & _ & Hd & _). vm_compute in Hd. discriminate.
Qed.

(** C1: whenever construction from a byte slice [s] returns a value, that
    value's read view is exactly [s] and its [len()] is the length of [s];
    this covers the three length ranges, and the variant of the value is
    the one its length selects ([kind_of_len]). *)
Theorem C1_new_view_len a s h v h' :
  new a s h = Ok v h' ->
  view v h' = Ok s h' /\ len v h' = Ok (Z.of_nat (length s)) h'
  /\ kind v h' = Ok (kind_of_len (Z.of_nat (length s))) h'.
Proof.
  intros Hnew. destruct (new_view a s h v h' Hnew) as [Hv Hl].
  split; [done|]. split; [done|]. exact (new_kind a s h v h' Hnew).
Qed.

Lemma C1_witness :
  new 4096 ex_s9 heap_empty = Ok ex_v9 ex_h9
  /\ view ex_v9 ex_h9 = Ok ex_s9 ex_h9 /\ len ex_v9 ex_h9 = Ok 9 ex_h9
  /\ kind ex_v9 ex_h9 = Ok SmallRemote ex_h9.
Proof.
  assert (E : new 4096 ex_s9 heap_empty = Ok ex_v9 ex_h9) by (vm_compute; reflexivity).
  split; [exact E|]. exact (C1_new_view_len 4096 ex_s9 heap_empty ex_v9 ex_h9 E).
Defined.

(** C2: construction from a slice of length [L] with the
    allocator answering [a]: for [L <= 7] it returns an Inline value; for
    [8 <= L <= 255] (resp. [256 <= L < 2^48]) it asks for [L + 2]
    (resp. [L + 8]) bytes with alignment 8, panics when the allocation
    fails, panics on [assert_eq!(data[SZ - 1] & 0b111, 0)] when the top
    byte of the pointer it stores (the trailer address [a + L], resp. the
    base [a]) has one of its low three bits set, and otherwise returns a
    SmallRemote (resp. BigRemote) value owning that allocation; for
    [L >= 2^48] it always panics. *)
Theorem C2_new_outcome_by_length a s h :
  let L := Z.of_nat (length s) in
  (L <= INLINE_CUTOFF -> exists v, new a s h = Ok v h /\ kind v h = Ok Inline h)
  /\ (INLINE_CUTOFF < L <= SMALL_REMOTE_CUTOFF ->
      (alloc_fresh h (mkLayout (L + SMALL_TRAILER_SIZE) 8) a = false ->
         new a s h = Panicked PAllocNull)
      /\ (alloc_fresh h (mkLayout (L + SMALL_TRAILER_SIZE) 8) a = true -> ~ top_ok (a + L) ->
         new a s h = Panicked PAssertAlign)
      /\ (alloc_fresh h (mkLayout (L + SMALL_TRAILER_SIZE) 8) a = true -> top_ok (a + L) ->
         exists v h', new a s h = Ok v h' /\ kind v h' = Ok SmallRemote h'
         /\ h_blocks h' = <[a := mkLayout (L + SMALL_TRAILER_SIZE) 8]> (h_blocks h)))
  /\ (SMALL_REMOTE_CUTOFF < L < 2 ^ 48 ->
      (alloc_fresh h (mkLayout (L + BIG_HEADER_SIZE) 8) a = false ->
         new a s h = Panicked PAllocNull)
      /\ (alloc_fresh h (mkLayout (L + BIG_HEADER_SIZE) 8) a = true -> ~ top_ok a ->
         new a s h = Panicked PAssertAlign)
      /\ (alloc_fresh h (mkLayout (L + BIG_HEADER_SIZE) 8) a = true -> top_ok a ->
         exists v h', new a s h = Ok v h' /\ kind v h' = Ok BigRemote h'
         /\ h_blocks h' = <[a := mkLayout (L + BIG_HEADER_SIZE) 8]> (h_blocks h)))
  /\ (2 ^ 48 <= L -> exists p, new a s h = Panicked p).
Proof.
  cbv zeta. unfold INLINE_CUTOFF, SZ, SMALL_REMOTE_CUTOFF, SMALL_TRAILER_SIZE, BIG_HEADER_SIZE.
  split; [|split; [|split]].
  - intros HL. destruct (new_inline a s h ltac:(lia)) as (v & Hn & _ & Ht & _).
    exists v. split; [done|]. apply (kind_inline v _ h Ht). lia.
  - intros HL. rewrite (new_small_eq a s h) by (unfold small_range; lia). cbv zeta. unfold top_ok.
    split; [|split].
    + intros Ha. rewrite Ha. done.
    + intros Ha Ht. rewrite Ha. destruct (_ =? 0) eqn:E; [apply Z.eqb_eq in E; contradiction|done].
    + intros Ha Ht. rewrite Ha, (proj2 (Z.eqb_eq _ _) Ht). eexists _, _. split; [reflexivity|].
      split; [by apply (kind_small_stored _ (a + Z.of_nat (length s)))|done].
  - intros HL. rewrite (new_big_eq a s h) by (unfold big_range; lia). cbv zeta. unfold top_ok.
    split; [|split].
    + intros Ha. rewrite Ha. done.
    + intros Ha Ht. rewrite Ha. destruct (_ =? 0) eqn:E; [apply Z.eqb_eq in E; contradiction|done].
    + intros Ha Ht. rewrite Ha, (proj2 (Z.eqb_eq _ _) Ht). eexists _, _. split; [reflexivity|].
      split; [by apply (kind_big_stored _ a)|done].
  - intros HL. destruct (new_huge a s h HL) as [p [Hp _]]. by exists p.
Qed.

(** C2 counterexample: a 9-byte slice (far below 2^48) and an allocator
    that hands out a fresh, aligned block at an address whose top byte is
    0xB4: the allocation succeeds, yet construction panics. *)
Lemma C2_counterexample :
  Z.of_nat (length ex_s9) < 2 ^ 48
  /\ alloc_fresh heap_empty (mkLayout 11 8) ex_tagged_addr = true
  /\ new ex_tagged_addr ex_s9 heap_empty = Panicked PAssertAlign.
Proof. split; [|split]; vm_compute; reflexivity. Qed.

(** C3: the slice a live value exposes starts at an 8-aligned address:
    the value's own address for an Inline value (the type is
    [repr(align(8))], so [self_addr] is a multiple of 8), the allocation
    base for SmallRemote, and the base plus the 8-byte header for
    BigRemote. *)
Theorem C3_view_ptr_aligned h vs v :
  reachable (mkWorld h vs) -> In v vs ->
  exists sl, deref v h = Ok sl h
  /\ forall self_addr, self_addr mod 8 = 0 -> slice_ptr self_addr sl mod 8 = 0.
Proof.
  intros Hr Hv. pose proof (reachable_inv _ Hr) as Hinv.
  destruct (val_info h vs v Hinv Hv) as [(L & Hi) | [(b & L & pl & Hi) | (b & L & pl & Hi)]].
  - exists (SInline L). split; [apply (view_inline_eq v L h Hi)|]. intros x Hx. done.
  - exists (SHeap b L). split; [apply (view_small_info h vs v b L pl Hi)|]. intros x _.
    destruct Hi as (_ & _ & _ & _ & _ & Hb8 & _). done.
  - exists (SHeap (b + 8) L). split; [apply (view_big_info h vs v b L pl Hi)|]. intros x _.
    destruct Hi as (_ & _ & _ & _ & _ & Hb8 & _). cbn [slice_ptr].
    rewrite Z.add_mod, Hb8 by lia. done.
Qed.

Lemma C3_witness :
  exists sl, deref ex_v9 ex_h9 = Ok sl ex_h9
  /\ forall self_addr, self_addr mod 8 = 0 -> slice_ptr self_addr sl mod 8 = 0.
Proof. apply (C3_view_ptr_aligned ex_h9 [ex_v9] ex_v9); [reach_ex9 | left; reflexivity]. Defined.

(** C4: cloning a live value, also when its refcount is saturated and the
    clone is a fresh copy, gives a value with the same view; the original
    keeps its view, and the clone compares equal to it. *)
Theorem C4_clone_view_eq h vs v a n v' h' :
  reachable (mkWorld h vs) -> In v vs -> clone a n v h = Ok v' h' ->
  exists s, view v h = Ok s h /\ view v' h' = Ok s h' /\ view v h' = Ok s h'
  /\ eq_ia v' v h' = Ok true h'.
Proof.
  intros Hr Hv Hcl. pose proof (reachable_inv _ Hr) as Hinv.
  destruct (clone_view h vs v a n v' h' Hinv Hv Hcl) as (s & H1 & H2 & H3).
  exists s. do 3 (split; [done|]).
  rewrite (eq_ia_views v' v s s h' H2 H3). by rewrite bool_decide_eq_true_2.
Qed.

Lemma C4_witness :
  exists s, view ex_v64 ex_h64 = Ok s ex_h64 /\ view ex_v64 ex_h64c = Ok s ex_h64c
  /\ view ex_v64 ex_h64c = Ok s ex_h64c /\ eq_ia ex_v64 ex_v64 ex_h64c = Ok true ex_h64c.
Proof.
  apply (C4_clone_view_eq ex_h64 [ex_v64] ex_v64 0 0 ex_v64 ex_h64c).
  - eapply reach_step; [apply reach_init|].
    apply (StepNew heap_empty [] 4096 ex_s64 ex_v64 ex_h64); vm_compute; reflexivity.
  - left; reflexivity.
  - vm_compute; reflexivity.
Defined.

(** C5: let a live heap value have refcount [c].  When [c] is the field's
    maximum ([u8::MAX] for SmallRemote, [u16::MAX] for BigRemote), [clone]
    is the construction of a fresh value from the view; when it returns,
    the original still has refcount [c] (so its next clone takes the same
    path), and the clone has its own pointer, refcount 1, the same variant
    and the same view.  Below the maximum, [clone] returns the same tagged
    word, the refcount becomes [c + 1], no allocation changes and every
    live value keeps its view. *)
Theorem C5_clone_saturation h vs v a n k c :
  reachable (mkWorld h vs) -> In v vs -> kind v h = Ok k h -> k <> Inline ->
  refcount v h = Ok c h ->
  (c = rc_max k ->
     exists s, view v h = Ok s h /\ clone a n v h = new a s h
     /\ forall v' h', clone a n v h = Ok v' h' ->
          refcount v h' = Ok c h' /\ refcount v' h' = Ok 1 h'
          /\ heap_ptr v' <> heap_ptr v /\ kind v' h' = Ok k h' /\ view v' h' = Ok s h')
  /\ (c <> rc_max k ->
     exists h', clone a n v h = Ok v h' /\ refcount v h' = Ok (c + 1) h'
     /\ h_blocks h' = h_blocks h
     /\ forall w t, In w vs -> view w h = Ok t h -> view w h' = Ok t h').
Proof.
  intros Hr Hv Hk Hnk Hc. pose proof (reachable_inv _ Hr) as Hinv.
  destruct (In_lookup vs v Hv) as [i Hi].
  assert (Hsat : forall p s, heap_ptr v = Some p -> view v h = Ok s h -> bytes_ok s = true ->
            clone a n v h = new a s h ->
            forall v' h', clone a n v h = Ok v' h' ->
            refcount v h' = Ok c h' /\ refcount v' h' = Ok 1 h'
            /\ heap_ptr v' <> heap_ptr v /\ kind v' h' = Ok k h' /\ view v' h' = Ok s h').
  { intros p s Hp Hvs Hok Hcn v' h' Hcl. rewrite Hcn in Hcl.
    pose proof (inv_new h vs a s v' h' Hinv Hok Hcl) as Hinv1.
    pose proof (clone_kind h vs v a n k v' h' Hinv Hv Hk ltac:(by rewrite Hcn)) as Hk'.
    pose proof (heap_ptr_kind v' h' k Hk' Hnk) as Hp'.
    destruct (new_fresh h vs a s v' h' _ Hinv Hcl Hp') as [Hc0 Hc1].
    assert (Hne : heap_ptr v' <> heap_ptr v).
    { rewrite Hp', Hp. intros [= E]. rewrite E in Hc0.
      pose proof (count_ptr_in p vs v Hv Hp). lia. }
    split; [|split; [exact (new_refcount_one a s h v' h' _ Hcl Hp')|split; [done|split; [done|]]]].
    - rewrite (refcount_eq_count h' (vs ++ [v']) v p Hinv1 ltac:(apply in_or_app; by left) Hp).
      rewrite count_ptr_snoc_other by (rewrite <- Hp; done).
      rewrite (refcount_eq_count h vs v p Hinv Hv Hp) in Hc. congruence.
    - exact (proj1 (new_view a s h v' h' Hcl)). }
  assert (Hinc : forall p h', heap_ptr v = Some p -> clone a n v h = Ok v h' ->
            refcount v h' = Ok (c + 1) h').
  { intros p h' Hp Hcl. pose proof (inv_clone h vs i v a n v h' Hinv Hi Hcl) as Hinv1.
    rewrite (refcount_eq_count h' (vs ++ [v]) v p Hinv1 ltac:(apply in_or_app; by left) Hp).
    rewrite (refcount_eq_count h vs v p Hinv Hv Hp) in Hc. injection Hc as <-.
    rewrite count_ptr_app, count_ptr_one, decide_True by done. f_equal. lia. }
  destruct (val_info h vs v Hinv Hv) as [(L & Hi') | [(b & L & pl & Hi') | (b & L & pl & Hi')]].
  - rewrite (kind_inline v L h) in Hk by apply Hi'. injection Hk as <-. done.
  - pose proof Hi' as (Hrg & Htop & Hd & _ & _ & _ & _ & Hok & _).
    pose proof (small_info_ptr _ _ _ _ _ _ Hi') as Hp.
    pose proof (view_small_info h vs v b L pl Hi') as [_ Hvw].
    rewrite (kind_small_stored v (b + L) h Hd Htop) in Hk. injection Hk as <-.
    rewrite (refcount_small_info h vs v b L pl Hi') in Hc. injection Hc as <-. cbn [rc_max].
    split.
    + intros Hmax. exists pl. split; [done|].
      assert (Hcn : clone a n v h = new a pl h)
        by (rewrite (clone_small_eq a n h vs v b L pl Hi'), (proj2 (Z.eqb_eq _ _) Hmax); done).
      split; [done|]. exact (Hsat _ pl Hp Hvw Hok Hcn).
    + intros Hnm. rewrite (clone_small_eq a n h vs v b L pl Hi'), (proj2 (Z.eqb_neq _ _) Hnm), mkIA_eta.
      eexists. split; [reflexivity|]. split; [|split; [done|]].
      * apply (Hinc _ _ Hp). rewrite (clone_small_eq a n h vs v b L pl Hi'), (proj2 (Z.eqb_neq _ _) Hnm), mkIA_eta. done.
      * intros w t Hw Hwt. exact (view_store_trailer h vs v b L pl _ w t Hinv Hi' Hw Hwt).
  - pose proof Hi' as (Hrg & Htop & Hd & _ & _ & _ & _ & Hok & _).
    pose proof (big_info_ptr _ _ _ _ _ _ Hi') as Hp.
    pose proof (view_big_info h vs v b L pl Hi') as [_ Hvw].
    rewrite (kind_big_stored v b h Hd Htop) in Hk. injection Hk as <-.
    rewrite (refcount_big_info h vs v b L pl Hi') in Hc. injection Hc as <-. cbn [rc_max].
    split.
    + intros Hmax. exists pl. split; [done|].
      assert (Hcn : clone a n v h = new a pl h)
        by (rewrite (clone_big_eq a n h vs v b L pl Hi'), (proj2 (Z.eqb_eq _ _) Hmax); done).
      split; [done|]. exact (Hsat _ pl Hp Hvw Hok Hcn).
    + intros Hnm. rewrite (clone_big_eq a n h vs v b L pl Hi'), (proj2 (Z.eqb_neq _ _) Hnm), mkIA_eta.
      eexists. split; [reflexivity|]. split; [|split; [done|]].
      * apply (Hinc _ _ Hp). rewrite (clone_big_eq a n h vs v b L pl Hi'), (proj2 (Z.eqb_neq _ _) Hnm), mkIA_eta. done.
      * intros w t Hw Hwt. exact (view_store_header h vs v b L pl _ w t Hinv Hi' Hw Hwt).
Qed.

Lemma C5_witness :
  (255 = rc_max SmallRemote ->
     exists s, view ex_v9 ex_h9s = Ok s ex_h9s /\ clone 8192 0 ex_v9 ex_h9s = new 8192 s ex_h9s
     /\ forall v' h', clone 8192 0 ex_v9 ex_h9s = Ok v' h' ->
          refcount ex_v9 h' = Ok 255 h' /\ refcount v' h' = Ok 1 h'
          /\ heap_ptr v' <> heap_ptr ex_v9 /\ kind v' h' = Ok SmallRemote h' /\ view v' h' = Ok s h')
  /\ (255 <> rc_max SmallRemote ->
     exists h', clone 8192 0 ex_v9 ex_h9s = Ok ex_v9 h' /\ refcount ex_v9 h' = Ok (255 + 1) h'
     /\ h_blocks h' = h_blocks ex_h9s
     /\ forall w t, In w (repeat ex_v9 255) -> view w ex_h9s = Ok t ex_h9s -> view w h' = Ok t h').
Proof.
  apply (C5_clone_saturation ex_h9s (repeat ex_v9 255) ex_v9 8192 0 SmallRemote 255).
  - exact (reach_ex9_shared 255 ltac:(lia)).
  - change (In ex_v9 (ex_v9 :: repeat ex_v9 254)). left; reflexivity.
  - vm_compute; reflexivity.
  - discriminate.
  - vm_compute; reflexivity.
Defined.

(** C6: in every reachable state, (1) a live heap value points into a
    live allocation of layout (payload length + trailer or header size,
    alignment 8), and its refcount equals the number of live values
    sharing that allocation, which is at least 1; (2) every live
    allocation has alignment 8 and a live value pointing into it;
    (3) a value built by construction has refcount 1; (4) drop of an
    Inline value changes nothing, and drop of a heap value frees its
    whole allocation exactly when it was the only sharer, and otherwise
    frees nothing and leaves the remaining sharers with a refcount one
    lower. *)
Theorem C6_refcount_counts_sharers h vs :
  reachable (mkWorld h vs) ->
  (forall v p, In v vs -> heap_ptr v = Some p ->
     refcount v h = Ok (Z.of_nat (count_ptr p vs)) h /\ (1 <= count_ptr p vs)%nat
     /\ exists b k L, kind v h = Ok k h /\ len v h = Ok L h
        /\ h_blocks h !! b = Some (mkLayout (L + remote_overhead k) 8)
        /\ b <= p < b + L + remote_overhead k)
  /\ (forall b l, h_blocks h !! b = Some l ->
        lay_align l = 8 /\ exists v p, In v vs /\ heap_ptr v = Some p /\ b <= p < b + lay_size l)
  /\ (forall a s v h', new a s h = Ok v h' -> forall p, heap_ptr v = Some p -> refcount v h' = Ok 1 h')
  /\ (forall i v h', vs !! i = Some v -> drop v h = Ok tt h' ->
        (heap_ptr v = None -> h' = h)
        /\ forall p, heap_ptr v = Some p ->
             exists b k L, kind v h = Ok k h /\ len v h = Ok L h
             /\ h_blocks h !! b = Some (mkLayout (L + remote_overhead k) 8)
             /\ b <= p < b + L + remote_overhead k
             /\ (count_ptr p vs = 1%nat -> h_blocks h' = delete b (h_blocks h))
             /\ (count_ptr p vs <> 1%nat ->
                   h_blocks h' = h_blocks h
                   /\ forall w, In w (delete i vs) -> heap_ptr w = Some p ->
                        refcount w h' = Ok (Z.of_nat (count_ptr p vs) - 1) h')).
Proof.
  intros Hr. pose proof (reachable_inv _ Hr) as Hinv.
  split; [|split; [|split]].
  - intros v p Hv Hp. split; [exact (refcount_eq_count h vs v p Hinv Hv Hp)|].
    split; [exact (count_ptr_in p vs v Hv Hp)|]. exact (live_block h vs v p Hinv Hv Hp).
  - intros b l Hb. pose proof Hinv as (_ & Hbl & _). cbn [w_heap w_vals] in Hbl.
    pose proof (Hbl b l Hb) as Hwf.
    destruct Hwf as (_ & _ & _ & Hal & [(L & pl & Hsz & Hrg & _ & _ & _ & Hn) | (L & pl & Hsz & Hrg & _ & _ & _ & Hn)]);
      unfold small_range, big_range in Hrg.
    + split; [done|]. destruct (count_ptr_pos (b + L) vs ltac:(lia)) as (v & Hv & Hp).
      exists v, (b + L). split; [done|]. split; [done|]. rewrite Hsz. lia.
    + split; [done|]. destruct (count_ptr_pos b vs ltac:(lia)) as (v & Hv & Hp).
      exists v, b. split; [done|]. split; [done|]. rewrite Hsz. lia.
  - intros a s v h' Hnew p Hp. exact (new_refcount_one a s h v h' p Hnew Hp).
  - intros i v h' Hi Hdr. pose proof (lookup_In _ _ _ Hi) as Hv.
    pose proof (inv_drop h vs i v h' Hinv Hi Hdr) as Hinv1.
    assert (Hrest : forall p, heap_ptr v = Some p -> count_ptr p vs <> 1%nat ->
              forall w, In w (delete i vs) -> heap_ptr w = Some p ->
              refcount w h' = Ok (Z.of_nat (count_ptr p vs) - 1) h').
    { intros p Hp Hn1 w Hw Hwp. rewrite (refcount_eq_count h' (delete i vs) w p Hinv1 Hw Hwp).
      rewrite (count_ptr_delete p vs i v Hi), decide_True by done. f_equal. lia. }
    destruct (val_info h vs v Hinv Hv) as [(L & Hi') | [(b & L & pl & Hi') | (b & L & pl & Hi')]].
    + rewrite (drop_inline_eq v L h Hi') in Hdr. injection Hdr as <-.
      split; [done|]. intros p Hp. rewrite (inline_info_ptr v L Hi') in Hp. discriminate.
    + pose proof (small_info_ptr _ _ _ _ _ _ Hi') as Hp.
      split; [congruence|]. intros p Hp'. rewrite Hp in Hp'. injection Hp' as <-.
      destruct (live_block h vs v (b + L) Hinv Hv Hp) as (b' & k & L' & Hk & Hl & Hb' & Hin).
      pose proof (drop_small_eq h vs v b L pl Hi') as Hd. cbv zeta in Hd. rewrite Hdr in Hd.
      injection Hd as Hd.
      assert (Hkb : k = SmallRemote /\ L' = L /\ b' = b).
      { pose proof Hi' as (Hrg & Htop & Hdat & Hblk & _). unfold small_range in Hrg.
        rewrite (kind_small_stored v (b + L) h Hdat Htop) in Hk. injection Hk as <-.
        rewrite (len_deref v _ h (proj1 (view_small_info h vs v b L pl Hi'))) in Hl. injection Hl as <-.
        cbn [remote_overhead] in *. unfold SMALL_TRAILER_SIZE in *.
        split; [done|]. split; [done|].
        destruct (decide (b' = b)) as [|Hne]; [done|]. exfalso.
        apply (blocks_apart h vs b' _ b _ (b + L) (b + L) Hinv Hb' Hblk); cbn; (done || lia). }
      destruct Hkb as (-> & -> & ->).
      exists b, SmallRemote, L. do 4 (split; [done|]). split.
      * intros H1. rewrite H1 in Hd. cbn in Hd. subst h'. done.
      * intros H1. split; [|exact (Hrest _ Hp H1)].
        replace (Z.of_nat (count_ptr (b + L) vs) =? 1) with false in Hd
          by (symmetry; apply Z.eqb_neq; lia). subst h'. done.
    + pose proof (big_info_ptr _ _ _ _ _ _ Hi') as Hp.
      split; [congruence|]. intros p Hp'. rewrite Hp in Hp'. injection Hp' as <-.
      destruct (live_block h vs v b Hinv Hv Hp) as (b' & k & L' & Hk & Hl & Hb' & Hin).
      pose proof (drop_big_eq h vs v b L pl Hi') as Hd. cbv zeta in Hd. rewrite Hdr in Hd.
      injection Hd as Hd.
      assert (Hkb : k = BigRemote /\ L' = L /\ b' = b).
      { pose proof Hi' as (Hrg & Htop & Hdat & Hblk & _). unfold big_range in Hrg.
        rewrite (kind_big_stored v b h Hdat Htop) in Hk. injection Hk as <-.
        rewrite (len_deref v _ h (proj1 (view_big_info h vs v b L pl Hi'))) in Hl. injection Hl as <-.
        cbn [remote_overhead] in *. unfold BIG_HEADER_SIZE in *.
        split; [done|]. split; [done|].
        destruct (decide (b' = b)) as [|Hne]; [done|]. exfalso.
        apply (blocks_apart h vs b' _ b _ b b Hinv Hb' Hblk); cbn; (done || lia). }
      destruct Hkb as (-> & -> & ->).
      exists b, BigRemote, L. do 4 (split; [done|]). split.
      * intros H1. rewrite H1 in Hd. cbn in Hd. subst h'. done.
      * intros H1. split; [|exact (Hrest _ Hp H1)].
        replace (Z.of_nat (count_ptr b vs) =? 1) with false in Hd
          by (symmetry; apply Z.eqb_neq; lia). subst h'. done.
Qed.

(** C7 counterexample: [InlineArray::from(&[9; 64])] at 4096 and one
    clone of it give two live sharers with refcount 2.  [make_mut] on one
    of them copies nothing: below saturation the [InlineArray::from(&InlineArray)]
    of the privatisation branch is a [clone], whose increment the drop of
    the old value undoes, so the call returns the same value and the
    shared payload with the heap unchanged and the refcount still 2.
    Writing [slice[0] = 1] through that slice changes the view of the
    other clone too. *)
Lemma C7_counterexample :
  reachable (mkWorld ex_h64c [ex_v64; ex_v64])
  /\ refcount ex_v64 ex_h64c = Ok 2 ex_h64c
  /\ make_mut 8192 0 ex_v64 ex_h64c = Ok (ex_v64, SHeap 4096 64) ex_h64c
  /\ view ex_v64 ex_h64c = Ok ex_s64 ex_h64c
  /\ slice_writes ex_v64 (SHeap 4096 64) [(0, 1)] ex_h64c = Ok ex_v64 ex_h64w
  /\ reachable (mkWorld ex_h64w [ex_v64; ex_v64])
  /\ refcount ex_v64 ex_h64w = Ok 2 ex_h64w
  /\ [ex_v64; ex_v64] !! 1%nat = Some ex_v64
  /\ view ex_v64 ex_h64w = Ok (1 :: repeat 9 63) ex_h64w.
Proof.
  assert (Hr : reachable (mkWorld ex_h64c [ex_v64; ex_v64])) by reach_ex64c.
  assert (Hm : make_mut 8192 0 ex_v64 ex_h64c = Ok (ex_v64, SHeap 4096 64) ex_h64c)
    by (vm_compute; reflexivity).
  assert (Hw : slice_writes ex_v64 (SHeap 4096 64) [(0, 1)] ex_h64c = Ok ex_v64 ex_h64w)
    by (vm_compute; reflexivity).
  split; [exact Hr|]. split; [vm_compute; reflexivity|]. split; [exact Hm|].
  split; [vm_compute; reflexivity|]. split; [exact Hw|].
  split.
  - eapply reach_step; [exact Hr|].
    exact (StepMakeMut ex_h64c [ex_v64; ex_v64] 0 ex_v64 8192 0 ex_v64 (SHeap 4096 64) ex_h64c
             [(0, 1)] ex_v64 ex_h64w eq_refl Hm eq_refl Hw).
  - split; [vm_compute; reflexivity|]. split; [reflexivity|]. vm_compute; reflexivity.
Qed.

(** C8: for a live SmallRemote value, the pointer stored in the tagged
    word is the trailer address [b + L], where [b] is the 8-aligned base of
    the value's allocation (of layout [L + 2], alignment 8; the start of
    the view) and [L] the payload length; that address is 8-aligned
    exactly when [L] is a multiple of 8.  The tag is not kept in the
    pointer's low bits: the word is the pointer plus the tag times 2^56,
    i.e. the tag is or-ed into the low bits of byte 7 of the pointer's
    little-endian bytes, its most significant byte, and the assertion of
    construction found those three bits clear. *)
Theorem C8_small_trailer_pointer h vs v :
  reachable (mkWorld h vs) -> In v vs -> kind v h = Ok SmallRemote h ->
  exists b L, deref v h = Ok (SHeap b L) h /\ h_blocks h !! b = Some (mkLayout (L + 2) 8)
  /\ b mod 8 = 0 /\ 8 <= L <= 255
  /\ deref_small_trailer v h = Ok (b + L) h /\ remote_ptr v h = Ok (b + L) h
  /\ ((b + L) mod 8 = 0 <-> L mod 8 = 0)
  /\ le_to_Z (ia_data v) = b + L + SMALL_REMOTE_TRAILER_TAG * 2 ^ 56
  /\ Z.land (nth 7 (ptr_bytes (b + L)) 0) 7 = 0
  /\ Z.land (nth 7 (ia_data v) 0) TRAILER_TAG_MASK = SMALL_REMOTE_TRAILER_TAG.
Proof.
  intros Hr Hv Hk. pose proof (reachable_inv _ Hr) as Hinv.
  destruct (val_info h vs v Hinv Hv) as [(L & Hi) | [(b & L & pl & Hi) | (b & L & pl & Hi)]].
  - rewrite (kind_inline v L h) in Hk by apply Hi. discriminate.
  - pose proof Hi as (Hrg & Htop & Hd & Hblk & Hb0 & Hb8 & Hsz & _). unfold small_range in Hrg.
    exists b, L. split; [apply (view_small_info h vs v b L pl Hi)|].
    split; [done|]. split; [done|]. split; [done|].
    split; [apply (deref_small_trailer_stored v (b + L) h Hd ltac:(lia) Htop)|].
    split; [apply (remote_ptr_stored v (b + L) 1 h Hd ltac:(lia) Htop ltac:(lia))|].
    split.
    + assert (E : (b + L) mod 8 = L mod 8)
        by (rewrite Z.add_mod, Hb8 by lia; rewrite Z.add_0_l, Z.mod_mod by lia; done).
      rewrite E. done.
    + rewrite Hd. split; [apply le_to_Z_stored_word; (done || lia)|].
      split; [exact Htop|]. apply stored_word_trailer; (done || lia).
  - pose proof Hi as (_ & Htop & Hd & _).
    rewrite (kind_big_stored v b h Hd Htop) in Hk. discriminate.
Qed.

(** C8 counterexample: after [InlineArray::from(&[9; 9])] with the
    allocator answering 4096, the live SmallRemote value designates the
    trailer address 4105, which is not 8-aligned: the low three bits of
    its least significant byte are 001.  Its tagged word is 4105 + 2^56,
    the tag sitting at bit 56, in the most significant byte. *)
Lemma C8_counterexample :
  reachable (mkWorld ex_h9 [ex_v9])
  /\ kind ex_v9 ex_h9 = Ok SmallRemote ex_h9
  /\ deref_small_trailer ex_v9 ex_h9 = Ok 4105 ex_h9
  /\ remote_ptr ex_v9 ex_h9 = Ok 4105 ex_h9
  /\ 4105 mod 8 = 1
  /\ Z.land (nth 0 (ptr_bytes 4105) 0) 7 = 1
  /\ le_to_Z (ia_data ex_v9) = 4105 + 2 ^ 56.
Proof.
  split; [reach_ex9|].
  split; [|split; [|split; [|split; [|split]]]]; vm_compute; reflexivity.
Qed.

(** C9: for live values [v] and [w] with views [s] and [t]: [v == w] is
    [s = t]; [v] compared with a raw byte slice [r] is [s = r]; hashing
    [v] feeds any hasher exactly what hashing the byte slice [s] feeds it;
    and [v] borrows as [s]. *)
Theorem C9_eq_hash_by_view h vs v w :
  reachable (mkWorld h vs) -> In v vs -> In w vs ->
  exists s t, view v h = Ok s h /\ view w h = Ok t h
  /\ eq_ia v w h = Ok (bool_decide (s = t)) h
  /\ (forall r, eq_slice v r h = Ok (bool_decide (s = r)) h)
  /\ borrow v h = Ok s h
  /\ (forall (S : Type) (HS : Hasher S) (st : S), hash_ia v st h = Ok (hash_slice s st) h).
Proof.
  intros Hr Hv Hw. pose proof (reachable_inv _ Hr) as Hinv.
  destruct (view_live h vs v Hinv Hv) as (sl & s & Hd & Hvs & _).
  destruct (view_live h vs w Hinv Hw) as (slw & t & _ & Hwt & _).
  exists s, t. split; [done|]. split; [done|].
  split; [exact (eq_ia_views v w s t h Hvs Hwt)|].
  split; [intros r; exact (eq_slice_view v s r h Hvs)|].
  split; [done|]. intros S HS st. exact (hash_ia_view v sl s st h Hd Hvs).
Qed.

(** C10: a live value has tag [kind_tag (kind_of_len L)] in the low two
    bits of its last byte, where [L] is its length: [kind] decodes it to
    the variant [L] selects and never reaches the tag-3 branch; the kind
    assertions of the trailer, header and pointer accessors hold for the
    matching variant; [deref] and [drop] succeed; [clone] and [make_mut]
    never reach undefined behaviour or a kind assertion, and what they
    return (also through the saturation fallback of [clone], which is
    where [make_mut] gets a copy)
    has the same length and the same variant. *)
Theorem C10_tag_matches_length h vs v :
  reachable (mkWorld h vs) -> In v vs ->
  exists L, len v h = Ok L h /\ kind v h = Ok (kind_of_len L) h
  /\ Z.land (nth 7 (ia_data v) 0) TRAILER_TAG_MASK = kind_tag (kind_of_len L)
  /\ (kind_of_len L = SmallRemote -> deref_small_trailer v h = Ok (decode_ptr (ia_data v)) h)
  /\ (kind_of_len L = BigRemote -> deref_big_header v h = Ok (decode_ptr (ia_data v)) h)
  /\ (kind_of_len L <> Inline -> remote_ptr v h = Ok (decode_ptr (ia_data v)) h)
  /\ (exists sl, deref v h = Ok sl h)
  /\ (exists h', drop v h = Ok tt h')
  /\ (forall a n, clone a n v h <> UB /\ clone a n v h <> Panicked PAssertKind)
  /\ (forall a n v' h', clone a n v h = Ok v' h' ->
        kind v' h' = Ok (kind_of_len L) h' /\ len v' h' = Ok L h')
  /\ (forall a n, make_mut a n v h <> UB /\ make_mut a n v h <> Panicked PAssertKind)
  /\ (forall a n v' sl h1, make_mut a n v h = Ok (v', sl) h1 ->
        kind v' h1 = Ok (kind_of_len L) h1 /\ len v' h1 = Ok L h1).
Proof.
  intros Hr Hv. pose proof (reachable_inv _ Hr) as Hinv.
  destruct (In_lookup vs v Hv) as [i Hi].
  destruct (view_live h vs v Hinv Hv) as (sl & s & Hd & Hvs & Hsl).
  assert (Hkind : kind v h = Ok (kind_of_len (slice_len sl)) h
            /\ Z.land (nth 7 (ia_data v) 0) TRAILER_TAG_MASK = kind_tag (kind_of_len (slice_len sl))
            /\ (kind_of_len (slice_len sl) = SmallRemote ->
                  deref_small_trailer v h = Ok (decode_ptr (ia_data v)) h)
            /\ (kind_of_len (slice_len sl) = BigRemote ->
                  deref_big_header v h = Ok (decode_ptr (ia_data v)) h)
            /\ (kind_of_len (slice_len sl) <> Inline ->
                  remote_ptr v h = Ok (decode_ptr (ia_data v)) h)
            /\ exists h', drop v h = Ok tt h').
  { unfold kind_of_len, INLINE_CUTOFF, SZ, SMALL_REMOTE_CUTOFF.
    destruct (val_info h vs v Hinv Hv) as [(L & Hi') | [(b & L & pl & Hi') | (b & L & pl & Hi')]].
    - rewrite (proj2 (view_inline_eq v L h Hi')) in Hd. injection Hd as <-. cbn [slice_len].
      pose proof Hi' as (_ & HL & Ht & _).
      replace (L <=? 8 - 1) with true by (symmetry; apply Z.leb_le; lia).
      split; [apply (kind_inline v L h Ht HL)|].
      split; [exact (proj1 (inline_facts v L Ht HL))|].
      split; [discriminate|]. split; [discriminate|]. split; [done|].
      eexists. apply (drop_inline_eq v L h Hi').
    - rewrite (proj1 (view_small_info h vs v b L pl Hi')) in Hd. injection Hd as <-. cbn [slice_len].
      pose proof Hi' as (Hrg & Htop & Hdat & _ & Hb0 & _ & Hsz & _). unfold small_range in Hrg.
      replace (L <=? 8 - 1) with false by (symmetry; apply Z.leb_gt; lia).
      replace (L <=? 255) with true by (symmetry; apply Z.leb_le; lia).
      rewrite Hdat, (decode_stored (b + L) 1) by (done || lia).
      split; [apply (kind_small_stored v (b + L) h Hdat Htop)|].
      split; [apply stored_word_trailer; (done || lia)|].
      split; [intros _; apply (deref_small_trailer_stored v (b + L) h Hdat ltac:(lia) Htop)|].
      split; [discriminate|].
      split; [intros _; apply (remote_ptr_stored v (b + L) 1 h Hdat ltac:(lia) Htop ltac:(lia))|].
      eexists. apply (drop_small_eq h vs v b L pl Hi').
    - rewrite (proj1 (view_big_info h vs v b L pl Hi')) in Hd. injection Hd as <-. cbn [slice_len].
      pose proof Hi' as (Hrg & Htop & Hdat & _ & Hb0 & _ & Hsz & _). unfold big_range in Hrg.
      replace (L <=? 8 - 1) with false by (symmetry; apply Z.leb_gt; lia).
      replace (L <=? 255) with false by (symmetry; apply Z.leb_gt; lia).
      rewrite Hdat, (decode_stored b 2) by (done || lia).
      split; [apply (kind_big_stored v b h Hdat Htop)|].
      split; [apply stored_word_trailer; (done || lia)|].
      split; [discriminate|].
      split; [intros _; apply (deref_big_header_stored v b h Hdat ltac:(lia) Htop)|].
      split; [intros _; apply (remote_ptr_stored v b 2 h Hdat ltac:(lia) Htop ltac:(lia))|].
      eexists. apply (drop_big_eq h vs v b L pl Hi'). }
  destruct Hkind as (Hk & Htag & Hts & Hth & Hrp & Hdrop).
  exists (slice_len sl). split; [exact (len_deref v sl h Hd)|].
  do 7 (split; [done || (eexists; exact Hd)|]).
  split; [intros a n; exact (clone_no_ub h vs v a n Hinv Hv)|].
  split; [|split].
  - intros a n v' h' Hcl. split; [exact (clone_kind h vs v a n _ v' h' Hinv Hv Hk Hcl)|].
    pose proof (inv_clone h vs i v a n v' h' Hinv Hi Hcl) as Hinv1.
    destruct (view_live h' (vs ++ [v']) v' Hinv1 ltac:(apply in_or_app; right; left; done))
      as (sl' & s' & Hd' & Hvs' & Hsl').
    destruct (clone_view h vs v a n v' h' Hinv Hv Hcl) as (s0 & Hs0 & Hs0' & _).
    rewrite Hvs in Hs0. injection Hs0 as <-. rewrite Hvs' in Hs0'. injection Hs0' as ->.
    rewrite (len_deref v' sl' h' Hd'). congruence.
  - intros a n. pose proof (make_mut_outcome_live h vs i v a n Hinv Hi) as Ho.
    split; intros E; rewrite E in Ho; cbn in Ho; [done|destruct Ho; discriminate].
  - intros a n v' sl1 h1 Hmk.
    destruct (make_mut_spec h vs i v a n v' sl1 h1 Hinv Hi Hmk)
      as (Hinv1 & Hder & (s1 & Hvu & Hvv & _) & _ & Hkk).
    split; [exact (Hkk _ Hk)|].
    assert (Hi1 : <[i := v']> vs !! i = Some v').
    { apply list_lookup_insert_eq. by apply lookup_lt_Some in Hi. }
    destruct (view_live h1 _ v' Hinv1 (lookup_In _ _ _ Hi1)) as (sl' & s' & Hd' & Hvs' & Hsl').
    rewrite Hder in Hd'. injection Hd' as <-. rewrite Hvv in Hvs'. injection Hvs' as <-.
    rewrite Hvs in Hvu. injection Hvu as <-.
    rewrite (len_deref v' sl1 h1 Hder). congruence.
Qed.

Lemma C6_witness :
  (forall v p, In v [ex_v64; ex_v64] -> heap_ptr v = Some p ->
     refcount v ex_h64c = Ok (Z.of_nat (count_ptr p [ex_v64; ex_v64])) ex_h64c /\ (1 <= count_ptr p [ex_v64; ex_v64])%nat
     /\ exists b k L, kind v ex_h64c = Ok k ex_h64c /\ len v ex_h64c = Ok L ex_h64c
        /\ h_blocks ex_h64c !! b = Some (mkLayout (L + remote_overhead k) 8)
        /\ b <= p < b + L + remote_overhead k)
  /\ (forall b l, h_blocks ex_h64c !! b = Some l ->
        lay_align l = 8 /\ exists v p, In v [ex_v64; ex_v64] /\ heap_ptr v = Some p /\ b <= p < b + lay_size l)
  /\ (forall a s v h', new a s ex_h64c = Ok v h' -> forall p, heap_ptr v = Some p -> refcount v h' = Ok 1 h')
  /\ (forall i v h', [ex_v64; ex_v64] !! i = Some v -> drop v ex_h64c = Ok tt h' ->
        (heap_ptr v = None -> h' = ex_h64c)
        /\ forall p, heap_ptr v = Some p ->
             exists b k L, kind v ex_h64c = Ok k ex_h64c /\ len v ex_h64c = Ok L ex_h64c
             /\ h_blocks ex_h64c !! b = Some (mkLayout (L + remote_overhead k) 8)
             /\ b <= p < b + L + remote_overhead k
             /\ (count_ptr p [ex_v64; ex_v64] = 1%nat -> h_blocks h' = delete b (h_blocks ex_h64c))
             /\ (count_ptr p [ex_v64; ex_v64] <> 1%nat ->
                   h_blocks h' = h_blocks ex_h64c
                   /\ forall w, In w (delete i [ex_v64; ex_v64]) -> heap_ptr w = Some p ->
                        refcount w h' = Ok (Z.of_nat (count_ptr p [ex_v64; ex_v64]) - 1) h')).
Proof.
  apply (C6_refcount_counts_sharers ex_h64c [ex_v64; ex_v64]). reach_ex64c.
Defined.

Lemma C8_witness :
  exists b L, deref ex_v9 ex_h9 = Ok (SHeap b L) ex_h9 /\ h_blocks ex_h9 !! b = Some (mkLayout (L + 2) 8)
  /\ b mod 8 = 0 /\ 8 <= L <= 255
  /\ deref_small_trailer ex_v9 ex_h9 = Ok (b + L) ex_h9 /\ remote_ptr ex_v9 ex_h9 = Ok (b + L) ex_h9
  /\ ((b + L) mod 8 = 0 <-> L mod 8 = 0)
  /\ le_to_Z (ia_data ex_v9) = b + L + SMALL_REMOTE_TRAILER_TAG * 2 ^ 56
  /\ Z.land (nth 7 (ptr_bytes (b + L)) 0) 7 = 0
  /\ Z.land (nth 7 (ia_data ex_v9) 0) TRAILER_TAG_MASK = SMALL_REMOTE_TRAILER_TAG.
Proof.
  apply (C8_small_trailer_pointer ex_h9 [ex_v9] ex_v9).
  - reach_ex9.
  - left; reflexivity.
  - vm_compute; reflexivity.
Defined.

Lemma C9_witness :
  exists s t, view ex_v64 ex_h64c = Ok s ex_h64c /\ view ex_v64 ex_h64c = Ok t ex_h64c
  /\ eq_ia ex_v64 ex_v64 ex_h64c = Ok (bool_decide (s = t)) ex_h64c
  /\ (forall r, eq_slice ex_v64 r ex_h64c = Ok (bool_decide (s = r)) ex_h64c)
  /\ borrow ex_v64 ex_h64c = Ok s ex_h64c
  /\ (forall (S : Type) (HS : Hasher S) (st : S), hash_ia ex_v64 st ex_h64c = Ok (hash_slice s st) ex_h64c).
Proof.
  apply (C9_eq_hash_by_view ex_h64c [ex_v64; ex_v64] ex_v64 ex_v64).
  - reach_ex64c.
  - left; reflexivity.
  - right; left; reflexivity.
Defined.

Lemma C10_witness :
  exists L, len ex_v64 ex_h64c = Ok L ex_h64c /\ kind ex_v64 ex_h64c = Ok (kind_of_len L) ex_h64c
  /\ Z.land (nth 7 (ia_data ex_v64) 0) TRAILER_TAG_MASK = kind_tag (kind_of_len L)
  /\ (kind_of_len L = SmallRemote -> deref_small_trailer ex_v64 ex_h64c = Ok (decode_ptr (ia_data ex_v64)) ex_h64c)
  /\ (kind_of_len L = BigRemote -> deref_big_header ex_v64 ex_h64c = Ok (decode_ptr (ia_data ex_v64)) ex_h64c)
  /\ (kind_of_len L <> Inline -> remote_ptr ex_v64 ex_h64c = Ok (decode_ptr (ia_data ex_v64)) ex_h64c)
  /\ (exists sl, deref ex_v64 ex_h64c = Ok sl ex_h64c)
  /\ (exists h', drop ex_v64 ex_h64c = Ok tt h')
  /\ (forall a n, clone a n ex_v64 ex_h64c <> UB /\ clone a n ex_v64 ex_h64c <> Panicked PAssertKind)
  /\ (forall a n v' h', clone a n ex_v64 ex_h64c = Ok v' h' ->
        kind v' h' = Ok (kind_of_len L) h' /\ len v' h' = Ok L h')
  /\ (forall a n, make_mut a n ex_v64 ex_h64c <> UB /\ make_mut a n ex_v64 ex_h64c <> Panicked PAssertKind)
  /\ (forall a n v' sl h1, make_mut a n ex_v64 ex_h64c = Ok (v', sl) h1 ->
        kind v' h1 = Ok (kind_of_len L) h1 /\ len v' h1 = Ok L h1).
Proof.
  apply (C10_tag_matches_length ex_h64c [ex_v64; ex_v64] ex_v64).
  - reach_ex64c.
  - left; reflexivity.
Defined.

(** * Further properties of the code *)

Lemma slice_cmp_eq_iff a b : slice_cmp a b = Eq <-> a = b.
Proof.
  revert b; induction a as [|x a IH]; intros [|y b]; cbn; try (split; congruence).
  destruct (Z.compare_spec x y) as [->|Hlt|Hgt].
  - rewrite IH. split; [intros ->; done|intros [=]; done].
  - split; [discriminate|intros [= ->]; lia].
  - split; [discriminate|intros [= ->]; lia].
Qed.

Lemma slice_cmp_opp a b : slice_cmp b a = CompOpp (slice_cmp a b).
Proof.
  revert b; induction a as [|x a IH]; intros [|y b]; cbn; try done.
  destruct (Z.compare_spec x y) as [->|H|H]; [rewrite Z.compare_refl; apply IH| |].
  - rewrite (proj2 (Z.compare_gt_iff y x) H). done.
  - rewrite (proj2 (Z.compare_lt_iff y x) H). done.
Qed.

Lemma slice_cmp_trans_lt a b c : slice_cmp a b = Lt -> slice_cmp b c = Lt -> slice_cmp a c = Lt.
Proof.
  revert b c; induction a as [|x a IH]; intros [|y b] [|z c]; cbn; try done.
  destruct (Z.compare_spec x y) as [Exy|Lxy|Gxy], (Z.compare_spec y z) as [Eyz|Lyz|Gyz];
    try discriminate; intros H1 H2;
    destruct (Z.compare_spec x z); try done; try lia; eauto.
Qed.

Lemma slice_cmp_refl a : slice_cmp a a = Eq.
Proof. by apply slice_cmp_eq_iff. Qed.

Lemma cmp_views v w s t h :
  view v h = Ok s h -> view w h = Ok t h -> cmp v w h = Ok (slice_cmp s t) h.
Proof. intros Hv Hw. unfold cmp. rewrite (bind_Ok _ _ _ _ _ Hv), (bind_Ok _ _ _ _ _ Hw). done. Qed.

Lemma partial_cmp_views v w s t h :
  view v h = Ok s h -> view w h = Ok t h -> partial_cmp v w h = Ok (Some (slice_cmp s t)) h.
Proof. intros Hv Hw. unfold partial_cmp. rewrite (bind_Ok _ _ _ _ _ (cmp_views v w s t h Hv Hw)). done. Qed.

(** [Ord::cmp] on two live values is the lexicographic order of their
    read views, [partial_cmp] always returns [Some] of it, and [cmp]
    answers [Equal] exactly when [==] answers [true]. *)
Theorem cmp_lexicographic h vs v w :
  reachable (mkWorld h vs) -> In v vs -> In w vs ->
  exists s t, view v h = Ok s h /\ view w h = Ok t h
  /\ cmp v w h = Ok (slice_cmp s t) h
  /\ partial_cmp v w h = Ok (Some (slice_cmp s t)) h
  /\ (cmp v w h = Ok Eq h <-> eq_ia v w h = Ok true h).
Proof.
  intros Hr Hv Hw. pose proof (reachable_inv _ Hr) as Hinv.
  destruct (view_live h vs v Hinv Hv) as (_ & s & _ & Hs & _).
  destruct (view_live h vs w Hinv Hw) as (_ & t & _ & Ht & _).
  exists s, t. do 2 (split; [done|]).
  rewrite (cmp_views v w s t h Hs Ht), (partial_cmp_views v w s t h Hs Ht), (eq_ia_views v w s t h Hs Ht).
  split; [done|]. split; [done|].
  split.
  - intros [= E]. apply slice_cmp_eq_iff in E. rewrite bool_decide_eq_true_2 by done. done.
  - intros [= E]. apply bool_decide_eq_true_1 in E. subst. rewrite slice_cmp_refl. done.
Qed.

(** On live values [cmp] is a total order: every value is [Equal] to
    itself, swapping the operands reverses the answer, and [Less] is
    transitive. *)
Theorem cmp_total_order h vs u v w :
  reachable (mkWorld h vs) -> In u vs -> In v vs -> In w vs ->
  cmp u u h = Ok Eq h
  /\ (forall c, cmp u v h = Ok c h -> cmp v u h = Ok (CompOpp c) h)
  /\ (cmp u v h = Ok Lt h -> cmp v w h = Ok Lt h -> cmp u w h = Ok Lt h)
  /\ exists c, cmp u v h = Ok c h.
Proof.
  intros Hr Hu Hv Hw. pose proof (reachable_inv _ Hr) as Hinv.
  destruct (view_live h vs u Hinv Hu) as (_ & s & _ & Hs & _).
  destruct (view_live h vs v Hinv Hv) as (_ & t & _ & Ht & _).
  destruct (view_live h vs w Hinv Hw) as (_ & r & _ & Hrr & _).
  rewrite (cmp_views u u s s h Hs Hs), (cmp_views u v s t h Hs Ht), (cmp_views v u t s h Ht Hs),
    (cmp_views v w t r h Ht Hrr), (cmp_views u w s r h Hs Hrr).
  split; [rewrite slice_cmp_refl; done|].
  split; [intros c [= <-]; rewrite slice_cmp_opp; done|].
  split; [intros [= H1] [= H2]; rewrite (slice_cmp_trans_lt s t r H1 H2); done|].
  eexists; done.
Qed.

(** [InlineArray::default()] is the all-zero Inline word: its view is
    empty, its [len()] is 0, it points to no allocation, neither its
    construction nor its drop touches the heap, and the allocator's
    answer is never used. *)
Theorem default_empty_inline a h :
  exists v, default_ia a h = Ok v h /\ ia_data v = repeat 0 8
  /\ kind v h = Ok Inline h /\ view v h = Ok [] h /\ len v h = Ok 0 h
  /\ heap_ptr v = None /\ drop v h = Ok tt h.
Proof. eexists. repeat split; reflexivity. Qed.

Lemma as_bytes_ok s : bytes_ok (as_bytes s) = true.
Proof.
  unfold bytes_ok, as_bytes. apply forallb_forall. intros x Hx.
  apply in_map_iff in Hx as (c & <- & _). pose proof (Ascii.nat_ascii_bounded c).
  unfold is_byte. apply andb_true_intro. split; [apply Z.leb_le|apply Z.ltb_lt]; lia.
Qed.

Lemma as_bytes_inj s1 s2 : as_bytes s1 = as_bytes s2 -> s1 = s2.
Proof.
  unfold as_bytes. intros E.
  rewrite <- (String.string_of_list_ascii_of_string s1), <- (String.string_of_list_ascii_of_string s2).
  f_equal. revert E. generalize (String.list_ascii_of_string s2).
  induction (String.list_ascii_of_string s1) as [|c l IH]; intros [|c' l'] E; try discriminate; [done|].
  cbn in E. injection E as Ec El. f_equal; [|by apply IH].
  rewrite <- (Ascii.ascii_nat_embedding c), <- (Ascii.ascii_nat_embedding c'). f_equal. lia.
Qed.

(** Two values built by [From<&str>] one after the other are live, read
    back the bytes of their strings, and compare equal exactly when the
    strings are equal. *)
Theorem from_str_eq h vs a1 a2 s1 s2 v1 h1 v2 h2 :
  reachable (mkWorld h vs) -> from_str a1 s1 h = Ok v1 h1 -> from_str a2 s2 h1 = Ok v2 h2 ->
  reachable (mkWorld h2 (vs ++ [v1; v2]))
  /\ view v1 h2 = Ok (as_bytes s1) h2 /\ view v2 h2 = Ok (as_bytes s2) h2
  /\ eq_ia v1 v2 h2 = Ok (String.eqb s1 s2) h2.
Proof.
  intros Hr H1 H2. unfold from_str in H1, H2.
  assert (Hr1 : reachable (mkWorld h1 (vs ++ [v1])))
    by (eapply reach_step; [exact Hr|]; apply StepNew with (a := a1) (s := as_bytes s1); [apply as_bytes_ok|done]).
  assert (Hr2 : reachable (mkWorld h2 ((vs ++ [v1]) ++ [v2])))
    by (eapply reach_step; [exact Hr1|]; apply StepNew with (a := a2) (s := as_bytes s2); [apply as_bytes_ok|done]).
  rewrite <- app_assoc in Hr2. split; [exact Hr2|].
  pose proof (reachable_inv _ Hr1) as Hinv1.
  pose proof (proj1 (new_view _ _ _ _ _ H1)) as Hv1.
  pose proof (view_new_frame h1 (vs ++ [v1]) v1 _ a2 _ v2 h2 Hinv1
                ltac:(apply in_or_app; right; left; done) Hv1 H2) as Hv1'.
  pose proof (proj1 (new_view _ _ _ _ _ H2)) as Hv2.
  split; [done|]. split; [done|].
  rewrite (eq_ia_views v1 v2 _ _ h2 Hv1' Hv2). f_equal.
  destruct (String.eqb_spec s1 s2) as [->|Hne]; [by apply bool_decide_eq_true_2|].
  apply bool_decide_eq_false_2. intros E. apply Hne, as_bytes_inj, E.
Qed.

Lemma lookup_snoc_last (vs : list InlineArray) x : (vs ++ [x]) !! length vs = Some x.
Proof. rewrite lookup_app_r by lia. rewrite Nat.sub_diag. done. Qed.

Lemma delete_snoc_last (vs : list InlineArray) x : delete (length vs) (vs ++ [x]) = vs.
Proof. rewrite (delete_middle vs [] x). apply app_nil_r. Qed.

Lemma drop_live h vs u : inv (mkWorld h vs) -> In u vs -> exists h', drop u h = Ok tt h'.
Proof.
  intros Hinv Hu.
  destruct (val_info h vs u Hinv Hu) as [(L & Hi) | [(b & L & pl & Hi) | (b & L & pl & Hi)]];
    eexists; [apply (drop_inline_eq u L h Hi)|apply (drop_small_eq h vs u b L pl Hi)
             |apply (drop_big_eq h vs u b L pl Hi)].
Qed.

Lemma deref_aligned h vs v :
  inv (mkWorld h vs) -> In v vs ->
  exists sl, deref v h = Ok sl h /\ forall x, x mod 8 = 0 -> slice_ptr x sl mod 8 = 0.
Proof.
  intros Hinv Hv.
  destruct (val_info h vs v Hinv Hv) as [(L & Hi) | [(b & L & pl & Hi) | (b & L & pl & Hi)]].
  - exists (SInline L). split; [apply (view_inline_eq v L h Hi)|]. intros x Hx. done.
  - exists (SHeap b L). split; [apply (view_small_info h vs v b L pl Hi)|]. intros x _.
    destruct Hi as (_ & _ & _ & _ & _ & Hb8 & _). done.
  - exists (SHeap (b + 8) L). split; [apply (view_big_info h vs v b L pl Hi)|]. intros x _.
    destruct Hi as (_ & _ & _ & _ & _ & Hb8 & _). cbn [slice_ptr].
    rewrite Z.add_mod, Hb8 by lia. done.
Qed.

Lemma new_panic_kinds a s h p :
  new a s h = Panicked p ->
  p = PAllocNull \/ p = PAssertAlign \/ (2 ^ 48 <= Z.of_nat (length s) /\ (p = PUnwrap \/ p = PAssertLen)).
Proof.
  intros Hn.
  destruct (decide (length s <= 7)%nat) as [Hi|Hi].
  { destruct (new_inline a s h Hi) as (v0 & Hn' & _). congruence. }
  destruct (decide (Z.of_nat (length s) <= 255)) as [Hsm|Hsm].
  { rewrite new_small_eq in Hn by (unfold small_range; lia). cbv zeta in Hn.
    destruct (alloc_fresh h _ a); [destruct (_ =? 0)|]; try discriminate; injection Hn as <-; tauto. }
  destruct (decide (Z.of_nat (length s) < 2 ^ 48)) as [Hb|Hb].
  { rewrite new_big_eq in Hn by (unfold big_range; lia). cbv zeta in Hn.
    destruct (alloc_fresh h _ a); [destruct (_ =? 0)|]; try discriminate; injection Hn as <-; tauto. }
  destruct (new_huge a s h ltac:(lia)) as [p' [Hp Hp']]. rewrite Hp in Hn. injection Hn as <-.
  right; right. split; [lia|done].
Qed.

Lemma info_payload_small h vs u b L pl : small_info h vs u b L pl -> Z.of_nat (length pl) = L.
Proof. intros (Hr & _ & _ & _ & _ & _ & _ & _ & (_ & _ & Hpl) & _). apply mem_read_spec in Hpl as [Hl _]. unfold small_range in Hr. lia. Qed.

Lemma info_payload_big h vs u b L pl : big_info h vs u b L pl -> Z.of_nat (length pl) = L.
Proof. intros (Hr & _ & _ & _ & _ & _ & _ & _ & (_ & _ & Hpl) & _). apply mem_read_spec in Hpl as [Hl _]. unfold big_range in Hr. lia. Qed.

Lemma clone_panic_kinds h vs v a n p :
  inv (mkWorld h vs) -> In v vs -> clone a n v h = Panicked p -> p = PAllocNull \/ p = PAssertAlign.
Proof.
  intros Hinv Hv Hc.
  destruct (val_info h vs v Hinv Hv) as [(L & Hi) | [(b & L & pl & Hi) | (b & L & pl & Hi)]].
  - rewrite (clone_inline_eq a n v L h Hi) in Hc. discriminate.
  - rewrite (clone_small_eq a n h vs v b L pl Hi) in Hc. destruct (_ =? U8_MAX); [|discriminate].
    pose proof (info_payload_small _ _ _ _ _ _ Hi). pose proof Hi as (Hr & _). unfold small_range in Hr.
    destruct (new_panic_kinds a pl h p Hc) as [|[|[? _]]]; [tauto|tauto|lia].
  - rewrite (clone_big_eq a n h vs v b L pl Hi) in Hc. destruct (_ =? U16_MAX); [|discriminate].
    pose proof (info_payload_big _ _ _ _ _ _ Hi). pose proof Hi as (Hr & _). unfold big_range in Hr.
    destruct (new_panic_kinds a pl h p Hc) as [|[|[? _]]]; [tauto|tauto|lia].
Qed.

Lemma clone_keeps_views h vs v a n v' h' :
  inv (mkWorld h vs) -> In v vs -> clone a n v h = Ok v' h' ->
  forall w t, In w vs -> view w h = Ok t h -> view w h' = Ok t h'.
Proof.
  intros Hinv Hv Hcl w t Hw Ht.
  destruct (val_info h vs v Hinv Hv) as [(L & Hi) | [(b & L & pl & Hi) | (b & L & pl & Hi)]].
  - rewrite (clone_inline_eq a n v L h Hi) in Hcl. injection Hcl as _ <-. done.
  - rewrite (clone_small_eq a n h vs v b L pl Hi) in Hcl. destruct (_ =? U8_MAX).
    + apply (view_new_frame h vs w t a pl v' h' Hinv Hw Ht Hcl).
    + injection Hcl as _ <-.
      apply (view_store_trailer h vs v b L pl (Z.of_nat (count_ptr (b + L) vs) + 1) w t Hinv Hi Hw Ht).
  - rewrite (clone_big_eq a n h vs v b L pl Hi) in Hcl. destruct (_ =? U16_MAX).
    + apply (view_new_frame h vs w t a pl v' h' Hinv Hw Ht Hcl).
    + injection Hcl as _ <-.
      apply (view_store_header h vs v b L pl (Z.of_nat (count_ptr b vs) + 1) w t Hinv Hi Hw Ht).
Qed.

Lemma outside_block h vs b l bw lw y :
  inv (mkWorld h vs) -> h_blocks h !! b = Some l -> h_blocks h !! bw = Some lw ->
  bw <= y < bw + lay_size lw -> bw <> b -> y < b \/ b + lay_size l <= y.
Proof.
  intros Hinv Hb Hbw Hy Hne. destruct (decide (b <= y < b + lay_size l)) as [Hin|]; [|lia].
  exfalso. apply (blocks_apart h vs bw lw b l y y Hinv Hbw Hb Hy Hin Hne). done.
Qed.

Lemma drop_keeps_views h vs i u h' :
  inv (mkWorld h vs) -> vs !! i = Some u -> drop u h = Ok tt h' ->
  forall j w t, j <> i -> vs !! j = Some w -> view w h = Ok t h -> view w h' = Ok t h'.
Proof.
  intros Hinv Hi Hdr j w t Hji Hj Ht.
  pose proof (lookup_In _ _ _ Hi) as Hu. pose proof (lookup_In _ _ _ Hj) as Hw.
  destruct (val_info h vs u Hinv Hu) as [(L & Hui) | [(b & L & pl & Hui) | (b & L & pl & Hui)]].
  - rewrite (drop_inline_eq u L h Hui) in Hdr. injection Hdr as <-. done.
  - pose proof (drop_small_eq h vs u b L pl Hui) as Hd. cbv zeta in Hd. rewrite Hdr in Hd.
    injection Hd as Hd.
    pose proof (info_block_small _ _ _ _ _ _ Hui) as Hblk.
    pose proof Hui as (Hr & _). unfold small_range in Hr.
    destruct (Z.of_nat (count_ptr (b + L) vs) =? 1) eqn:E1.
    + apply Z.eqb_eq in E1. subst h'.
      apply (view_preserved h vs w t _ Hinv Hw Ht).
      * intros bw Lw plw Hwi y Hy _. cbn [h_mem].
        pose proof (info_block_small _ _ _ _ _ _ Hwi) as Hbw.
        assert (Hne : bw <> b).
        { intros ->. rewrite Hblk in Hbw. injection Hbw as HL. assert (Lw = L) as -> by lia.
          pose proof (count_two (b + L) vs i j u w Hi Hj (not_eq_sym Hji)
                        (small_info_ptr _ _ _ _ _ _ Hui) (small_info_ptr _ _ _ _ _ _ Hwi)). lia. }
        pose proof (outside_block h vs b _ bw _ y Hinv Hblk Hbw ltac:(cbn; lia) Hne) as Hy'.
        cbn [lay_size] in Hy'.
        rewrite lookup_range_delete_out by lia. rewrite lookup_insert_ne by lia. done.
      * intros bw Lw plw Hwi y Hy. cbn [h_mem].
        pose proof (info_block_big _ _ _ _ _ _ Hwi) as Hbw.
        pose proof Hwi as (Hrw & _). unfold big_range in Hrw.
        assert (Hne : bw <> b) by (intros ->; rewrite Hblk in Hbw; injection Hbw; lia).
        pose proof (outside_block h vs b _ bw _ y Hinv Hblk Hbw ltac:(cbn; lia) Hne) as Hy'.
        cbn [lay_size] in Hy'.
        rewrite lookup_range_delete_out by lia. rewrite lookup_insert_ne by lia. done.
    + apply Z.eqb_neq in E1. subst h'.
      apply (view_store_trailer h vs u b L pl _ w t Hinv Hui Hw Ht).
  - pose proof (drop_big_eq h vs u b L pl Hui) as Hd. cbv zeta in Hd. rewrite Hdr in Hd.
    injection Hd as Hd.
    pose proof (info_block_big _ _ _ _ _ _ Hui) as Hblk.
    pose proof Hui as (Hr & _). unfold big_range in Hr.
    destruct (Z.of_nat (count_ptr b vs) =? 1) eqn:E1.
    + apply Z.eqb_eq in E1. subst h'.
      apply (view_preserved h vs w t _ Hinv Hw Ht).
      * intros bw Lw plw Hwi y Hy _. cbn [h_mem].
        pose proof (info_block_small _ _ _ _ _ _ Hwi) as Hbw.
        pose proof Hwi as (Hrw & _). unfold small_range in Hrw.
        assert (Hne : bw <> b) by (intros ->; rewrite Hblk in Hbw; injection Hbw; lia).
        pose proof (outside_block h vs b _ bw _ y Hinv Hblk Hbw ltac:(cbn; lia) Hne) as Hy'.
        cbn [lay_size] in Hy'.
        rewrite lookup_range_delete_out by lia. rewrite !lookup_insert_ne by lia. done.
      * intros bw Lw plw Hwi y Hy. cbn [h_mem].
        pose proof (info_block_big _ _ _ _ _ _ Hwi) as Hbw.
        assert (Hne : bw <> b).
        { intros ->. rewrite Hblk in Hbw. injection Hbw as HL. assert (Lw = L) as -> by lia.
          pose proof (count_two b vs i j u w Hi Hj (not_eq_sym Hji)
                        (big_info_ptr _ _ _ _ _ _ Hui) (big_info_ptr _ _ _ _ _ _ Hwi)). lia. }
        pose proof (outside_block h vs b _ bw _ y Hinv Hblk Hbw ltac:(cbn; lia) Hne) as Hy'.
        cbn [lay_size] in Hy'.
        rewrite lookup_range_delete_out by lia. rewrite !lookup_insert_ne by lia. done.
    + apply Z.eqb_neq in E1. subst h'.
      apply (view_store_header h vs u b L pl _ w t Hinv Hui Hw Ht).
Qed.

(** Dropping a live value leaves a reachable world and changes the read
    view of no other live value, also when it frees the allocation. *)
Theorem drop_preserves_others h vs i u h' :
  reachable (mkWorld h vs) -> vs !! i = Some u -> drop u h = Ok tt h' ->
  reachable (mkWorld h' (delete i vs))
  /\ forall j w t, j <> i -> vs !! j = Some w -> view w h = Ok t h -> view w h' = Ok t h'.
Proof.
  intros Hr Hi Hdr. split.
  - eapply reach_step; [exact Hr|]. apply (StepDrop h vs i u h' Hi Hdr).
  - exact (drop_keeps_views h vs i u h' (reachable_inv _ Hr) Hi Hdr).
Qed.

Lemma make_mut_in_place h vs u a n :
  inv (mkWorld h vs) -> In u vs ->
  (heap_ptr u = None \/ refcount u h = Ok 1 h) ->
  exists sl, deref u h = Ok sl h /\ make_mut a n u h = Ok (u, sl) h.
Proof.
  intros Hinv Hu Hone. destruct (In_lookup vs u Hu) as [i Hi].
  apply (make_mut_no_copy h vs i u a n Hinv Hi). intros k Hk.
  destruct Hone as [Hn|Hone]; [|rewrite Hone; intros [= H1]; destruct k; discriminate].
  destruct (val_info h vs u Hinv Hu) as [(L & Hui) | [(b & L & pl & Hui) | (b & L & pl & Hui)]].
  - pose proof Hui as (_ & HL & Ht & _). unfold refcount, bind.
    rewrite (kind_inline u L h Ht HL). discriminate.
  - rewrite (small_info_ptr _ _ _ _ _ _ Hui) in Hn. discriminate.
  - rewrite (big_info_ptr _ _ _ _ _ _ Hui) in Hn. discriminate.
Qed.

(** [make_mut] on a live Inline value, or on a heap value whose refcount
    is 1, copies nothing: it returns the value itself with the slice
    [deref] gives, leaves the heap unchanged and never uses the
    allocator's answer. *)
Theorem make_mut_unshared_in_place h vs u a n :
  reachable (mkWorld h vs) -> In u vs ->
  (heap_ptr u = None \/ refcount u h = Ok 1 h) ->
  exists sl, deref u h = Ok sl h /\ make_mut a n u h = Ok (u, sl) h.
Proof. intros Hr. exact (make_mut_in_place h vs u a n (reachable_inv _ Hr)). Qed.

(** Two live values that store the same heap pointer are the same word. *)
Lemma sharers_equal h vs u w p :
  inv (mkWorld h vs) -> In u vs -> In w vs -> heap_ptr u = Some p -> heap_ptr w = Some p -> w = u.
Proof.
  intros Hinv Hu Hw Hpu Hpw.
  destruct (val_info h vs u Hinv Hu) as [(L & Hui) | [(b & L & pl & Hui) | (b & L & pl & Hui)]];
  [rewrite (inline_info_ptr u L Hui) in Hpu; discriminate| |];
  (destruct (val_info h vs w Hinv Hw) as [(Lw & Hwi) | [(bw & Lw & plw & Hwi) | (bw & Lw & plw & Hwi)]];
   [rewrite (inline_info_ptr w Lw Hwi) in Hpw; discriminate| |]).
  - rewrite (small_info_ptr _ _ _ _ _ _ Hui) in Hpu. rewrite (small_info_ptr _ _ _ _ _ _ Hwi) in Hpw.
    pose proof Hui as (_ & _ & Hdu & _). pose proof Hwi as (_ & _ & Hdw & _).
    rewrite <- (mkIA_eta u), <- (mkIA_eta w), Hdu, Hdw. congruence.
  - rewrite (small_info_ptr _ _ _ _ _ _ Hui) in Hpu. rewrite (big_info_ptr _ _ _ _ _ _ Hwi) in Hpw.
    pose proof Hui as (Hr & _). pose proof Hwi as (Hrw & _). unfold small_range in Hr. unfold big_range in Hrw.
    rewrite <- Hpw in Hpu. injection Hpu as Hpu.
    exfalso. apply (small_info_other h vs u b L pl w bw Lw plw bw Hinv Hui Hwi); lia.
  - rewrite (big_info_ptr _ _ _ _ _ _ Hui) in Hpu. rewrite (small_info_ptr _ _ _ _ _ _ Hwi) in Hpw.
    pose proof Hui as (Hr & _). pose proof Hwi as (Hrw & _). unfold big_range in Hr. unfold small_range in Hrw.
    rewrite <- Hpw in Hpu. injection Hpu as Hpu.
    exfalso. apply (small_info_other h vs w bw Lw plw u b L pl b Hinv Hwi Hui); lia.
  - rewrite (big_info_ptr _ _ _ _ _ _ Hui) in Hpu. rewrite (big_info_ptr _ _ _ _ _ _ Hwi) in Hpw.
    pose proof Hui as (_ & _ & Hdu & _). pose proof Hwi as (_ & _ & Hdw & _).
    rewrite <- (mkIA_eta u), <- (mkIA_eta w), Hdu, Hdw. congruence.
Qed.

(** Writes through a heap slice store into the allocation and return the
    value itself. *)
Lemma slice_writes_heap_same v q L ws h v'' h' :
  slice_writes v (SHeap q L) ws h = Ok v'' h' -> v'' = v.
Proof.
  revert h; induction ws as [|[j x] ws IH]; intros h Hsw.
  - cbn in Hsw. unfold ret in Hsw. congruence.
  - cbn [slice_writes] in Hsw. unfold bind in Hsw.
    destruct (slice_write v (SHeap q L) j x h) as [v1 h1| |] eqn:E1; try discriminate.
    cbn [slice_write] in E1. destruct ((0 <=? j) && (j <? L)); [|discriminate].
    unfold bind in E1. destruct (store (q + j) x h) as [[] h0| |]; try discriminate.
    unfold ret in E1. injection E1 as <- <-. exact (IH _ Hsw).
Qed.

Lemma holds_view h vs v sl s : holds h vs v sl s -> deref v h = Ok sl h /\ view v h = Ok s h.
Proof.
  intros [(n & -> & Hi & ->) | [(b & L & -> & Hi) | (b & L & -> & Hi)]].
  - destruct (view_inline_eq v n h Hi). done.
  - apply (view_small_info h vs v b L s Hi).
  - apply (view_big_info h vs v b L s Hi).
Qed.

(** [make_mut] on a live heap value whose refcount [c] is below the
    saturation value of its variant copies nothing, even when [c] is 2 or
    more: it returns the value itself with the slice [deref] gives and
    leaves the heap unchanged.  Every sharer of the allocation is the same
    word as the value, so writes through the returned slice are seen by
    all of them, and the refcount stays [c]. *)
Theorem make_mut_shared_no_copy h vs i u p k c a n :
  reachable (mkWorld h vs) -> vs !! i = Some u -> heap_ptr u = Some p ->
  kind u h = Ok k h -> refcount u h = Ok c h -> c <> rc_max k ->
  exists sl s, deref u h = Ok sl h /\ view u h = Ok s h /\ make_mut a n u h = Ok (u, sl) h
  /\ (forall w, In w vs -> heap_ptr w = Some p -> w = u)
  /\ forall ws v'' h', forallb (fun w => is_byte (snd w)) ws = true ->
       slice_writes u sl ws h = Ok v'' h' ->
       v'' = u /\ reachable (mkWorld h' vs) /\ refcount u h' = Ok c h'
       /\ forall w, In w vs -> heap_ptr w = Some p -> view w h' = Ok (list_writes s ws) h'.
Proof.
  intros Hr Hi Hp Hk Hc Hcm. pose proof (reachable_inv _ Hr) as Hinv.
  pose proof (lookup_In _ _ _ Hi) as Hu.
  destruct (make_mut_no_copy h vs i u a n Hinv Hi) as (sl & Hd & Hm).
  { intros k' Hk'. rewrite Hk in Hk'. injection Hk' as <-. rewrite Hc. congruence. }
  destruct (make_mut_spec h vs i u a n u sl h Hinv Hi Hm) as (_ & _ & (s & Hv & _ & Hh) & _).
  rewrite (list_insert_id vs i u Hi) in Hh.
  pose proof (sharers_equal h vs u) as Hsh.
  exists sl, s. split; [done|]. split; [done|]. split; [done|].
  split; [intros w Hw Hpw; exact (Hsh w p Hinv Hu Hw Hp Hpw)|].
  intros ws v'' h' Hb Hsw.
  assert (Hq : exists q L, sl = SHeap q L).
  { destruct Hh as [(n0 & -> & Hui & _) | [(b & L & -> & _) | (b & L & -> & _)]].
    - rewrite (inline_info_ptr u n0 Hui) in Hp. discriminate.
    - by exists b, L.
    - by exists (b + 8), L. }
  destruct Hq as (q & L & ->).
  pose proof (slice_writes_heap_same u q L ws h v'' h' Hsw) as ->.
  destruct (slice_writes_spec ws h vs i u (SHeap q L) s u h' Hinv Hi Hh Hb Hsw) as (Hinv' & Hh' & _).
  rewrite (list_insert_id vs i u Hi) in Hinv', Hh'.
  pose proof (holds_view _ _ _ _ _ Hh') as [_ Hv'].
  split; [done|]. split.
  { pose proof (reach_step _ _ Hr (StepMakeMut h vs i u a n u (SHeap q L) h ws u h' Hi Hm Hb Hsw)) as Hr'.
    rewrite (list_insert_id vs i u Hi) in Hr'. exact Hr'. }
  split.
  - rewrite (refcount_eq_count h vs u p Hinv Hu Hp) in Hc. injection Hc as <-.
    apply (refcount_eq_count h' vs u p Hinv' Hu Hp).
  - intros w Hw Hpw. rewrite (Hsh w p Hinv Hu Hw Hp Hpw). done.
Qed.

(** [make_mut] on a live heap value whose refcount has reached the
    saturation value of its variant moves it to a fresh allocation with
    refcount 1, and the old allocation keeps the other [c - 1] sharers,
    each of which now reads [c - 1] as its refcount. *)
Theorem make_mut_saturated_copies h vs i u p k c a n v' sl h1 :
  reachable (mkWorld h vs) -> vs !! i = Some u -> heap_ptr u = Some p ->
  kind u h = Ok k h -> refcount u h = Ok c h -> c = rc_max k -> make_mut a n u h = Ok (v', sl) h1 ->
  reachable (mkWorld h1 (<[i := v']> vs))
  /\ exists p', heap_ptr v' = Some p' /\ p' <> p /\ refcount v' h1 = Ok 1 h1
  /\ forall j w, j <> i -> vs !! j = Some w -> heap_ptr w = Some p -> refcount w h1 = Ok (c - 1) h1.
Proof.
  intros Hr Hi Hp Hk Hc Hcm Hmk. pose proof (reachable_inv _ Hr) as Hinv.
  pose proof (lookup_In _ _ _ Hi) as Hu.
  split.
  { eapply reach_step; [exact Hr|].
    apply (StepMakeMut h vs i u a n v' sl h1 [] v' h1 Hi Hmk); done. }
  destruct (make_mut_saturated h vs i u k a n v' sl h1 Hinv Hi Hk ltac:(rewrite Hc, Hcm; done) Hmk)
    as (s & Hown).
  rewrite (refcount_eq_count h vs u p Hinv Hu Hp) in Hc. injection Hc as <-.
  destruct (make_mut_spec h vs i u a n v' sl h1 Hinv Hi Hmk) as (Hinv1 & _ & _ & _ & Hkk).
  assert (Hkn : k <> Inline).
  { intros ->. destruct (val_info h vs u Hinv Hu) as [(L & Hui) | [(b & L & pl & Hui) | (b & L & pl & Hui)]].
    - rewrite (inline_info_ptr u L Hui) in Hp. discriminate.
    - pose proof Hui as (_ & Htop & Hd & _). rewrite (kind_small_stored u (b + L) h Hd Htop) in Hk. discriminate.
    - pose proof Hui as (_ & Htop & Hd & _). rewrite (kind_big_stored u b h Hd Htop) in Hk. discriminate. }
  pose proof (heap_ptr_kind v' h1 k (Hkk k Hk) Hkn) as Hp'.
  set (p' := decode_ptr (ia_data v')) in *.
  assert (Hi1 : <[i := v']> vs !! i = Some v').
  { apply list_lookup_insert_eq. by apply lookup_lt_Some in Hi. }
  pose proof (owns_count _ _ _ _ _ p' Hown Hp') as Hcnt.
  assert (Hsplit : forall q, count_ptr q (<[i := v']> vs)
            = ((if decide (heap_ptr v' = Some q) then 1 else 0) + count_ptr q (delete i vs))%nat).
  { intros q. rewrite (count_ptr_perm q _ _ (insert_perm vs i u v' Hi)). done. }
  pose proof (count_ptr_delete p vs i u Hi) as Hdel. rewrite decide_True in Hdel by done.
  assert (Hc1 : Z.of_nat (count_ptr p vs) <> 1) by (rewrite Hcm; destruct k; vm_compute; discriminate).
  assert (Hne : p' <> p).
  { intros ->. rewrite Hsplit, decide_True in Hcnt by done. lia. }
  exists p'. split; [done|]. split; [done|].
  split; [apply (owns_refcount h1 _ v' sl s p' Hinv1 (lookup_In _ _ _ Hi1) Hown Hp')|].
  intros j w Hji Hj Hwp.
  assert (Hw1 : <[i := v']> vs !! j = Some w) by (rewrite list_lookup_insert_ne by done; done).
  rewrite (refcount_eq_count h1 _ w p Hinv1 (lookup_In _ _ _ Hw1) Hwp).
  rewrite Hsplit, decide_False by congruence. f_equal. lia.
Qed.

Lemma drop_blocks h vs i u p h' :
  inv (mkWorld h vs) -> vs !! i = Some u -> heap_ptr u = Some p -> drop u h = Ok tt h' ->
  (count_ptr p vs <> 1%nat -> h_blocks h' = h_blocks h)
  /\ (count_ptr p vs = 1%nat -> exists b l, h_blocks h !! b = Some l /\ b <= p < b + lay_size l
        /\ h_blocks h' = delete b (h_blocks h)).
Proof.
  intros Hinv Hi Hp Hdr. pose proof (lookup_In _ _ _ Hi) as Hu.
  destruct (val_info h vs u Hinv Hu) as [(L & Hui) | [(b & L & pl & Hui) | (b & L & pl & Hui)]].
  - rewrite (inline_info_ptr u L Hui) in Hp. discriminate.
  - rewrite (small_info_ptr _ _ _ _ _ _ Hui) in Hp. injection Hp as <-.
    pose proof (drop_small_eq h vs u b L pl Hui) as Hd. cbv zeta in Hd. rewrite Hdr in Hd.
    injection Hd as Hd. pose proof (info_block_small _ _ _ _ _ _ Hui) as Hblk.
    pose proof Hui as (Hr & _). unfold small_range in Hr.
    split.
    + intros H1. replace (Z.of_nat (count_ptr (b + L) vs) =? 1) with false in Hd
        by (symmetry; apply Z.eqb_neq; lia). subst h'. done.
    + intros H1. rewrite H1 in Hd. cbn in Hd. subst h'.
      exists b, (mkLayout (L + 2) 8). cbn [lay_size]. split; [done|]. split; [lia|done].
  - rewrite (big_info_ptr _ _ _ _ _ _ Hui) in Hp. injection Hp as <-.
    pose proof (drop_big_eq h vs u b L pl Hui) as Hd. cbv zeta in Hd. rewrite Hdr in Hd.
    injection Hd as Hd. pose proof (info_block_big _ _ _ _ _ _ Hui) as Hblk.
    pose proof Hui as (Hr & _). unfold big_range in Hr.
    split.
    + intros H1. replace (Z.of_nat (count_ptr b vs) =? 1) with false in Hd
        by (symmetry; apply Z.eqb_neq; lia). subst h'. done.
    + intros H1. rewrite H1 in Hd. cbn in Hd. subst h'.
      exists b, (mkLayout (L + 8) 8). cbn [lay_size]. split; [done|]. split; [lia|done].
Qed.

Lemma new_then_drop_blocks h vs a s v' h1 h2 :
  inv (mkWorld h vs) -> bytes_ok s = true -> new a s h = Ok v' h1 -> drop v' h1 = Ok tt h2 ->
  h_blocks h2 = h_blocks h.
Proof.
  intros Hinv Hok Hnew Hdr.
  pose proof (inv_new h vs a s v' h1 Hinv Hok Hnew) as Hinv1.
  pose proof (lookup_snoc_last vs v') as Hlast.
  destruct (heap_ptr v') as [p|] eqn:Hp.
  - destruct (new_fresh h vs a s v' h1 p Hinv Hnew Hp) as [_ H1].
    destruct (proj2 (drop_blocks h1 _ _ v' p h2 Hinv1 Hlast Hp Hdr) H1) as (b & l & Hb & Hin & ->).
    destruct (new_frame a s h v' h1 Hnew) as [[_ Hn] | (sz & Hsz & Hdisj & Hbl & _ & p' & Hp' & Hin')];
      [congruence|].
    rewrite Hp in Hp'. injection Hp' as <-.
    assert (Ha : h_blocks h1 !! a = Some (mkLayout sz 8)) by (rewrite Hbl; apply lookup_insert_eq).
    assert (b = a) as ->.
    { destruct (decide (b = a)) as [|Hne]; [done|]. exfalso.
      apply (blocks_apart h1 _ b l a _ p p Hinv1 Hb Ha Hin ltac:(cbn; lia) Hne). done. }
    rewrite Hbl. apply delete_insert_id. apply (fresh_not_block h vs a sz Hinv Hsz Hdisj).
  - destruct (new_frame a s h v' h1 Hnew) as [[-> _] | (sz & _ & _ & _ & _ & p' & Hp' & _)];
      [|congruence].
    destruct (val_info h (vs ++ [v']) v' Hinv1 (lookup_In _ _ _ Hlast))
      as [(L & Hui) | [(b & L & pl & Hui) | (b & L & pl & Hui)]].
    + rewrite (drop_inline_eq v' L h Hui) in Hdr. injection Hdr as <-. done.
    + rewrite (small_info_ptr _ _ _ _ _ _ Hui) in Hp. discriminate.
    + rewrite (big_info_ptr _ _ _ _ _ _ Hui) in Hp. discriminate.
Qed.

(** Cloning a live value and then dropping the clone gives back the same
    live allocations, the same views and the same refcounts, also when
    the clone had to copy a saturated value. *)
Theorem clone_then_drop h vs v a n v' h1 h2 :
  reachable (mkWorld h vs) -> In v vs -> clone a n v h = Ok v' h1 -> drop v' h1 = Ok tt h2 ->
  reachable (mkWorld h2 vs) /\ h_blocks h2 = h_blocks h
  /\ (forall w t, In w vs -> view w h = Ok t h -> view w h2 = Ok t h2)
  /\ (forall w p, In w vs -> heap_ptr w = Some p ->
        exists c, refcount w h = Ok c h /\ refcount w h2 = Ok c h2).
Proof.
  intros Hr Hv Hcl Hdr. pose proof (reachable_inv _ Hr) as Hinv.
  destruct (In_lookup vs v Hv) as [i Hi].
  assert (Hr1 : reachable (mkWorld h1 (vs ++ [v'])))
    by (eapply reach_step; [exact Hr|]; apply (StepClone h vs i v a n v' h1 Hi Hcl)).
  pose proof (reachable_inv _ Hr1) as Hinv1.
  assert (Hr2 : reachable (mkWorld h2 vs)).
  { rewrite <- (delete_snoc_last vs v'). eapply reach_step; [exact Hr1|].
    apply (StepDrop h1 (vs ++ [v']) (length vs) v' h2 (lookup_snoc_last vs v') Hdr). }
  pose proof (reachable_inv _ Hr2) as Hinv2.
  split; [done|]. split; [|split].
  - destruct (val_info h vs v Hinv Hv) as [(L & Hui) | [(b & L & pl & Hui) | (b & L & pl & Hui)]].
    + rewrite (clone_inline_eq a n v L h Hui), mkIA_eta in Hcl. injection Hcl as <- <-.
      rewrite (drop_inline_eq v L h Hui) in Hdr. injection Hdr as <-. done.
    + pose proof (small_info_ptr _ _ _ _ _ _ Hui) as Hp. pose proof Hui as (_ & _ & _ & _ & _ & _ & _ & Hok & _).
      rewrite (clone_small_eq a n h vs v b L pl Hui) in Hcl. destruct (_ =? U8_MAX).
      * apply (new_then_drop_blocks h vs a pl v' h1 h2 Hinv Hok Hcl Hdr).
      * rewrite mkIA_eta in Hcl. injection Hcl as <- <-.
        pose proof (count_ptr_in _ _ _ Hv Hp).
        rewrite (proj1 (drop_blocks _ _ _ v _ h2 Hinv1 (lookup_snoc_last vs v) Hp Hdr)); [done|].
        rewrite count_ptr_app, count_ptr_one, decide_True by done. lia.
    + pose proof (big_info_ptr _ _ _ _ _ _ Hui) as Hp. pose proof Hui as (_ & _ & _ & _ & _ & _ & _ & Hok & _).
      rewrite (clone_big_eq a n h vs v b L pl Hui) in Hcl. destruct (_ =? U16_MAX).
      * apply (new_then_drop_blocks h vs a pl v' h1 h2 Hinv Hok Hcl Hdr).
      * rewrite mkIA_eta in Hcl. injection Hcl as <- <-.
        pose proof (count_ptr_in _ _ _ Hv Hp).
        rewrite (proj1 (drop_blocks _ _ _ v _ h2 Hinv1 (lookup_snoc_last vs v) Hp Hdr)); [done|].
        rewrite count_ptr_app, count_ptr_one, decide_True by done. lia.
  - intros w t Hw Ht. destruct (In_lookup vs w Hw) as [j Hj].
    pose proof (clone_keeps_views h vs v a n v' h1 Hinv Hv Hcl w t Hw Ht) as Ht1.
    apply (drop_keeps_views h1 (vs ++ [v']) (length vs) v' h2 Hinv1 (lookup_snoc_last vs v') Hdr j w t).
    + apply lookup_lt_Some in Hj. lia.
    + by apply lookup_app_l_Some.
    + done.
  - intros w p Hw Hp. exists (Z.of_nat (count_ptr p vs)).
    split; [apply (refcount_eq_count h vs w p Hinv Hw Hp)|apply (refcount_eq_count h2 vs w p Hinv2 Hw Hp)].
Qed.

Lemma prop_identity_spec h vs v a1 n1 a2 n2 self_addr :
  reachable (mkWorld h vs) -> In v vs -> self_addr mod 8 = 0 ->
  match prop_identity a1 n1 a2 n2 self_addr v h with
  | Ok b h' => b = true /\ reachable (mkWorld h' vs)
               /\ forall w t, In w vs -> view w h = Ok t h -> view w h' = Ok t h'
  | Panicked p => p = PAllocNull \/ p = PAssertAlign
  | UB => False
  end.
Proof.
  intros Hr Hv Ha. pose proof (reachable_inv _ Hr) as Hinv.
  destruct (In_lookup vs v Hv) as [i Hi].
  unfold prop_identity.
  destruct (clone a1 n1 v h) as [iv2 h1|p|] eqn:Hcl.
  2: { rewrite (bind_Panicked _ _ _ _ Hcl). exact (clone_panic_kinds h vs v a1 n1 p Hinv Hv Hcl). }
  2: { exfalso. exact (proj1 (clone_no_ub h vs v a1 n1 Hinv Hv) Hcl). }
  rewrite (bind_Ok _ _ _ _ _ Hcl).
  assert (Hr1 : reachable (mkWorld h1 (vs ++ [iv2])))
    by (eapply reach_step; [exact Hr|]; apply (StepClone h vs i v a1 n1 iv2 h1 Hi Hcl)).
  pose proof (reachable_inv _ Hr1) as Hinv1.
  destruct (clone_view h vs v a1 n1 iv2 h1 Hinv Hv Hcl) as (s & Hs & Hs2 & Hs1).
  assert (He1 : eq_ia iv2 v h1 = Ok true h1).
  { rewrite (eq_ia_views iv2 v s s h1 Hs2 Hs1), bool_decide_eq_true_2 by done. done. }
  assert (He2 : eq_ia v iv2 h1 = Ok true h1).
  { rewrite (eq_ia_views v iv2 s s h1 Hs1 Hs2), bool_decide_eq_true_2 by done. done. }
  rewrite (bind_Ok _ _ _ _ _ He1). cbn [negb].
  rewrite (bind_Ok _ _ _ _ _ He2). cbn [negb].
  set (k := length vs).
  pose proof (lookup_snoc_last vs iv2) as Hlast.
  pose proof (make_mut_outcome_live h1 (vs ++ [iv2]) k iv2 a2 n2 Hinv1 Hlast) as Ho.
  destruct (make_mut a2 n2 iv2 h1) as [[iv2' sl] h3|p|] eqn:Hmk.
  2: { rewrite (bind_Panicked _ _ _ _ Hmk). exact Ho. }
  2: { destruct Ho. }
  rewrite (bind_Ok _ _ _ _ _ Hmk). cbv beta iota.
  destruct Ho as (Hinv3 & Hder & (s' & Hvs1 & Hvs' & Hown) & Hoth & _).
  rewrite Hs2 in Hvs1. injection Hvs1 as <-.
  assert (Hik : i <> k) by (apply lookup_lt_Some in Hi; unfold k; lia).
  assert (Hiv : (vs ++ [iv2]) !! i = Some v) by (by apply lookup_app_l_Some).
  pose proof (Hoth i v s Hik Hiv Hs1) as Hs3.
  rewrite (bind_Ok _ _ _ _ _ (view_of_deref iv2' sl s h3 Hder Hvs')).
  assert (He3 : eq_slice v s h3 = Ok true h3).
  { rewrite (eq_slice_view v s s h3 Hs3), bool_decide_eq_true_2 by done. done. }
  rewrite (bind_Ok _ _ _ _ _ He3). cbn [negb].
  assert (Hk3 : <[k := iv2']> (vs ++ [iv2]) !! k = Some iv2').
  { apply list_lookup_insert_eq. rewrite length_app. cbn. unfold k. lia. }
  assert (Hi3 : <[k := iv2']> (vs ++ [iv2]) !! i = Some v)
    by (rewrite list_lookup_insert_ne by done; done).
  destruct (deref_aligned h3 _ v Hinv3 (lookup_In _ _ _ Hi3)) as (sl0 & Hd0 & Hal).
  rewrite (bind_Ok _ _ _ _ _ Hd0).
  replace (slice_ptr self_addr sl0 mod 8 =? 0) with true by (symmetry; apply Z.eqb_eq; apply Hal, Ha).
  rewrite (bind_Ok _ _ _ _ _ (eq_refl : assert true PAssertAlign h3 = Ok tt h3)).
  destruct (drop_live h3 _ iv2' Hinv3 (lookup_In _ _ _ Hk3)) as (h4 & Hdr).
  rewrite (bind_Ok _ _ _ _ _ Hdr). cbn.
  split; [done|]. split.
  - assert (Hr3 : reachable (mkWorld h3 (<[k := iv2']> (vs ++ [iv2])))).
    { eapply reach_step; [exact Hr1|].
      apply (StepMakeMut h1 (vs ++ [iv2]) k iv2 a2 n2 iv2' sl h3 [] iv2' h3 Hlast Hmk); done. }
    pose proof (reach_step _ _ Hr3 (StepDrop _ _ k iv2' h4 Hk3 Hdr)) as Hr4.
    rewrite delete_insert_list in Hr4. unfold k in Hr4. rewrite delete_snoc_last in Hr4. exact Hr4.
  - intros w t Hw Ht. destruct (In_lookup vs w Hw) as [j Hj].
    assert (Hjk : j <> k) by (apply lookup_lt_Some in Hj; unfold k; lia).
    assert (Hjv : (vs ++ [iv2]) !! j = Some w) by (by apply lookup_app_l_Some).
    pose proof (clone_keeps_views h vs v a1 n1 iv2 h1 Hinv Hv Hcl w t Hw Ht) as Ht1.
    pose proof (Hoth j w t Hjk Hjv Ht1) as Ht3.
    apply (drop_keeps_views h3 _ k iv2' h4 Hinv3 Hk3 Hdr j w t Hjk); [|done].
    rewrite list_lookup_insert_ne by done. done.
Qed.

(** The crate's test [prop_identity] returns [true] on every live value
    (at an 8-aligned address): a clone equals the original both ways,
    the slice [make_mut] returns on the clone holds the original's bytes,
    and the original's slice is 8-aligned; afterwards the same values are
    live with the same views.  It can only panic when the allocation of a
    copy fails. *)
Theorem prop_identity_holds h vs v a1 n1 a2 n2 self_addr :
  reachable (mkWorld h vs) -> In v vs -> self_addr mod 8 = 0 ->
  match prop_identity a1 n1 a2 n2 self_addr v h with
  | Ok b h' => b = true /\ reachable (mkWorld h' vs)
               /\ forall w t, In w vs -> view w h = Ok t h -> view w h' = Ok t h'
  | Panicked p => p = PAllocNull \/ p = PAssertAlign
  | UB => False
  end.
Proof. exact (prop_identity_spec h vs v a1 n1 a2 n2 self_addr). Qed.

(** The quickcheck property [inline_array] holds for every byte vector:
    building the value, running [prop_identity] on it and dropping it
    returns [true] and gives back the same live values with the same
    views, unless an allocation fails or the vector is too long
    (2^48 bytes or more) for the BigRemote header. *)
Theorem inline_array_quickcheck h vs a0 a1 n1 a2 n2 self_addr bytes :
  reachable (mkWorld h vs) -> bytes_ok bytes = true -> self_addr mod 8 = 0 ->
  match inline_array a0 a1 n1 a2 n2 self_addr bytes h with
  | Ok b h' => b = true /\ reachable (mkWorld h' vs)
               /\ forall w t, In w vs -> view w h = Ok t h -> view w h' = Ok t h'
  | Panicked p => p = PAllocNull \/ p = PAssertAlign
                  \/ (2 ^ 48 <= Z.of_nat (length bytes) /\ (p = PUnwrap \/ p = PAssertLen))
  | UB => False
  end.
Proof.
  intros Hr Hok Ha. pose proof (reachable_inv _ Hr) as Hinv.
  unfold inline_array.
  destruct (new a0 bytes h) as [item h1|p|] eqn:Hn.
  2: { rewrite (bind_Panicked _ _ _ _ Hn). exact (new_panic_kinds a0 bytes h p Hn). }
  2: { exfalso. exact (proj1 (new_no_ub a0 bytes h) Hn). }
  rewrite (bind_Ok _ _ _ _ _ Hn).
  assert (Hr1 : reachable (mkWorld h1 (vs ++ [item])))
    by (eapply reach_step; [exact Hr|]; apply (StepNew h vs a0 bytes item h1 Hok Hn)).
  rewrite (bind_Ok _ _ _ _ _ (proj2 (new_view a0 bytes h item h1 Hn))).
  pose proof (lookup_snoc_last vs item) as Hlast.
  pose proof (prop_identity_spec h1 (vs ++ [item]) item a1 n1 a2 n2 self_addr Hr1
                (lookup_In _ _ _ Hlast) Ha) as Hp.
  destruct (prop_identity a1 n1 a2 n2 self_addr item h1) as [b h2|p|] eqn:Hpi.
  2: { rewrite (bind_Panicked _ _ _ _ Hpi). tauto. }
  2: { destruct Hp. }
  destruct Hp as (-> & Hr2 & Hviews).
  rewrite (bind_Ok _ _ _ _ _ Hpi).
  pose proof (reachable_inv _ Hr2) as Hinv2.
  destruct (drop_live h2 _ item Hinv2 (lookup_In _ _ _ Hlast)) as (h3 & Hdr).
  rewrite (bind_Ok _ _ _ _ _ Hdr). cbn.
  split; [done|]. split.
  - pose proof (reach_step _ _ Hr2 (StepDrop _ _ (length vs) item h3 Hlast Hdr)) as Hr3.
    rewrite delete_snoc_last in Hr3. exact Hr3.
  - intros w t Hw Ht. destruct (In_lookup vs w Hw) as [j Hj].
    assert (Hjv : (vs ++ [item]) !! j = Some w) by (by apply lookup_app_l_Some).
    pose proof (view_new_frame h vs w t a0 bytes item h1 Hinv Hw Ht Hn) as Ht1.
    pose proof (Hviews w t (lookup_In _ _ _ Hjv) Ht1) as Ht2.
    apply (drop_keeps_views h2 _ (length vs) item h3 Hinv2 Hlast Hdr j w t); [|done|done].
    apply lookup_lt_Some in Hj. lia.
Qed.

(** The BigRemote length encoding: [new]'s two assertions on bytes 6
    and 7 of a length's native-endian bytes hold exactly for lengths
    below 2^48, and for those the six bytes [new] stores in the header
    are decoded back to the length by [BigRemoteHeader::len]. *)
Theorem big_header_len_roundtrip L hp m bl :
  0 <= L < 2 ^ 64 ->
  ((nth 6 (le_bytes L 8) 0 = 0 /\ nth 7 (le_bytes L 8) 0 = 0) <-> L < 2 ^ 48)
  /\ (L < 2 ^ 48 ->
      let hh := mkHeap (mem_write (hp + 2) (firstn BIG_REMOTE_LEN_BYTES (le_bytes L 8)) m) bl in
      big_len hp hh = Ok L hh).
Proof.
  intros HL. split.
  - rewrite !nth_le_bytes by lia. cbn [Z.of_nat Pos.of_succ_nat Pos.succ Z.mul].
    split.
    + intros [H6 H7].
      assert (Hq7 : 0 <= L / 2 ^ 56 < 256).
      { split; [apply Z.div_pos; lia|]. apply Z.div_lt_upper_bound; lia. }
      rewrite Z.mod_small in H7 by done.
      apply Z.div_small_iff in H7; [|lia].
      assert (Hq6 : 0 <= L / 2 ^ 48 < 256).
      { split; [apply Z.div_pos; lia|]. apply Z.div_lt_upper_bound; lia. }
      rewrite Z.mod_small in H6 by done.
      apply Z.div_small_iff in H6; lia.
    + intros Hlt. rewrite !Z.div_small by lia. done.
  - intros Hlt. cbv zeta. unfold big_len, bind. rewrite read_bytes_eq. cbn [h_mem].
    change BIG_REMOTE_LEN_BYTES with 6%nat. rewrite firstn_le_bytes by lia.
    rewrite (mem_read_write_len (hp + 2) (le_bytes L 6) m 6 (length_le_bytes L 6)).
    cbv beta iota. unfold ret. rewrite le_to_Z_app_zeros, le_to_Z_le_bytes.
    rewrite Z.mod_small by (cbn; lia). done.
Qed.

(** An Inline value built by [new] holds the [L] bytes of the slice,
    zeros up to byte 6 and [L << 2] in byte 7; it is built without
    touching the heap. *)
Theorem new_inline_layout a s h :
  (length s <= 7)%nat ->
  new a s h = Ok (mkIA (s ++ repeat 0 (7 - length s) ++ [Z.of_nat (length s) * 4])) h.
Proof.
  intros Hl.
  do 8 (destruct s as [|? s]; [reflexivity|]). cbn in Hl. lia.
Qed.


Lemma unshared_unsaturated h vs u :
  inv (mkWorld h vs) -> In u vs -> (heap_ptr u = None \/ refcount u h = Ok 1 h) ->
  forall k, kind u h = Ok k h -> refcount u h <> Ok (rc_max k) h.
Proof.
  intros Hinv Hu Hone k Hk.
  destruct Hone as [Hn|Hone]; [|rewrite Hone; intros [= H1]; destruct k; discriminate].
  destruct (val_info h vs u Hinv Hu) as [(L & Hui) | [(b & L & pl & Hui) | (b & L & pl & Hui)]].
  - pose proof Hui as (_ & HL & Ht & _). unfold refcount, bind.
    rewrite (kind_inline u L h Ht HL). discriminate.
  - rewrite (small_info_ptr _ _ _ _ _ _ Hui) in Hn. discriminate.
  - rewrite (big_info_ptr _ _ _ _ _ _ Hui) in Hn. discriminate.
Qed.

(** The value [make_mut] returns never has a saturated refcount: below
    saturation it is the value itself, at saturation it is a copy that
    holds its allocation alone. *)
Lemma make_mut_result_unsaturated h vs i u a n v' sl h1 :
  inv (mkWorld h vs) -> vs !! i = Some u -> make_mut a n u h = Ok (v', sl) h1 ->
  forall k, kind v' h1 = Ok k h1 -> refcount v' h1 <> Ok (rc_max k) h1.
Proof.
  intros Hinv Hi Hmk. pose proof (lookup_In _ _ _ Hi) as Hu.
  destruct (make_mut_spec h vs i u a n v' sl h1 Hinv Hi Hmk) as (Hinv1 & _).
  assert (Hi1 : <[i := v']> vs !! i = Some v').
  { apply list_lookup_insert_eq. by apply lookup_lt_Some in Hi. }
  destruct (val_info h vs u Hinv Hu) as [(L & Hui) | [(b & L & pl & Hui) | (b & L & pl & Hui)]].
  - rewrite (make_mut_inline_eq a n u L h Hui) in Hmk. injection Hmk as <- <- <-.
    apply (unshared_unsaturated h vs u Hinv Hu). left. apply (inline_info_ptr u L Hui).
  - pose proof (make_mut_small h vs i u b L pl a n _ Hinv Hi Hui Hmk) as Hm.
    destruct (_ =? U8_MAX) eqn:E.
    + destruct Hm as [_ Hm]. destruct (Hm v' sl h1 eq_refl) as (s & Hown).
      apply (unshared_unsaturated h1 _ v' Hinv1 (lookup_In _ _ _ Hi1)).
      destruct (heap_ptr v') as [p'|] eqn:Hp'; [right|by left].
      exact (owns_refcount h1 _ v' sl s p' Hinv1 (lookup_In _ _ _ Hi1) Hown Hp').
    + injection Hm as -> -> ->. intros k Hk.
      pose proof Hui as (_ & Htop & Hd & _).
      rewrite (kind_small_stored u (b + L) h Hd Htop) in Hk. injection Hk as <-.
      rewrite (refcount_small_info h vs u b L pl Hui). intros [= H1]. cbn [rc_max] in H1.
      rewrite H1, Z.eqb_refl in E. discriminate.
  - pose proof (make_mut_big h vs i u b L pl a n _ Hinv Hi Hui Hmk) as Hm.
    destruct (_ =? U16_MAX) eqn:E.
    + destruct Hm as [_ Hm]. destruct (Hm v' sl h1 eq_refl) as (s & Hown).
      apply (unshared_unsaturated h1 _ v' Hinv1 (lookup_In _ _ _ Hi1)).
      destruct (heap_ptr v') as [p'|] eqn:Hp'; [right|by left].
      exact (owns_refcount h1 _ v' sl s p' Hinv1 (lookup_In _ _ _ Hi1) Hown Hp').
    + injection Hm as -> -> ->. intros k Hk.
      pose proof Hui as (_ & Htop & Hd & _).
      rewrite (kind_big_stored u b h Hd Htop) in Hk. injection Hk as <-.
      rewrite (refcount_big_info h vs u b L pl Hui). intros [= H1]. cbn [rc_max] in H1.
      rewrite H1, Z.eqb_refl in E. discriminate.
Qed.

(** [make_mut] never returns a value with a saturated refcount, so a
    second [make_mut] on its result copies nothing: it returns the same
    value and slice with the heap unchanged, whatever the allocator would
    answer. *)
Theorem make_mut_idempotent h vs i u a n v' sl h1 :
  reachable (mkWorld h vs) -> vs !! i = Some u -> make_mut a n u h = Ok (v', sl) h1 ->
  forall a' n', make_mut a' n' v' h1 = Ok (v', sl) h1.
Proof.
  intros Hr Hi Hmk a' n'. pose proof (reachable_inv _ Hr) as Hinv.
  destruct (make_mut_spec h vs i u a n v' sl h1 Hinv Hi Hmk) as (Hinv1 & Hder & _).
  assert (Hi1 : <[i := v']> vs !! i = Some v').
  { apply list_lookup_insert_eq. by apply lookup_lt_Some in Hi. }
  destruct (make_mut_no_copy h1 _ i v' a' n' Hinv1 Hi1
              (make_mut_result_unsaturated h vs i u a n v' sl h1 Hinv Hi Hmk)) as (sl' & Hd' & Hmk').
  rewrite Hder in Hd'. injection Hd' as <-. exact Hmk'.
Qed.

(** ** Witnesses of the further properties *)

Lemma cmp_lexicographic_witness :
  exists s t, view ex_v9 ex_h9 = Ok s ex_h9 /\ view ex_v9 ex_h9 = Ok t ex_h9
  /\ cmp ex_v9 ex_v9 ex_h9 = Ok (slice_cmp s t) ex_h9
  /\ partial_cmp ex_v9 ex_v9 ex_h9 = Ok (Some (slice_cmp s t)) ex_h9
  /\ (cmp ex_v9 ex_v9 ex_h9 = Ok Eq ex_h9 <-> eq_ia ex_v9 ex_v9 ex_h9 = Ok true ex_h9).
Proof.
  apply (cmp_lexicographic ex_h9 [ex_v9] ex_v9 ex_v9); [reach_ex9|left; reflexivity|left; reflexivity].
Defined.

Lemma cmp_total_order_witness :
  cmp ex_i1 ex_i1 heap_empty = Ok Eq heap_empty
  /\ (forall c, cmp ex_i1 ex_i2 heap_empty = Ok c heap_empty -> cmp ex_i2 ex_i1 heap_empty = Ok (CompOpp c) heap_empty)
  /\ (cmp ex_i1 ex_i2 heap_empty = Ok Lt heap_empty -> cmp ex_i2 ex_i3 heap_empty = Ok Lt heap_empty ->
      cmp ex_i1 ex_i3 heap_empty = Ok Lt heap_empty)
  /\ exists c, cmp ex_i1 ex_i2 heap_empty = Ok c heap_empty.
Proof.
  apply (cmp_total_order heap_empty [ex_i1; ex_i2; ex_i3] ex_i1 ex_i2 ex_i3);
    [reach_ex_i|left; reflexivity|right; left; reflexivity|right; right; left; reflexivity].
Defined.

Lemma from_str_eq_witness :
  reachable (mkWorld heap_empty ([] ++ [ex_v_ab; ex_v_ab]))
  /\ view ex_v_ab heap_empty = Ok (as_bytes ex_str) heap_empty
  /\ view ex_v_ab heap_empty = Ok (as_bytes ex_str) heap_empty
  /\ eq_ia ex_v_ab ex_v_ab heap_empty = Ok (String.eqb ex_str ex_str) heap_empty.
Proof.
  apply (from_str_eq heap_empty [] 0 0 ex_str ex_str ex_v_ab heap_empty ex_v_ab heap_empty);
    [apply reach_init|vm_compute; reflexivity|vm_compute; reflexivity].
Defined.

Lemma drop_preserves_others_witness :
  reachable (mkWorld (mkHeap (<[4160 := 1]> (h_mem ex_h64c)) (h_blocks ex_h64c)) (delete 0%nat [ex_v64; ex_v64]))
  /\ forall j w t, j <> 0%nat -> [ex_v64; ex_v64] !! j = Some w -> view w ex_h64c = Ok t ex_h64c ->
       view w (mkHeap (<[4160 := 1]> (h_mem ex_h64c)) (h_blocks ex_h64c))
       = Ok t (mkHeap (<[4160 := 1]> (h_mem ex_h64c)) (h_blocks ex_h64c)).
Proof.
  apply (drop_preserves_others ex_h64c [ex_v64; ex_v64] 0%nat ex_v64);
    [reach_ex64c|reflexivity|vm_compute; reflexivity].
Defined.

Lemma make_mut_unshared_in_place_witness :
  exists sl, deref ex_v9 ex_h9 = Ok sl ex_h9 /\ make_mut 8192 0 ex_v9 ex_h9 = Ok (ex_v9, sl) ex_h9.
Proof.
  apply (make_mut_unshared_in_place ex_h9 [ex_v9] ex_v9 8192 0);
    [reach_ex9|left; reflexivity|right; vm_compute; reflexivity].
Defined.

Lemma make_mut_shared_no_copy_witness :
  exists sl s, deref ex_v64 ex_h64c = Ok sl ex_h64c /\ view ex_v64 ex_h64c = Ok s ex_h64c
  /\ make_mut 8192 0 ex_v64 ex_h64c = Ok (ex_v64, sl) ex_h64c
  /\ (forall w, In w [ex_v64; ex_v64] -> heap_ptr w = Some 4160 -> w = ex_v64)
  /\ forall ws v'' h', forallb (fun w => is_byte (snd w)) ws = true ->
       slice_writes ex_v64 sl ws ex_h64c = Ok v'' h' ->
       v'' = ex_v64 /\ reachable (mkWorld h' [ex_v64; ex_v64]) /\ refcount ex_v64 h' = Ok 2 h'
       /\ forall w, In w [ex_v64; ex_v64] -> heap_ptr w = Some 4160 -> view w h' = Ok (list_writes s ws) h'.
Proof.
  apply (make_mut_shared_no_copy ex_h64c [ex_v64; ex_v64] 0 ex_v64 4160 SmallRemote 2 8192 0);
    [reach_ex64c|reflexivity|vm_compute; reflexivity|vm_compute; reflexivity|vm_compute; reflexivity
    |vm_compute; discriminate].
Defined.

Lemma make_mut_saturated_copies_witness :
  reachable (mkWorld ex_h9m (<[0%nat := ex_v9m]> (repeat ex_v9 255)))
  /\ exists p', heap_ptr ex_v9m = Some p' /\ p' <> 4105 /\ refcount ex_v9m ex_h9m = Ok 1 ex_h9m
  /\ forall j w, j <> 0%nat -> repeat ex_v9 255 !! j = Some w -> heap_ptr w = Some 4105 ->
       refcount w ex_h9m = Ok (255 - 1) ex_h9m.
Proof.
  apply (make_mut_saturated_copies ex_h9s (repeat ex_v9 255) 0 ex_v9 4105 SmallRemote 255 8192 0
           ex_v9m (SHeap 8192 9) ex_h9m);
    [exact (reach_ex9_shared 255 ltac:(lia))|reflexivity|vm_compute; reflexivity|vm_compute; reflexivity
    |vm_compute; reflexivity|reflexivity|vm_compute; reflexivity].
Defined.

Lemma clone_then_drop_witness :
  reachable (mkWorld ex_h9 [ex_v9]) /\ h_blocks ex_h9 = h_blocks ex_h9
  /\ (forall w t, In w [ex_v9] -> view w ex_h9 = Ok t ex_h9 -> view w ex_h9 = Ok t ex_h9)
  /\ (forall w p, In w [ex_v9] -> heap_ptr w = Some p ->
        exists c, refcount w ex_h9 = Ok c ex_h9 /\ refcount w ex_h9 = Ok c ex_h9).
Proof.
  apply (clone_then_drop ex_h9 [ex_v9] ex_v9 0 0 ex_v9 (mkHeap (<[4105 := 2]> (h_mem ex_h9)) (h_blocks ex_h9)));
    [reach_ex9|left; reflexivity|vm_compute; reflexivity|vm_compute; reflexivity].
Defined.

Lemma prop_identity_holds_witness :
  match prop_identity 0 0 8192 0 0 ex_v9 ex_h9 with
  | Ok b h' => b = true /\ reachable (mkWorld h' [ex_v9])
               /\ forall w t, In w [ex_v9] -> view w ex_h9 = Ok t ex_h9 -> view w h' = Ok t h'
  | Panicked p => p = PAllocNull \/ p = PAssertAlign
  | UB => False
  end.
Proof.
  apply (prop_identity_holds ex_h9 [ex_v9] ex_v9 0 0 8192 0 0); [reach_ex9|left; reflexivity|reflexivity].
Defined.

Lemma inline_array_quickcheck_witness :
  match inline_array 4096 0 0 8192 0 0 ex_s9 heap_empty with
  | Ok b h' => b = true /\ reachable (mkWorld h' [])
               /\ forall w t, In w [] -> view w heap_empty = Ok t heap_empty -> view w h' = Ok t h'
  | Panicked p => p = PAllocNull \/ p = PAssertAlign
                  \/ (2 ^ 48 <= Z.of_nat (length ex_s9) /\ (p = PUnwrap \/ p = PAssertLen))
  | UB => False
  end.
Proof.
  apply (inline_array_quickcheck heap_empty [] 4096 0 0 8192 0 0 ex_s9);
    [apply reach_init|vm_compute; reflexivity|reflexivity].
Defined.

Lemma big_header_len_roundtrip_witness :
  ((nth 6 (le_bytes 300 8) 0 = 0 /\ nth 7 (le_bytes 300 8) 0 = 0) <-> 300 < 2 ^ 48)
  /\ (300 < 2 ^ 48 ->
      let hh := mkHeap (mem_write (4096 + 2) (firstn BIG_REMOTE_LEN_BYTES (le_bytes 300 8)) ∅) ∅ in
      big_len 4096 hh = Ok 300 hh).
Proof.
  apply (big_header_len_roundtrip 300 4096 ∅ ∅). lia.
Defined.

Lemma new_inline_layout_witness :
  new 0 [1; 2; 3] heap_empty
  = Ok (mkIA ([1; 2; 3] ++ repeat 0 (7 - length [1; 2; 3]) ++ [Z.of_nat (length [1; 2; 3]) * 4])) heap_empty.
Proof.
  apply (new_inline_layout 0 [1; 2; 3] heap_empty). cbn. lia.
Defined.

Lemma make_mut_idempotent_witness :
  make_mut 4096 0 ex_v9m ex_h9m = Ok (ex_v9m, SHeap 8192 9) ex_h9m.
Proof.
  refine (make_mut_idempotent ex_h9s (repeat ex_v9 255) 0 ex_v9 8192 0 ex_v9m (SHeap 8192 9) ex_h9m
            _ _ _ 4096 0);
    [exact (reach_ex9_shared 255 ltac:(lia))|reflexivity|vm_compute; reflexivity].
Defined.
